(** * PyQEA: a quantum-inspired sampling optimiser (build/lib/PyQEA/qea.py)

    Shallow embedding of the class [QuantumEvAlgorithm] and of its methods
    [quantum_individual_init], [quantum_sampling],
    [restricted_quantum_sampling], [elitist_sample_evaluation],
    [quantum_update], [progress] and [training].

    Modelling conventions.
    - numpy floats are exact rationals ([Q], compared with [==]); rounding
      error of IEEE arithmetic is outside the model, and so is the division
      by a scaler that is 0 ([x / 0] is 0 in [Q], [inf] or [nan] in numpy).
    - an (n, D) array is a list of n rows, a row is a list of D rationals.
    - the array [Q] that [training] creates and hands to the other methods
      is one cell of the machine state; the methods read and write it
      there, and [best_of_best] is either a view of its row 0 or an array
      of its own.
    - the global numpy random state is a pair of streams in the world: the
      standard normal variates and the uniform variates of [0, 1) that the
      generator is going to deliver, each with a read position.
      [np.random.normal(loc, scale)] is [loc + scale * z] for the next
      standard variate [z].
    - [time.time()] reads the next value of a clock stream.
    - the cost function and the restrictions are row-wise: the vectorised
      call on a batch is the [map] of a function on rows.
    - counts ([n_dims], [elitist_level], [sample_size], [N_iterations],
      [saving_interval]) are natural numbers.
    - the [while] loop of the restricted sampler takes a bound on its number
      of rounds; running out of it is the outcome [Hang]. *)

From Stdlib Require Import QArith Qround Qabs List Bool Arith ZArith Lia Lqa.
From Stdlib Require Import Permutation Sorted Ascii.
Import ListNotations.
Open Scope Q_scope.

(** ** Numeric prelude *)

Definition row := list Q.
Definition batch := list row.

(** [x < y] on floats, as a boolean. *)
Definition Qltb (x y : Q) : bool := negb (Qle_bool y x).

Definition np_maximum (x y : Q) : Q := if Qle_bool x y then y else x.
Definition np_minimum (x y : Q) : Q := if Qle_bool x y then x else y.

(** [np.round]: nearest integer, a tie goes to the even neighbour. *)
Definition np_round (x : Q) : Q :=
  let f := Qfloor x in
  let r := x - inject_Z f in
  if Qltb r (1 # 2) then inject_Z f
  else if Qltb (1 # 2) r then inject_Z (f + 1)
  else if Z.even f then inject_Z f else inject_Z (f + 1).

(** A Python [bool] multiplied by a float. *)
Definition bool_times (b : bool) (x : Q) : Q := if b then x else 0.

Fixpoint zip_with {A B C : Type} (f : A -> B -> C)
         (xs : list A) (ys : list B) : list C :=
  match xs, ys with
  | x :: xs', y :: ys' => f x y :: zip_with f xs' ys'
  | _, _ => []
  end.

(** Boolean-mask indexing [a[mask, :]]. *)
Fixpoint select {A : Type} (mask : list bool) (xs : list A) : list A :=
  match mask, xs with
  | b :: mask', x :: xs' =>
      if b then x :: select mask' xs' else select mask' xs'
  | _, _ => []
  end.

Definition vadd : row -> row -> row := zip_with Qplus.
Definition vsub : row -> row -> row := zip_with Qminus.
Definition vscale_div (v : row) (c : Q) : row := map (fun x => x / c) v.

(** ** Data model *)

(** The quantum individual [Q]: row 0 holds the means, row 1 the standard
    deviations. *)
Record individual := mkQ { mu : row; sigma : row }.

(** What the attribute [best_of_best] refers to.  [Q[0:1, :]] is a numpy
    view: it shares the memory of row 0 of [Q], so a later in-place write
    [Q[0:1] = ...] is seen through it.  The result of
    [elitist_sample_evaluation] is an array of its own. *)
Inductive ndref :=
| ViewOfMu
| Owned (v : row).

Record QuantumEvAlgorithm := mkQEA {
  cost_function : row -> Q;
  n_dims : nat;
  sigma_scaler : Q;
  mu_scaler : Q;
  elitist_level : nat;
  ros_flag : bool;
  saving_interval : nat;
  upper : row;
  lower : row;
  integral_id : list bool;
  restrictions : list (row -> Q);
  best_of_best : ndref
}.

Definition set_elitist_level (s : QuantumEvAlgorithm) (k : nat) :=
  mkQEA (cost_function s) (n_dims s) (sigma_scaler s) (mu_scaler s) k
        (ros_flag s) (saving_interval s) (upper s) (lower s) (integral_id s)
        (restrictions s) (best_of_best s).

Definition set_best_of_best (s : QuantumEvAlgorithm) (r : ndref) :=
  mkQEA (cost_function s) (n_dims s) (sigma_scaler s) (mu_scaler s)
        (elitist_level s) (ros_flag s) (saving_interval s) (upper s) (lower s)
        (integral_id s) (restrictions s) r.

(** One history snapshot: [Q_history[j]], [best_performer_marker[j]] and
    [function_evaluations[j]]. *)
Record snapshot := mkSnap { snap_Q : individual; snap_cost : Q; snap_evals : nat }.

(** Everything outside the object: the random generator, the clock, the
    terminal and the file written by [np.savez]; [cost_calls] counts the
    calls of the cost function. *)
Record world := mkWorld {
  gauss : nat -> Q;
  normals_drawn : nat;
  uniform : nat -> Q;
  uniforms_drawn : nat;
  wall_clock : nat -> Q;
  clock_reads : nat;
  cost_calls : nat;
  stdout : list (nat * nat * Q);
  npz : option (list snapshot)
}.

(** The interpreter state: the object, the array [Q] and the world. *)
Record machine := mkMachine {
  self : QuantumEvAlgorithm;
  Qarr : individual;
  env : world
}.

(** ** Effects: state and exceptions *)

(** [Hang] stands for a [while] loop that is still running when its bound
    is used up. *)
Inductive exn := AssertionError | ZeroDivisionError | UnboundLocalError | Hang.

Inductive outcome (A : Type) :=
| Ret (a : A) (m : machine)
| Raise (e : exn) (m : machine).
Arguments Ret {A} a m.
Arguments Raise {A} e m.

Definition M (A : Type) := machine -> outcome A.

Definition ret {A} (a : A) : M A := fun m => Ret a m.
Definition raise {A} (e : exn) : M A := fun m => Raise e m.
Definition bind {A B} (c : M A) (k : A -> M B) : M B :=
  fun m => match c m with
           | Ret a m' => k a m'
           | Raise e m' => Raise e m'
           end.

Notation "x <- c ;; k" := (bind c (fun x => k))
  (at level 61, c at next level, right associativity).
Notation "c ;;; k" := (bind c (fun _ => k))
  (at level 61, right associativity).

Definition get_self : M QuantumEvAlgorithm := fun m => Ret (self m) m.
Definition put_self (s : QuantumEvAlgorithm) : M unit :=
  fun m => Ret tt (mkMachine s (Qarr m) (env m)).
Definition get_Q : M individual := fun m => Ret (Qarr m) m.
Definition put_Q (q : individual) : M unit :=
  fun m => Ret tt (mkMachine (self m) q (env m)).

(** [self.best_of_best] read as a value. *)
Definition deref (r : ndref) (q : individual) : row :=
  match r with
  | ViewOfMu => mu q
  | Owned v => v
  end.

Definition read_best_of_best : M row :=
  fun m => Ret (deref (best_of_best (self m)) (Qarr m)) m.

(** [self.cost_function(x)] on a batch; one call. *)
Definition call_cost (xs : batch) : M (list Q) :=
  fun m =>
    let w := env m in
    Ret (map (cost_function (self m)) xs)
        (mkMachine (self m) (Qarr m)
           (mkWorld (gauss w) (normals_drawn w) (uniform w) (uniforms_drawn w)
              (wall_clock w) (clock_reads w) (S (cost_calls w)) (stdout w)
              (npz w))).

(** The cost of a (1, D) array. *)
Definition call_cost1 (x : row) : M Q :=
  cs <- call_cost [x] ;; ret (hd 0 cs).

(** [np.random.normal(loc, scale, size=(n, d))], filled row by row.
    numpy raises ValueError for a negative scale; there is no such outcome
    here, [loc + scale * z] is drawn for every scale. *)
Definition np_random_normal (loc scale : row) (n d : nat) : M batch :=
  fun m =>
    let w := env m in
    let p := normals_drawn w in
    Ret (map (fun r =>
                map (fun i => nth i loc 0
                              + nth i scale 0 * gauss w (p + r * d + i)%nat)
                    (seq 0 d))
             (seq 0 n))
        (mkMachine (self m) (Qarr m)
           (mkWorld (gauss w) (p + n * d) (uniform w) (uniforms_drawn w)
              (wall_clock w) (clock_reads w) (cost_calls w) (stdout w)
              (npz w))).

(** [np.random.rand(n, d)]. *)
Definition np_random_rand (n d : nat) : M batch :=
  fun m =>
    let w := env m in
    let p := uniforms_drawn w in
    Ret (map (fun r => map (fun i => uniform w (p + r * d + i)%nat) (seq 0 d))
             (seq 0 n))
        (mkMachine (self m) (Qarr m)
           (mkWorld (gauss w) (normals_drawn w) (uniform w) (p + n * d)
              (wall_clock w) (clock_reads w) (cost_calls w) (stdout w)
              (npz w))).

(** [time.time()]. *)
Definition time_time : M Q :=
  fun m =>
    let w := env m in
    Ret (wall_clock w (clock_reads w))
        (mkMachine (self m) (Qarr m)
           (mkWorld (gauss w) (normals_drawn w) (uniform w) (uniforms_drawn w)
              (wall_clock w) (S (clock_reads w)) (cost_calls w) (stdout w)
              (npz w))).

(** ** quantum_individual_init *)

Definition quantum_individual_init : M individual :=
  s <- get_self ;;
  u <- np_random_rand 2 (n_dims s) ;;
  let Q0 := vadd (lower s) (zip_with Qmult (upper s) (nth 0%nat u [])) in
  let Q1 := zip_with Qmult (vsub (upper s) (lower s))
                     (repeat 1 (n_dims s)) in
  let Q := mkQ Q0 Q1 in
  put_Q Q ;;;
  put_self (set_best_of_best s ViewOfMu) ;;;
  ret Q.

(** ** quantum_sampling *)

Definition clamp_row (s : QuantumEvAlgorithm) (r : row) : row :=
  zip_with np_minimum (zip_with np_maximum r (lower s)) (upper s).

Definition place_rounded (mask : list bool) (r : row) : row :=
  zip_with (fun x (b : bool) => if b then np_round x else x) r mask.

Definition quantum_sampling (n_samples : nat) : M batch :=
  s <- get_self ;;
  Q <- get_Q ;;
  if existsb (fun b => b) (integral_id s) then
    normal_samples <- np_random_normal (mu Q) (sigma Q) n_samples (n_dims s) ;;
    let samples := map (clamp_row s) normal_samples in
    ret (map (place_rounded (integral_id s)) samples)
  else
    normal_samples <- np_random_normal (mu Q) (sigma Q) n_samples (n_dims s) ;;
    ret (map (clamp_row s) normal_samples).

(** ** restricted_quantum_sampling *)

(** [valid = valid * h(samples) >= 0], which Python reads as
    [(valid * h(samples)) >= 0]. *)
Definition mask_step_ge (samples : batch) (valid : list bool) (h : row -> Q)
  : list bool :=
  map (fun x => Qle_bool 0 x) (zip_with bool_times valid (map h samples)).

(** [valid_s = valid_s * h(new_samples) > 0]. *)
Definition mask_step_gt (samples : batch) (valid : list bool) (h : row -> Q)
  : list bool :=
  map (fun x => Qltb 0 x) (zip_with bool_times valid (map h samples)).

(** The [while] loop; [fuel] bounds the number of rounds. *)
Fixpoint resample_loop (fuel n_samples : nat) (samples : batch) : M batch :=
  if (0 <? n_samples - length samples)%nat then
    match fuel with
    | O => raise Hang
    | S fuel' =>
        s <- get_self ;;
        new_samples <- quantum_sampling (n_samples - length samples) ;;
        let valid_s :=
          fold_left (mask_step_gt new_samples) (restrictions s)
                    (repeat true (n_samples - length samples)) in
        resample_loop fuel' n_samples (samples ++ select valid_s new_samples)
    end
  else ret samples.

Definition restricted_quantum_sampling (fuel n_samples : nat) : M batch :=
  s <- get_self ;;
  samples <- quantum_sampling n_samples ;;
  let valid :=
    fold_left (mask_step_ge samples) (restrictions s)
              (repeat true n_samples) in
  resample_loop fuel n_samples (select valid samples).

(** ** elitist_sample_evaluation *)

Fixpoint insert_by (cost : list Q) (i : nat) (l : list nat) : list nat :=
  match l with
  | [] => [i]
  | j :: l' =>
      if Qle_bool (nth j cost 0) (nth i cost 0) then j :: insert_by cost i l'
      else i :: l
  end.

(** [np.argsort]: the indices by ascending cost, equal costs in index
    order. *)
Definition np_argsort (cost : list Q) : list nat :=
  fold_left (fun acc i => insert_by cost i acc) (seq 0 (length cost)) [].

(** [np.mean(rows, axis=0)] of a (k, d) array.  The mean of no row (NaN in
    numpy) comes out as the zero vector. *)
Definition np_mean_axis0 (d : nat) (rows : batch) : row :=
  vscale_div (fold_left vadd rows (repeat 0 d))
             (inject_Z (Z.of_nat (length rows))).

Definition elitist_sample_evaluation (samples : batch) : M row :=
  cost <- call_cost samples ;;
  let sort_order := np_argsort cost in
  s <- get_self ;;
  let elitist_level := elitist_level s in
  ret (np_mean_axis0 (length (hd [] samples))
         (map (fun j => nth j samples [])
              (firstn elitist_level sort_order))).

(** ** quantum_update *)

(** A value of [np.abs(mu_delta) / sigma]: numpy divides by zero into
    [inf] or [nan]. *)
Inductive npfloat := Finite (q : Q) | PosInf | NaN.

Definition abs_div (delta s : Q) : npfloat :=
  if Qeq_bool s 0 then (if Qeq_bool delta 0 then NaN else PosInf)
  else Finite (Qabs delta / s).

Definition lt_one (x : npfloat) : bool :=
  match x with Finite q => Qltb q 1 | PosInf => false | NaN => false end.

Definition gt_one (x : npfloat) : bool :=
  match x with Finite q => Qltb 1 q | PosInf => true | NaN => false end.

(** One component of
    [(sigma_decider < 1) * sigma / sigma_scaler
     + (sigma_decider > 1) * sigma * sigma_scaler]. *)
Definition scaled_sigma (sigma_scaler : Q) (decider : npfloat) (sg : Q) : Q :=
  bool_times (lt_one decider) sg / sigma_scaler
  + bool_times (gt_one decider) sg * sigma_scaler.

(** One component of the write
    [updated_sigma[condition] = updated_sigma[condition] * sigma_scaler]
    with [condition = (updated_sigma < 0.001) * (sigma_decider < 1)]. *)
Definition ros_correction (sigma_scaler : Q) (decider : npfloat) (us : Q) : Q :=
  if Qltb us (1 # 1000) && lt_one decider then us * sigma_scaler else us.

Definition quantum_update (best_performing_sample : row) : M individual :=
  s <- get_self ;;
  Q <- get_Q ;;
  let mu := mu Q in
  let sigma := sigma Q in
  let scaling := mu_scaler s in
  let mu_delta := vsub best_performing_sample mu in
  bob <- read_best_of_best ;;
  let mu_delta_2 := vsub bob mu in
  let updated_mu := vadd mu (vscale_div (vadd mu_delta mu_delta_2) scaling) in
  let sigma_decider := zip_with abs_div mu_delta sigma in
  let sigma_scaler := sigma_scaler s in
  let updated_sigma := zip_with (scaled_sigma sigma_scaler) sigma_decider sigma in
  c <- call_cost1 updated_mu ;;
  let updated_sigma :=
    if Qltb 10 c && ros_flag s
    then zip_with (ros_correction sigma_scaler) sigma_decider updated_sigma
    else updated_sigma in
  put_Q (mkQ updated_mu updated_sigma) ;;;
  get_Q.

(** ** progress *)

(** [bar_len * count / float(total)] divides by zero when [total] is 0.
    The rendered bar is not modelled: one line on the terminal is the
    triple of the count, the total and the cost in the status text. *)
Definition progress (count total : nat) (status : Q) : M unit :=
  if (total =? 0)%nat then raise ZeroDivisionError
  else fun m =>
    let w := env m in
    Ret tt (mkMachine (self m) (Qarr m)
              (mkWorld (gauss w) (normals_drawn w) (uniform w)
                 (uniforms_drawn w) (wall_clock w) (clock_reads w)
                 (cost_calls w) (stdout w ++ [(count, total, status)])
                 (npz w))).

(** ** training *)

Record results := mkResults { res_time : Q; res_cost : Q; res_min : row }.

(** What one pass through the loop body did; kept for the statements
    below, the program has no such log. *)
Record iter_log := mkLog {
  it_index : nat;
  it_elitist_level : nat;
  it_best_performer : row;
  it_bob_before : row;
  it_replaced : bool;
  it_bob_after : row
}.

(** The local variables of [training] that the loop body changes. *)
Record locals := mkLocals {
  best_performer : option row;
  j : nat;
  history : list snapshot;
  trace : list iter_log
}.

Definition set_elitist_level_attr (k : nat) : M unit :=
  s <- get_self ;; put_self (set_elitist_level s k).

Definition set_best_of_best_attr (r : ndref) : M unit :=
  s <- get_self ;; put_self (set_best_of_best s r).

(** [a[j] = x] on a list; numpy raises out of range, this leaves the list
    as it is. *)
Fixpoint list_set {A} (l : list A) (k : nat) (x : A) : list A :=
  match l, k with
  | [], _ => []
  | _ :: l', O => x :: l'
  | y :: l', S k' => y :: list_set l' k' x
  end.

Definition np_savez (h : list snapshot) : M unit :=
  fun m =>
    let w := env m in
    Ret tt (mkMachine (self m) (Qarr m)
              (mkWorld (gauss w) (normals_drawn w) (uniform w)
                 (uniforms_drawn w) (wall_clock w) (clock_reads w)
                 (cost_calls w) (stdout w) (Some h))).

(** The body of [for i in range(N_iterations + 1)]; the boolean is [true]
    when the body leaves the loop through [break]. *)
Definition loop_body (N_iterations sample_size fuel : nat) (i : nat)
           (lv : locals) : M (bool * locals) :=
  s <- get_self ;;
  samples <- (match restrictions s with
              | _ :: _ => restricted_quantum_sampling fuel sample_size
              | [] => quantum_sampling sample_size
              end) ;;
  (if (Z.of_nat N_iterations - 1 <? Z.of_nat i)%Z
   then set_elitist_level_attr 1 else ret tt) ;;;
  s1 <- get_self ;;
  best_performer <- elitist_sample_evaluation samples ;;
  bob_before <- read_best_of_best ;;
  c_best <- call_cost1 best_performer ;;
  c_bob <- call_cost1 bob_before ;;
  (if Qltb c_best c_bob
   then set_best_of_best_attr (Owned best_performer) else ret tt) ;;;
  Q <- quantum_update best_performer ;;
  bob_after <- read_best_of_best ;;
  saved <- (if (i mod saving_interval s =? 0)%nat then
              output <- call_cost1 best_performer ;;
              ret (S (j lv),
                   list_set (history lv) (j lv)
                            (mkSnap Q output (i * sample_size)))
            else ret (j lv, history lv)) ;;
  (if (i mod 50 =? 0)%nat then
     c <- call_cost1 best_performer ;; progress i N_iterations c
   else ret tt) ;;;
  c <- call_cost1 best_performer ;;
  let lv' :=
    mkLocals (Some best_performer) (fst saved) (snd saved)
             (trace lv ++ [mkLog i (elitist_level s1) best_performer
                                 bob_before (Qltb c_best c_bob) bob_after]) in
  ret (Qle_bool c (1 # 10000) && false, lv').

Fixpoint for_range (body : nat -> locals -> M (bool * locals))
         (range : list nat) (lv : locals) : M locals :=
  match range with
  | [] => ret lv
  | i :: rest =>
      r <- body i lv ;;
      if fst r then ret (snd r) else for_range body rest (snd r)
  end.

Definition zero_snapshot (d : nat) : snapshot :=
  mkSnap (mkQ (repeat 0 d) (repeat 0 d)) 0 0.

(** [training]; [results_path] and [filename] only name the file of
    [np.savez] and the [print] lines are left out.  The second component
    of the value is the log of the loop. *)
Definition training (N_iterations sample_size : nat) (save : bool)
           (fuel : nat) : M (results * list iter_log) :=
  s <- get_self ;;
  (if (elitist_level s <? sample_size)%nat then ret tt
   else raise AssertionError) ;;;
  Q <- quantum_individual_init ;;
  (if (saving_interval s =? 0)%nat then raise ZeroDivisionError else ret tt) ;;;
  let Q_history :=
    repeat (zero_snapshot (n_dims s)) (1 + N_iterations / saving_interval s) in
  beginning <- time_time ;;
  lv <- for_range (loop_body N_iterations sample_size fuel)
                  (seq 0 (N_iterations + 1))
                  (mkLocals None 0 Q_history []) ;;
  end_ <- time_time ;;
  match best_performer lv with
  | None => raise UnboundLocalError
  | Some bp =>
      c <- call_cost1 bp ;;
      let res := mkResults (end_ - beginning) c bp in
      (if save then np_savez (history lv) else ret tt) ;;;
      ret (res, trace lv)
  end.

(** ** Predicates of the statements *)

(** The domain invariant: the vectors have [n_dims] entries and
    [lower[i] <= upper[i]]. *)
Definition valid_domain (s : QuantumEvAlgorithm) : Prop :=
  length (lower s) = n_dims s /\ length (upper s) = n_dims s /\
  length (integral_id s) = n_dims s /\
  forall i, (i < n_dims s)%nat -> nth i (lower s) 0 <= nth i (upper s) 0.

Definition is_whole (x : Q) : Prop := x == inject_Z (Qfloor x).

(** The bounds of every integral dimension are integers. *)
Definition integral_bounds_whole (s : QuantumEvAlgorithm) : Prop :=
  forall i, nth i (integral_id s) false = true ->
            is_whole (nth i (lower s) 0) /\ is_whole (nth i (upper s) 0).

(** A row of [n_dims] values, each within the bounds of its dimension. *)
Definition in_bounds (s : QuantumEvAlgorithm) (r : row) : Prop :=
  length r = n_dims s /\
  forall i, (i < n_dims s)%nat ->
            nth i (lower s) 0 <= nth i r 0 <= nth i (upper s) 0.

(** The values of the integral dimensions are integers. *)
Definition integral_values_whole (s : QuantumEvAlgorithm) (r : row) : Prop :=
  forall i, (i < n_dims s)%nat -> nth i (integral_id s) false = true ->
            is_whole (nth i r 0).

(** A row is feasible when every restriction is non-negative on it. *)
Definition feasible (hs : list (row -> Q)) (r : row) : Prop :=
  Forall (fun h => 0 <= h r) hs.

(** The machine after [k] more normal variates have been drawn. *)
Definition drawn (m : machine) (k : nat) : machine :=
  let w := env m in
  mkMachine (self m) (Qarr m)
    (mkWorld (gauss w) (normals_drawn w + k) (uniform w) (uniforms_drawn w)
       (wall_clock w) (clock_reads w) (cost_calls w) (stdout w) (npz w)).

(** The draws of [np.random.normal(Q[0, :], Q[1, :], size=(n, n_dims))] in
    the machine [m]. *)
Definition normal_rows (m : machine) (n : nat) : batch :=
  map (fun r =>
         map (fun i => nth i (mu (Qarr m)) 0
                       + nth i (sigma (Qarr m)) 0
                         * gauss (env m)
                             (normals_drawn (env m) + r * n_dims (self m) + i)%nat)
             (seq 0 (n_dims (self m))))
      (seq 0 n).

(** The batch that [quantum_sampling] returns in the machine [m]. *)
Definition sampled_rows (m : machine) (n : nat) : batch :=
  if existsb (fun b => b) (integral_id (self m))
  then map (place_rounded (integral_id (self m)))
           (map (clamp_row (self m)) (normal_rows m n))
  else map (clamp_row (self m)) (normal_rows m n).

(** The machine after [k] more calls of the cost function. *)
Definition charged (m : machine) (k : nat) : machine :=
  let w := env m in
  mkMachine (self m) (Qarr m)
    (mkWorld (gauss w) (normals_drawn w) (uniform w) (uniforms_drawn w)
       (wall_clock w) (clock_reads w) (k + cost_calls w) (stdout w) (npz w)).

(** The two rows that [quantum_update] writes into [Q] in the machine [m]
    for the elite target [bp]. *)
Definition next_mu (m : machine) (bp : row) : row :=
  let mu := mu (Qarr m) in
  vadd mu (vscale_div
             (vadd (vsub bp mu)
                   (vsub (deref (best_of_best (self m)) (Qarr m)) mu))
             (mu_scaler (self m))).

Definition next_sigma (m : machine) (bp : row) : row :=
  let sigma := sigma (Qarr m) in
  let sigma_decider := zip_with abs_div (vsub bp (mu (Qarr m))) sigma in
  let updated_sigma :=
    zip_with (scaled_sigma (sigma_scaler (self m))) sigma_decider sigma in
  if Qltb 10 (cost_function (self m) (next_mu m bp)) && ros_flag (self m)
  then zip_with (ros_correction (sigma_scaler (self m))) sigma_decider
                updated_sigma
  else updated_sigma.

(** The anti-stagnation correction applies to a dimension of deviation
    [sg]. *)
Definition correction_fires (m : machine) (bp : row) (sg : Q) : Prop :=
  ros_flag (self m) = true
  /\ 10 < cost_function (self m) (next_mu m bp)
  /\ sg / sigma_scaler (self m) < 1 # 1000.

(** Two machines that differ at most in the number of normal variates
    drawn: what a sampler leaves of the machine it ran in. *)
Definition same_but_normals (m m' : machine) : Prop :=
  self m' = self m /\ Qarr m' = Qarr m
  /\ gauss (env m') = gauss (env m)
  /\ uniform (env m') = uniform (env m)
  /\ uniforms_drawn (env m') = uniforms_drawn (env m)
  /\ wall_clock (env m') = wall_clock (env m)
  /\ clock_reads (env m') = clock_reads (env m)
  /\ cost_calls (env m') = cost_calls (env m)
  /\ stdout (env m') = stdout (env m)
  /\ npz (env m') = npz (env m).

(** The elite target that [elitist_sample_evaluation] returns in the
    machine [m]. *)
Definition elite_target (m : machine) (samples : batch) : row :=
  np_mean_axis0 (length (hd [] samples))
    (map (fun j => nth j samples [])
         (firstn (elitist_level (self m))
                 (np_argsort (map (cost_function (self m)) samples)))).

(** What no step of [training] changes once the loop runs: the cost
    function, the restrictions, the saving interval and the clock with the
    number of its readings. *)
Definition same_setup (m m' : machine) : Prop :=
  cost_function (self m') = cost_function (self m)
  /\ restrictions (self m') = restrictions (self m)
  /\ saving_interval (self m') = saving_interval (self m)
  /\ wall_clock (env m') = wall_clock (env m)
  /\ clock_reads (env m') = clock_reads (env m).

(** One pass through the loop body, from the machine [m] with the locals
    [lv] to [m'] with [lv'], at index [i]: the pass adds one entry [e] to
    the log. *)
Definition step_ok (N i : nat) (lv : locals) (m : machine)
           (lv' : locals) (m' : machine) : Prop :=
  exists e,
    trace lv' = trace lv ++ [e]
    /\ best_performer lv' = Some (it_best_performer e)
    /\ it_index e = i
    /\ it_elitist_level e
       = (if (N <=? i)%nat then 1%nat else elitist_level (self m))
    /\ elitist_level (self m') = it_elitist_level e
    /\ it_bob_before e = deref (best_of_best (self m)) (Qarr m)
    /\ it_bob_after e = deref (best_of_best (self m')) (Qarr m')
    /\ it_replaced e
       = Qltb (cost_function (self m) (it_best_performer e))
              (cost_function (self m) (it_bob_before e))
    /\ best_of_best (self m')
       = (if it_replaced e then Owned (it_best_performer e)
          else best_of_best (self m))
    /\ same_setup m m'.

(** The individual that [quantum_individual_init] builds in the machine
    [m], and the machine it leaves. *)
Definition initial_individual (m : machine) : individual :=
  let s := self m in
  let w := env m in
  let u := map (fun i => uniform w (uniforms_drawn w + 0 * n_dims s + i)%nat)
               (seq 0 (n_dims s)) in
  mkQ (vadd (lower s) (zip_with Qmult (upper s) u))
      (zip_with Qmult (vsub (upper s) (lower s)) (repeat 1 (n_dims s))).

Definition initialised (m : machine) : machine :=
  let w := env m in
  mkMachine (set_best_of_best (self m) ViewOfMu) (initial_individual m)
    (mkWorld (gauss w) (normals_drawn w) (uniform w)
       (uniforms_drawn w + 2 * n_dims (self m))
       (wall_clock w) (clock_reads w) (cost_calls w) (stdout w) (npz w)).

(** The machine after one more reading of the clock. *)
Definition ticked (m : machine) : machine :=
  let w := env m in
  mkMachine (self m) (Qarr m)
    (mkWorld (gauss w) (normals_drawn w) (uniform w) (uniforms_drawn w)
       (wall_clock w) (S (clock_reads w)) (cost_calls w) (stdout w) (npz w)).

(** The level of elitism that the pass of index [i] works with, [L] being
    the configured one. *)
Definition level_at (N L i : nat) : nat := if (N <=? i)%nat then 1%nat else L.

(** The elite target of the last entry of a log. *)
Definition last_target (log : list iter_log) : option row :=
  match rev log with
  | [] => None
  | e :: _ => Some (it_best_performer e)
  end.

(** The world [w] with the uniform variates replaced by the constant [c]. *)
Definition with_uniform (w : world) (c : Q) : world :=
  mkWorld (gauss w) (normals_drawn w) (fun _ => c) (uniforms_drawn w)
          (wall_clock w) (clock_reads w) (cost_calls w) (stdout w) (npz w).

(** What [quantum_sampling] makes of the raw draw [x] in dimension [i]:
    the clamp, then the rounding where the dimension is integral. *)
Definition sample_value (s : QuantumEvAlgorithm) (i : nat) (x : Q) : Q :=
  let c := np_minimum (np_maximum x (nth i (lower s) 0)) (nth i (upper s) 0) in
  if nth i (integral_id s) false then np_round c else c.

(** The three vectors of the domain have [n_dims] entries. *)
Definition domain_shapes (s : QuantumEvAlgorithm) : Prop :=
  length (lower s) = n_dims s /\ length (upper s) = n_dims s
  /\ length (integral_id s) = n_dims s.

(** The sum of column [i] of a list of rows. *)
Definition column_sum (i : nat) (rows : batch) : Q :=
  fold_right (fun r acc => nth i r 0 + acc) 0 rows.

(** The order of two row indices by the cost of their rows. *)
Definition cost_le (cost : list Q) (a b : nat) : Prop :=
  nth a cost 0 <= nth b cost 0.

(** Every restriction is positive on the row. *)
Definition strictly_feasible (hs : list (row -> Q)) (r : row) : Prop :=
  Forall (fun h => 0 < h r) hs.

(** The passes that write a history snapshot and those that print a
    progress line. *)
Definition saved_pass (s : nat) (e : iter_log) : bool :=
  (it_index e mod s =? 0)%nat.

Definition progress_pass (e : iter_log) : bool :=
  (it_index e mod 50 =? 0)%nat.

(** The progress line of a pass. *)
Definition progress_line (f : row -> Q) (N : nat) (e : iter_log)
  : nat * nat * Q :=
  (it_index e, N, f (it_best_performer e)).

(** The snapshot [snap] records the pass [e]: the cost of its elite target
    and [index * sample_size] evaluations. *)
Definition snapshot_of (f : row -> Q) (ss : nat)
           (snap : snapshot) (e : iter_log) : Prop :=
  snap_cost snap = f (it_best_performer e)
  /\ snap_evals snap = (it_index e * ss)%nat.

Definition count_if (b : bool) : nat := if b then 1%nat else 0%nat.

(** What one pass through the loop body does to the history buffers, the
    terminal, the generators and the count of cost calls. *)
Definition step_effects (N ss i : nat) (lv : locals) (m : machine)
           (lv' : locals) (m' : machine) : Prop :=
  let s := saving_interval (self m) in
  let f := cost_function (self m) in
  exists e,
    trace lv' = trace lv ++ [e]
    /\ it_index e = i
    /\ j lv' = (j lv + count_if (saved_pass s e))%nat
    /\ history lv'
       = (if saved_pass s e
          then list_set (history lv) (j lv)
                        (mkSnap (Qarr m') (f (it_best_performer e)) (i * ss))
          else history lv)
    /\ stdout (env m')
       = stdout (env m)
         ++ (if progress_pass e then [progress_line f N e] else [])
    /\ cost_calls (env m')
       = (cost_calls (env m) + 5 + count_if (saved_pass s e)
          + count_if (progress_pass e))%nat
    /\ npz (env m') = npz (env m)
    /\ uniforms_drawn (env m') = uniforms_drawn (env m)
    /\ n_dims (self m') = n_dims (self m)
    /\ (restrictions (self m) = [] ->
        normals_drawn (env m')
        = (normals_drawn (env m) + ss * n_dims (self m))%nat).

(** The state of the loop of [training] between two passes, [m0] being
    the machine in which the loop was entered: the passes so far are
    0, 1, 2, ...; the first [j] slots of the history record the saved
    passes in order; the terminal has one line per progress pass; the cost
    function was called 5 times per pass, once more per saved pass and per
    progress pass. *)
Definition loop_inv (N ss : nat) (m0 : machine) (lv : locals) (m : machine)
  : Prop :=
  let s := saving_interval (self m0) in
  let f := cost_function (self m0) in
  let log := trace lv in
  map it_index log = seq 0 (length log)
  /\ j lv = length (filter (saved_pass s) log)
  /\ length (history lv) = (1 + N / s)%nat
  /\ Forall2 (snapshot_of f ss) (firstn (j lv) (history lv))
             (filter (saved_pass s) log)
  /\ stdout (env m)
     = stdout (env m0) ++ map (progress_line f N) (filter progress_pass log)
  /\ cost_calls (env m)
     = (cost_calls (env m0) + 5 * length log
        + length (filter (saved_pass s) log)
        + length (filter progress_pass log))%nat
  /\ npz (env m) = npz (env m0)
  /\ uniforms_drawn (env m) = uniforms_drawn (env m0)
  /\ (restrictions (self m0) = [] ->
      normals_drawn (env m)
      = (normals_drawn (env m0) + length log * (ss * n_dims (self m0)))%nat)
  /\ same_setup m0 m
  /\ n_dims (self m) = n_dims (self m0).

(** Between two passes of a log: if the earlier one replaced
    [best_of_best], the later one leaves a [best_of_best] that costs no more
    than the one the earlier pass left. *)
Definition never_worse (f : row -> Q) (e e' : iter_log) : Prop :=
  it_replaced e = true -> f (it_bob_after e') <= f (it_bob_after e).

(** The text that [progress] renders: Python's [round] of a float (ties
    go to the even integer), the number of filled cells
    [int(round(bar_len * count / float(total)))] with [bar_len = 30], the
    percentage [round(100.0 * count / float(total), 1)], and the bar
    ['|' * filled_len + '_' * (bar_len - filled_len)], where a string
    repeated a negative number of times is empty. *)
Definition py_round (x : Q) : Z :=
  let f := Qfloor x in
  let r := x - inject_Z f in
  if Qltb r (1 # 2) then f
  else if Qltb (1 # 2) r then (f + 1)%Z
  else if Z.even f then f else (f + 1)%Z.

Definition str_repeat (c : ascii) (k : Z) : list ascii := repeat c (Z.to_nat k).

Definition filled_len (count total : nat) : Z :=
  py_round (30 * inject_Z (Z.of_nat count) / inject_Z (Z.of_nat total)).

Definition percents (count total : nat) : Q :=
  inject_Z (py_round (100 * inject_Z (Z.of_nat count)
                      / inject_Z (Z.of_nat total) * 10)) / 10.

Definition progress_bar (count total : nat) : list ascii :=
  str_repeat "|"%char (filled_len count total)
  ++ str_repeat "_"%char (30 - filled_len count total).

(** The object [s] describes the same domain as [s0] and has the same
    mu_scaler. *)
Definition same_domain (s0 s : QuantumEvAlgorithm) : Prop :=
  lower s = lower s0 /\ upper s = upper s0 /\ integral_id s = integral_id s0
  /\ n_dims s = n_dims s0 /\ mu_scaler s = mu_scaler s0.

(** The batch of a pass of the loop of [training]: the restricted sampler
    when the list of restrictions is not empty, the plain one otherwise. *)
Definition pass_sampler (fuel sample_size : nat) : M batch :=
  s <- get_self ;;
  match restrictions s with
  | _ :: _ => restricted_quantum_sampling fuel sample_size
  | [] => quantum_sampling sample_size
  end.

(** The machine [m] after [self.elitist_level = k]. *)
Definition with_level (m : machine) (k : nat) : machine :=
  mkMachine (set_elitist_level (self m) k) (Qarr m) (env m).

(** The locals of [training] when the loop is entered: no elite target
    yet, the history buffers filled with zeros and [j = 0]. *)
Definition initial_locals (s : QuantumEvAlgorithm) (N : nat) : locals :=
  mkLocals None 0
           (repeat (zero_snapshot (n_dims s)) (1 + N / saving_interval s)) [].

(** No deviation of the individual is negative: the scale is one that
    [np.random.normal] accepts. *)
Definition scale_accepted (m : machine) : Prop :=
  Forall (fun sg => 0 <= sg) (sigma (Qarr m)).

(** ** Concrete configurations *)

Module Examples.

Definition first (r : row) : Q := nth 0%nat r 0.

(** A fresh world around a generator that only delivers [z] as a normal
    variate and [u] as a uniform one; the clock reads 0, 1, 2, ... *)
Definition world_of (z u : Q) : world :=
  mkWorld (fun _ => z) 0 (fun _ => u) 0
          (fun k => inject_Z (Z.of_nat k)) 0 0 [] None.

(** A one-dimensional optimiser on [lo, hi] with the default
    [mu_scaler = 100]. *)
Definition qea_1d (f : row -> Q) (lo hi : Q) (integral : bool)
           (scaler : Q) (elitist : nat) (ros : bool)
           (hs : list (row -> Q)) : QuantumEvAlgorithm :=
  mkQEA f 1 scaler 100 elitist ros 1 [hi] [lo] [integral] hs ViewOfMu.

Definition square (r : row) : Q := first r * first r.

(** Two restrictions, [x - 5 >= 0] and [x + 10 >= 0], on [-10, 10]; the
    individual has mean 0 and deviation 1 and the generator delivers 1. *)
Definition h_ge5 (r : row) : Q := first r - 5.
Definition h_ge_minus10 (r : row) : Q := first r + 10.

Definition two_restrictions : machine :=
  mkMachine (qea_1d square (-10) 10 false (100001 # 100000) 4 false
                    [h_ge5; h_ge_minus10])
            (mkQ [0] [1]) (world_of 1 0).

(** Mean 0, deviation 1, [sigma_scaler = 2]; the elite target 1 is exactly
    one deviation away from the mean. *)
Definition one_sigma_away : machine :=
  mkMachine (qea_1d square (-10) 10 false 2 4 false [])
            (mkQ [0] [1]) (world_of 0 0).

(** [ros_flag] set, a cost that is always 11, and a deviation of 1/2000. *)
Definition stagnating : machine :=
  mkMachine (qea_1d (fun _ => 11) (-10) 10 false 2 4 true [])
            (mkQ [0] [1 # 2000]) (world_of 0 0).

(** Cost [x * x] on [0, 10]; the first uniform variate is 0, so the initial
    mean is 0, the minimum; every normal variate is 1. *)
Definition starts_at_minimum : machine :=
  mkMachine (qea_1d square 0 10 false (100001 # 100000) 1 false [])
            (mkQ [] []) (world_of 1 0).

(** An integral dimension with the bounds 2/5 and 5. *)
Definition fractional_bound : machine :=
  mkMachine (qea_1d square (2 # 5) 5 true (100001 # 100000) 4 false [])
            (mkQ [0] [1]) (world_of 0 0).

(** An integral dimension with the bounds -10 and 10. *)
Definition integral_domain : machine :=
  mkMachine (qea_1d square (-10) 10 true (100001 # 100000) 4 false [])
            (mkQ [1 # 3] [2]) (world_of (7 # 5) 0).

(** Mean 0, deviation 1/2000 and [ros_flag] set, with the cost [x * x]. *)
Definition narrow : machine :=
  mkMachine (qea_1d square (-10) 10 false 2 4 true [])
            (mkQ [0] [1 # 2000]) (world_of 0 0).

(** The domains [-10, -5] and [-10, 10]. *)
Definition negative_domain (u : Q) : machine :=
  mkMachine (qea_1d square (-10) (-5) false (100001 # 100000) 4 false [])
            (mkQ [] []) (world_of 0 u).

Definition symmetric_domain (u : nat -> Q) : machine :=
  mkMachine (qea_1d square (-10) 10 false (100001 # 100000) 4 false [])
            (mkQ [] [])
            (mkWorld (fun _ => 0) 0 u 0 (fun _ => 0) 0 0 [] None).

(** Cost [x * x] on [-10, 10] with [elitist_level = 2]. *)
Definition plain_run : machine :=
  mkMachine (qea_1d square (-10) 10 false (100001 # 100000) 2 false [])
            (mkQ [] []) (world_of 1 (1 # 2)).

(** The value and the final machine of an outcome. *)
Definition value_of {A : Type} (d : A) (o : outcome A) : A :=
  match o with Ret a _ => a | Raise _ _ => d end.

Definition machine_of {A : Type} (o : outcome A) : machine :=
  match o with Ret _ m => m | Raise _ m => m end.

Definition no_result : results * list iter_log := (mkResults 0 0 [], []).

(** Two iterations after the first one, three samples each. *)
Definition plain_outcome : outcome (results * list iter_log) :=
  training 2 3 false 0 plain_run.

(** A dimension pinned to 3: both bounds are 3. *)
Definition pinned : machine :=
  mkMachine (qea_1d square 3 3 false (100001 # 100000) 4 false [])
            (mkQ [0] [1]) (world_of (7 # 5) (1 # 2)).

(** Mean 1 and deviation 0 on [-10, 10]. *)
Definition frozen : machine :=
  mkMachine (qea_1d square (-10) 10 false (100001 # 100000) 4 false [])
            (mkQ [1] [0]) (world_of (7 # 5) (1 # 2)).

(** The restriction [x - 5 >= 0] alone on [-10, 10], mean 0, deviation 1;
    the generator delivers 7. *)
Definition one_restriction : machine :=
  mkMachine (qea_1d square (-10) 10 false (100001 # 100000) 4 false [h_ge5])
            (mkQ [0] [1]) (world_of 7 0).

(** The restriction [x - 20 >= 0], which no point of [-10, 10] meets. *)
Definition h_ge20 (r : row) : Q := first r - 20.

Definition infeasible : machine :=
  mkMachine (qea_1d square (-10) 10 false (100001 # 100000) 4 false [h_ge20])
            (mkQ [0] [1]) (world_of 7 0).

(** [plain_run] with saving_interval = 0. *)
Definition no_saving : machine :=
  mkMachine (mkQEA square 1 (100001 # 100000) 100 2 false 0 [10] [-10] [false]
                   [] ViewOfMu)
            (mkQ [] []) (world_of 1 (1 # 2)).

(** Cost [x * x] on [-10, 10], elitist_level 1; the uniform variate 1/2
    puts the initial mean at -5, and the normal variates 0, 1/4, 1/2, ...
    spread the samples. *)
Definition improving : machine :=
  mkMachine (qea_1d square (-10) 10 false (100001 # 100000) 1 false [])
            (mkQ [] [])
            (mkWorld (fun k => inject_Z (Z.of_nat k) / 4) 0 (fun _ => 1 # 2) 0
                     (fun k => inject_Z (Z.of_nat k)) 0 0 [] None).



(** Two iterations after the first one, three samples each. *)
Definition improving_outcome : outcome (results * list iter_log) :=
  training 2 3 false 0 improving.

End Examples.

(** * Properties *)

(** ** Comparisons, clamping and rounding *)

Lemma Qltb_lt (x y : Q) : Qltb x y = true <-> x < y.
Proof.
  unfold Qltb. rewrite negb_true_iff. split; intro H.
  - apply Qnot_le_lt. intro Hle. apply Qle_bool_iff in Hle. congruence.
  - destruct (Qle_bool y x) eqn:E; [|reflexivity].
    apply Qle_bool_iff in E. exfalso. apply (Qlt_not_le _ _ H E).
Qed.

Lemma Qltb_ge (x y : Q) : Qltb x y = false <-> y <= x.
Proof.
  unfold Qltb. rewrite negb_false_iff. apply Qle_bool_iff.
Qed.

Lemma Qle_bool_false (x y : Q) : Qle_bool x y = false -> y < x.
Proof.
  intro H. apply Qltb_lt. unfold Qltb. now rewrite H.
Qed.

Lemma clamp_between (x lo hi : Q) :
  lo <= hi -> lo <= np_minimum (np_maximum x lo) hi <= hi.
Proof.
  intro Hlh. unfold np_minimum, np_maximum.
  destruct (Qle_bool x lo) eqn:E1.
  - destruct (Qle_bool lo hi) eqn:E2.
    + split; [apply Qle_refl | exact Hlh].
    + split; [exact Hlh | apply Qle_refl].
  - apply Qle_bool_false in E1.
    destruct (Qle_bool x hi) eqn:E2.
    + apply Qle_bool_iff in E2. split; [apply Qlt_le_weak; exact E1 | exact E2].
    + split; [exact Hlh | apply Qle_refl].
Qed.

Lemma np_round_cases (x : Q) :
  np_round x = inject_Z (Qfloor x) \/
  (np_round x = inject_Z (Qfloor x + 1) /\ inject_Z (Qfloor x) < x).
Proof.
  unfold np_round.
  destruct (Qltb (x - inject_Z (Qfloor x)) (1 # 2)) eqn:E1; [now left|].
  apply Qltb_ge in E1.
  assert (Hlt : inject_Z (Qfloor x) < x) by lra.
  destruct (Qltb (1 # 2) (x - inject_Z (Qfloor x))); [now right|].
  destruct (Z.even (Qfloor x)); [now left | now right].
Qed.

Lemma np_round_whole (x : Q) : is_whole (np_round x).
Proof.
  unfold is_whole.
  destruct (np_round_cases x) as [-> | [-> _]]; now rewrite Qfloor_Z.
Qed.

Lemma inject_Z_lt_inv (a b : Z) : inject_Z a < inject_Z b -> (a < b)%Z.
Proof. now rewrite <- Zlt_Qlt. Qed.

Lemma np_round_between (x lo hi : Q) :
  is_whole lo -> is_whole hi -> lo <= x <= hi -> lo <= np_round x <= hi.
Proof.
  unfold is_whole. intros Hlo Hhi [H1 H2].
  assert (Hfl : (Qfloor lo <= Qfloor x)%Z) by now apply Qfloor_resp_le.
  pose proof (Qfloor_le x) as Hfx.
  destruct (np_round_cases x) as [-> | [-> Hlt]].
  - split.
    + rewrite Hlo. now rewrite <- Zle_Qle.
    + apply Qle_trans with x; assumption.
  - split.
    + rewrite Hlo. rewrite <- Zle_Qle. lia.
    + rewrite Hhi. rewrite <- Zle_Qle.
      assert (Hz : (Qfloor x < Qfloor hi)%Z).
      { apply inject_Z_lt_inv. rewrite <- Hhi. lra. }
      lia.
Qed.

(** ** Lists *)

Lemma zip_with_length {A B C} (f : A -> B -> C) xs ys :
  length (zip_with f xs ys) = Nat.min (length xs) (length ys).
Proof.
  revert ys. induction xs as [|x xs IH]; intros [|y ys]; simpl; auto.
Qed.

Lemma zip_with_nth {A B C} (f : A -> B -> C) xs ys i dx dy d :
  (i < length xs)%nat -> (i < length ys)%nat ->
  nth i (zip_with f xs ys) d = f (nth i xs dx) (nth i ys dy).
Proof.
  revert ys i. induction xs as [|x xs IH]; intros [|y ys] [|i]; simpl;
    intros H1 H2; try lia; auto.
  apply IH; lia.
Qed.

Lemma clamp_row_length s r :
  length (lower s) = length r -> length (upper s) = length r ->
  length (clamp_row s r) = length r.
Proof.
  intros Hl Hu. unfold clamp_row. rewrite !zip_with_length. lia.
Qed.

Lemma clamp_row_nth s r i :
  length (lower s) = length r -> length (upper s) = length r ->
  (i < length r)%nat ->
  nth i (clamp_row s r) 0
  = np_minimum (np_maximum (nth i r 0) (nth i (lower s) 0)) (nth i (upper s) 0).
Proof.
  intros Hl Hu Hi. unfold clamp_row.
  rewrite (zip_with_nth _ _ _ _ 0 0) by (rewrite ?zip_with_length; lia).
  now rewrite (zip_with_nth _ _ _ _ 0 0) by lia.
Qed.

Lemma place_rounded_nth mask r i :
  length mask = length r -> (i < length r)%nat ->
  nth i (place_rounded mask r) 0
  = if nth i mask false then np_round (nth i r 0) else nth i r 0.
Proof.
  intros Hm Hi. unfold place_rounded.
  now rewrite (zip_with_nth _ _ _ _ 0 false) by lia.
Qed.

(** ** quantum_sampling *)

Lemma clamp_row_in_bounds s r :
  valid_domain s -> length r = n_dims s -> in_bounds s (clamp_row s r).
Proof.
  intros (Hl & Hu & _ & Hle) Hr. split.
  - rewrite clamp_row_length; congruence.
  - intros i Hi. rewrite clamp_row_nth by congruence.
    apply clamp_between. now apply Hle.
Qed.

Lemma place_rounded_in_bounds s r :
  valid_domain s -> integral_bounds_whole s -> in_bounds s r ->
  in_bounds s (place_rounded (integral_id s) r)
  /\ integral_values_whole s (place_rounded (integral_id s) r).
Proof.
  intros (Hl & Hu & Hm & Hle) Hw [Hr Hb]. split; [split|].
  - unfold place_rounded. rewrite zip_with_length. lia.
  - intros i Hi. rewrite place_rounded_nth by lia.
    destruct (nth i (integral_id s) false) eqn:E; [|now apply Hb].
    destruct (Hw i E) as [Hwl Hwu]. apply np_round_between; auto.
  - intros i Hi E. rewrite place_rounded_nth by lia. rewrite E.
    apply np_round_whole.
Qed.

Lemma existsb_id_false (mask : list bool) i :
  existsb (fun b => b) mask = false -> nth i mask false = false.
Proof.
  revert i. induction mask as [|b mask IH]; intros [|i]; simpl; auto.
  - now intros H%orb_false_elim.
  - intros [_ H]%orb_false_elim. now apply IH.
Qed.

Lemma quantum_sampling_eq n m :
  quantum_sampling n m = Ret (sampled_rows m n) (drawn m (n * n_dims (self m))).
Proof.
  unfold quantum_sampling, sampled_rows, bind, get_self, get_Q.
  destruct (existsb (fun b => b) (integral_id (self m))); reflexivity.
Qed.

Lemma normal_rows_shape m n :
  length (normal_rows m n) = n
  /\ Forall (fun r => length r = n_dims (self m)) (normal_rows m n).
Proof.
  unfold normal_rows. split.
  - now rewrite length_map, length_seq.
  - apply Forall_forall. intros r (k & <- & _)%in_map_iff.
    now rewrite length_map, length_seq.
Qed.

Lemma sampled_rows_length m n : length (sampled_rows m n) = n.
Proof.
  unfold sampled_rows.
  destruct (existsb _ _); rewrite ?length_map; apply normal_rows_shape.
Qed.

Lemma sampled_rows_in_bounds m n :
  valid_domain (self m) -> integral_bounds_whole (self m) ->
  Forall (fun r => in_bounds (self m) r /\ integral_values_whole (self m) r)
         (sampled_rows m n).
Proof.
  intros Hv Hw. destruct (normal_rows_shape m n) as [_ Hshape].
  rewrite Forall_forall in Hshape.
  unfold sampled_rows. apply Forall_forall. intros r Hin.
  destruct (existsb (fun b => b) (integral_id (self m))) eqn:E.
  - apply in_map_iff in Hin as (r1 & <- & Hin).
    apply in_map_iff in Hin as (r0 & <- & Hin).
    apply place_rounded_in_bounds; auto.
    apply clamp_row_in_bounds; auto.
  - apply in_map_iff in Hin as (r0 & <- & Hin). split.
    + apply clamp_row_in_bounds; auto.
    + intros i _ Hi. rewrite (existsb_id_false _ i E) in Hi. discriminate.
Qed.

(** C5, as amended: for a valid domain whose integral dimensions have
    integer bounds, any individual and n > 0, [quantum_sampling] returns n
    rows of [n_dims] values, every value lies within the bounds of its
    dimension, and the values of the integral dimensions are integers. *)
Theorem quantum_sampling_in_bounds (m : machine) (n : nat) :
  valid_domain (self m) -> integral_bounds_whole (self m) -> (0 < n)%nat ->
  exists samples m',
    quantum_sampling n m = Ret samples m'
    /\ length samples = n
    /\ Forall (fun r => in_bounds (self m) r
                        /\ integral_values_whole (self m) r) samples.
Proof.
  intros Hv Hw _. exists (sampled_rows m n), (drawn m (n * n_dims (self m))).
  split; [apply quantum_sampling_eq|]. split.
  - apply sampled_rows_length.
  - now apply sampled_rows_in_bounds.
Qed.

(** C5 as stated fails: with the bounds 2/5 and 5 on an integral dimension
    the draw 0 is clamped to 2/5 and rounded to 0, below the lower bound. *)
Lemma quantum_sampling_leaves_domain :
  valid_domain (self Examples.fractional_bound)
  /\ quantum_sampling 1 Examples.fractional_bound
     = Ret [[0]] (drawn Examples.fractional_bound 1)
  /\ ~ in_bounds (self Examples.fractional_bound) [0].
Proof.
  split; [|split].
  - repeat split; intros [|i] Hi; simpl in *; try lia. discriminate.
  - reflexivity.
  - intros [_ H]. specialize (H 0%nat (Nat.lt_0_1)). simpl in H.
    destruct H as [H _]. revert H. apply Qlt_not_le. reflexivity.
Qed.

Lemma quantum_sampling_in_bounds_witness :
  exists samples m',
    quantum_sampling 2 Examples.integral_domain = Ret samples m'
    /\ length samples = 2%nat
    /\ Forall (fun r => in_bounds (self Examples.integral_domain) r
                        /\ integral_values_whole
                             (self Examples.integral_domain) r)
              samples.
Proof.
  apply (quantum_sampling_in_bounds Examples.integral_domain 2).
  - repeat split; intros [|i] Hi; simpl in *; try lia. discriminate.
  - intros [|[|i]] Hi; simpl in Hi; try discriminate.
    split; reflexivity.
  - lia.
Defined.

(** ** quantum_update *)

Lemma quantum_update_eq bp m :
  quantum_update bp m
  = Ret (mkQ (next_mu m bp) (next_sigma m bp))
        (mkMachine (self m) (mkQ (next_mu m bp) (next_sigma m bp))
                   (env (charged m 1))).
Proof.
  unfold quantum_update, next_sigma, bind, get_self, get_Q, read_best_of_best,
    call_cost1, call_cost, put_Q, ret, bind. simpl.
  fold (next_mu m bp).
  destruct (Qltb 10 (cost_function (self m) (next_mu m bp)) && ros_flag (self m));
    reflexivity.
Qed.

Lemma abs_div_finite d sg :
  ~ sg == 0 -> abs_div d sg = Finite (Qabs d / sg).
Proof.
  intro H. unfold abs_div. destruct (Qeq_bool sg 0) eqn:E; [|reflexivity].
  apply Qeq_bool_eq in E. contradiction.
Qed.

(** The decider and the uncorrected deviation of dimension [i]. *)
Lemma next_sigma_nth m bp i :
  (i < length bp)%nat -> (i < length (mu (Qarr m)))%nat ->
  (i < length (sigma (Qarr m)))%nat ->
  let sg := nth i (sigma (Qarr m)) 0 in
  let x := abs_div (nth i bp 0 - nth i (mu (Qarr m)) 0) sg in
  let c := sigma_scaler (self m) in
  nth i (next_sigma m bp) 0
  = if Qltb 10 (cost_function (self m) (next_mu m bp)) && ros_flag (self m)
    then ros_correction c x (scaled_sigma c x sg)
    else scaled_sigma c x sg.
Proof.
  intros Hb Hm Hs sg x c. unfold next_sigma.
  assert (Hd : nth i (zip_with abs_div (vsub bp (mu (Qarr m))) (sigma (Qarr m)))
                   NaN = x).
  { rewrite (zip_with_nth _ _ _ _ 0 0); unfold vsub;
      rewrite ?zip_with_length; try lia.
    now rewrite (zip_with_nth _ _ _ _ 0 0) by lia. }
  assert (Hu : nth i (zip_with (scaled_sigma c)
                        (zip_with abs_div (vsub bp (mu (Qarr m)))
                                  (sigma (Qarr m)))
                        (sigma (Qarr m))) 0 = scaled_sigma c x sg).
  { rewrite (zip_with_nth _ _ _ _ NaN 0); unfold vsub;
      rewrite ?zip_with_length; try lia.
    fold (vsub bp (mu (Qarr m))). now rewrite Hd. }
  fold c.
  destruct (Qltb 10 (cost_function (self m) (next_mu m bp)) && ros_flag (self m)).
  - rewrite (zip_with_nth _ _ _ _ NaN 0); unfold vsub;
      rewrite ?zip_with_length; try lia.
    fold (vsub bp (mu (Qarr m))). now rewrite Hd, Hu.
  - exact Hu.
Qed.

Lemma scaled_sigma_shrink c d sg :
  ~ sg == 0 -> Qabs d / sg < 1 ->
  lt_one (abs_div d sg) = true /\ scaled_sigma c (abs_div d sg) sg == sg / c.
Proof.
  intros Hsg Hlt. rewrite abs_div_finite by assumption.
  unfold scaled_sigma, lt_one, gt_one.
  assert (E1 : Qltb (Qabs d / sg) 1 = true) by now apply Qltb_lt.
  assert (E2 : Qltb 1 (Qabs d / sg) = false).
  { apply Qltb_ge. now apply Qlt_le_weak. }
  rewrite E1, E2. split; [reflexivity|]. unfold bool_times, Qdiv. ring.
Qed.

Lemma scaled_sigma_grow c d sg :
  ~ sg == 0 -> 1 < Qabs d / sg ->
  lt_one (abs_div d sg) = false /\ scaled_sigma c (abs_div d sg) sg == sg * c.
Proof.
  intros Hsg Hlt. rewrite abs_div_finite by assumption.
  unfold scaled_sigma, lt_one, gt_one.
  assert (E1 : Qltb (Qabs d / sg) 1 = false).
  { apply Qltb_ge. now apply Qlt_le_weak. }
  assert (E2 : Qltb 1 (Qabs d / sg) = true) by now apply Qltb_lt.
  rewrite E1, E2. split; [reflexivity|]. unfold bool_times, Qdiv. ring.
Qed.

(** C4, as amended: in a dimension of nonzero sigma, a ratio
    |elite_target - mean| / sigma below 1 gives the new sigma
    sigma / sigma_scaler, multiplied by sigma_scaler again when the
    anti-stagnation correction applies (ros_flag set, the cost of the new
    mean above 10 and sigma / sigma_scaler below 0.001); a ratio above 1
    gives sigma * sigma_scaler. *)
Theorem quantum_update_sigma_rule (m : machine) (bp : row) (i : nat) :
  (i < length bp)%nat -> (i < length (mu (Qarr m)))%nat ->
  (i < length (sigma (Qarr m)))%nat ->
  ~ nth i (sigma (Qarr m)) 0 == 0 ->
  exists Q m',
    quantum_update bp m = Ret Q m' /\ Qarr m' = Q /\
    let d := nth i bp 0 - nth i (mu (Qarr m)) 0 in
    let sg := nth i (sigma (Qarr m)) 0 in
    let c := sigma_scaler (self m) in
    (Qabs d / sg < 1 ->
       (correction_fires m bp sg -> nth i (sigma Q) 0 == sg / c * c)
       /\ (~ correction_fires m bp sg -> nth i (sigma Q) 0 == sg / c))
    /\ (1 < Qabs d / sg -> nth i (sigma Q) 0 == sg * c).
Proof.
  intros Hb Hm Hs Hsg. eexists. eexists.
  split; [apply quantum_update_eq|]. split; [reflexivity|].
  cbv zeta. cbn [sigma].
  rewrite next_sigma_nth by assumption. cbv zeta.
  set (d := nth i bp 0 - nth i (mu (Qarr m)) 0).
  set (sg := nth i (sigma (Qarr m)) 0) in *.
  set (c := sigma_scaler (self m)).
  unfold correction_fires. fold c.
  split.
  - intro Hlt. destruct (scaled_sigma_shrink c d sg Hsg Hlt) as [Hone Heq].
    unfold ros_correction. rewrite Hone, andb_true_r.
    destruct (Qltb 10 (cost_function (self m) (next_mu m bp))) eqn:Ecost;
      destruct (ros_flag (self m)) eqn:Eros; simpl.
    + destruct (Qltb (scaled_sigma c (abs_div d sg) sg) (1 # 1000)) eqn:Esmall.
      * split; [intros _; now rewrite Heq|].
        intros Hn. exfalso. apply Hn. repeat split.
        -- now apply Qltb_lt.
        -- apply Qltb_lt in Esmall. now rewrite <- Heq.
      * split; [|intros _; exact Heq].
        intros (_ & _ & Hsmall). apply Qltb_ge in Esmall.
        rewrite Heq in Esmall. exfalso. apply (Qlt_not_le _ _ Hsmall Esmall).
    + split; [intros (Hf & _); discriminate | intros _; exact Heq].
    + split; [|intros _; exact Heq].
      intros (_ & Hc & _). apply Qltb_ge in Ecost.
      exfalso. apply (Qlt_not_le _ _ Hc Ecost).
    + split; [intros (Hf & _); discriminate | intros _; exact Heq].
  - intro Hgt. destruct (scaled_sigma_grow c d sg Hsg Hgt) as [Hone Heq].
    unfold ros_correction. rewrite Hone, andb_false_r.
    destruct (Qltb 10 (cost_function (self m) (next_mu m bp)) && ros_flag (self m));
      exact Heq.
Qed.

Lemma quantum_update_sigma_rule_witness :
  exists Q m',
    quantum_update [0] Examples.narrow = Ret Q m' /\ Qarr m' = Q /\
    let d := 0 - 0 in
    let sg := 1 # 2000 in
    let c := 2 in
    (Qabs d / sg < 1 ->
       (correction_fires Examples.narrow [0] sg -> nth 0 (sigma Q) 0 == sg / c * c)
       /\ (~ correction_fires Examples.narrow [0] sg -> nth 0 (sigma Q) 0 == sg / c))
    /\ (1 < Qabs d / sg -> nth 0 (sigma Q) 0 == sg * c).
Proof.
  apply (quantum_update_sigma_rule Examples.narrow [0] 0).
  - simpl; lia.
  - simpl; lia.
  - simpl; lia.
  - simpl. intro H. discriminate H.
Defined.

(** C4 as stated fails in two places.  With ros_flag set, a cost of 11 and
    sigma = 1/2000 the ratio is 0, below 1, and the new sigma is sigma again,
    not sigma / sigma_scaler.  With the elite target exactly one sigma away
    the ratio is 1 and the new sigma is 0, not sigma * sigma_scaler. *)
Lemma sigma_rule_as_stated_fails :
  (exists Q m',
     quantum_update [0] Examples.stagnating = Ret Q m'
     /\ Qabs (0 - 0) / (1 # 2000) < 1
     /\ ~ nth 0 (sigma Q) 0 == (1 # 2000) / 2)
  /\ (exists Q m',
        quantum_update [1] Examples.one_sigma_away = Ret Q m'
        /\ Qabs (1 - 0) / 1 == 1
        /\ ~ nth 0 (sigma Q) 0 == 1 * 2).
Proof.
  split; eexists; eexists.
  - split; [apply quantum_update_eq|]. split; [reflexivity|].
    intro H. discriminate H.
  - split; [apply quantum_update_eq|]. split; [reflexivity|].
    intro H. discriminate H.
Qed.

(** A dimension whose ratio is exactly 1 passes neither test of
    [(sigma_decider < 1) * ... + (sigma_decider > 1) * ...]: its new sigma
    is 0. *)
Lemma scaled_sigma_tie c d sg :
  ~ sg == 0 -> Qabs d / sg == 1 ->
  lt_one (abs_div d sg) = false /\ scaled_sigma c (abs_div d sg) sg == 0.
Proof.
  intros Hsg Heq. rewrite abs_div_finite by assumption.
  unfold scaled_sigma, lt_one, gt_one.
  assert (E1 : Qltb (Qabs d / sg) 1 = false).
  { apply Qltb_ge. rewrite Heq. apply Qle_refl. }
  assert (E2 : Qltb 1 (Qabs d / sg) = false).
  { apply Qltb_ge. rewrite Heq. apply Qle_refl. }
  rewrite E1, E2. split; [reflexivity|]. unfold bool_times, Qdiv. ring.
Qed.

Lemma quantum_update_tie (m : machine) (bp : row) (i : nat) :
  (i < length bp)%nat -> (i < length (mu (Qarr m)))%nat ->
  (i < length (sigma (Qarr m)))%nat ->
  ~ nth i (sigma (Qarr m)) 0 == 0 ->
  Qabs (nth i bp 0 - nth i (mu (Qarr m)) 0) / nth i (sigma (Qarr m)) 0 == 1 ->
  nth i (next_sigma m bp) 0 == 0.
Proof.
  intros Hb Hm Hs Hsg Htie. rewrite next_sigma_nth by assumption. cbv zeta.
  destruct (scaled_sigma_tie (sigma_scaler (self m)) _ _ Hsg Htie) as [Hone Heq].
  unfold ros_correction. rewrite Hone, andb_false_r.
  destruct (Qltb 10 (cost_function (self m) (next_mu m bp)) && ros_flag (self m));
    exact Heq.
Qed.

(** Away from a ratio of exactly 1 a positive sigma stays positive. *)
Lemma quantum_update_sigma_positive_off_tie (m : machine) (bp : row) (i : nat) :
  (i < length bp)%nat -> (i < length (mu (Qarr m)))%nat ->
  (i < length (sigma (Qarr m)))%nat ->
  0 < nth i (sigma (Qarr m)) 0 -> 1 < sigma_scaler (self m) ->
  ~ Qabs (nth i bp 0 - nth i (mu (Qarr m)) 0) / nth i (sigma (Qarr m)) 0 == 1 ->
  0 < nth i (next_sigma m bp) 0.
Proof.
  intros Hb Hm Hs Hpos Hc Hoff. rewrite next_sigma_nth by assumption. cbv zeta.
  set (sg := nth i (sigma (Qarr m)) 0) in *.
  set (d := nth i bp 0 - nth i (mu (Qarr m)) 0) in *.
  set (c := sigma_scaler (self m)) in *.
  assert (Hsg : ~ sg == 0) by lra.
  assert (Hdiv : 0 < sg / c) by (apply Qlt_shift_div_l; lra).
  assert (Hmul : 0 < sg * c) by (apply Qmult_lt_0_compat; lra).
  destruct (Q_dec (Qabs d / sg) 1) as [[Hlt | Hgt] | Heq]; [| |contradiction].
  - destruct (scaled_sigma_shrink c d sg Hsg Hlt) as [Hone Heq].
    unfold ros_correction. rewrite Hone, andb_true_r.
    destruct (Qltb 10 (cost_function (self m) (next_mu m bp)) && ros_flag (self m));
      [|now rewrite Heq].
    destruct (Qltb (scaled_sigma c (abs_div d sg) sg) (1 # 1000));
      rewrite Heq; [|assumption].
    apply Qmult_lt_0_compat; lra.
  - destruct (scaled_sigma_grow c d sg Hsg Hgt) as [Hone Heq].
    unfold ros_correction. rewrite Hone, andb_false_r.
    destruct (Qltb 10 (cost_function (self m) (next_mu m bp)) && ros_flag (self m));
      now rewrite Heq.
Qed.

(** C2 fails on the code: the individual has sigma = 1 > 0, sigma_scaler is
    2 > 1, the elite target 1 lies exactly one sigma from the mean 0, and
    [quantum_update] leaves sigma = 0. *)
Theorem quantum_update_sigma_collapses :
  Forall (fun sg => 0 < sg) (sigma (Qarr Examples.one_sigma_away))
  /\ 1 < sigma_scaler (self Examples.one_sigma_away)
  /\ exists Q m',
       quantum_update [1] Examples.one_sigma_away = Ret Q m'
       /\ Qarr m' = Q
       /\ nth 0 (sigma Q) 0 == 0
       /\ ~ Forall (fun sg => 0 < sg) (sigma Q).
Proof.
  split; [|split].
  - repeat constructor.
  - reflexivity.
  - eexists. eexists. split; [apply quantum_update_eq|].
    split; [reflexivity|]. split; [reflexivity|].
    intro H. inversion H as [|x l Hx Hl]; subst. discriminate Hx.
Qed.

(** ** restricted_quantum_sampling *)

Lemma same_but_normals_refl m : same_but_normals m m.
Proof. repeat split. Qed.

Lemma same_but_normals_trans m1 m2 m3 :
  same_but_normals m1 m2 -> same_but_normals m2 m3 -> same_but_normals m1 m3.
Proof.
  unfold same_but_normals.
  intros (A1 & A2 & A3 & A4 & A5 & A6 & A7 & A8 & A9 & A10)
         (B1 & B2 & B3 & B4 & B5 & B6 & B7 & B8 & B9 & B10).
  repeat split; congruence.
Qed.

Lemma same_but_normals_drawn m k : same_but_normals m (drawn m k).
Proof. repeat split. Qed.

(** The loop returns or is still running when the bound is used up; it
    touches nothing but the generator. *)
Lemma resample_loop_frame fuel n samples m :
  match resample_loop fuel n samples m with
  | Ret _ m' => same_but_normals m m'
  | Raise e m' => e = Hang /\ same_but_normals m m'
  end.
Proof.
  revert samples m. induction fuel as [|fuel IH]; intros samples m; simpl.
  - destruct (0 <? n - length samples)%nat; unfold raise, ret.
    + split; [reflexivity | apply same_but_normals_refl].
    + apply same_but_normals_refl.
  - destruct (0 <? n - length samples)%nat; [|apply same_but_normals_refl].
    unfold bind at 1, get_self at 1. unfold bind at 1.
    rewrite quantum_sampling_eq.
    match goal with |- match resample_loop fuel n ?s ?m1 with _ => _ end =>
      specialize (IH s m1); destruct (resample_loop fuel n s m1) end.
    + eapply same_but_normals_trans; [apply same_but_normals_drawn | exact IH].
    + destruct IH as [-> IH]. split; [reflexivity|].
      eapply same_but_normals_trans; [apply same_but_normals_drawn | exact IH].
Qed.

Lemma restricted_quantum_sampling_frame fuel n m :
  match restricted_quantum_sampling fuel n m with
  | Ret _ m' => same_but_normals m m'
  | Raise e m' => e = Hang /\ same_but_normals m m'
  end.
Proof.
  unfold restricted_quantum_sampling.
  unfold bind at 1, get_self at 1. unfold bind at 1.
  rewrite quantum_sampling_eq.
  match goal with |- match resample_loop fuel n ?s ?m1 with _ => _ end =>
    pose proof (resample_loop_frame fuel n s m1) as H;
    destruct (resample_loop fuel n s m1) end.
  - eapply same_but_normals_trans; [apply same_but_normals_drawn | exact H].
  - destruct H as [-> H]. split; [reflexivity|].
    eapply same_but_normals_trans; [apply same_but_normals_drawn | exact H].
Qed.

(** One restriction in the first pass keeps a row that the mask had
    dropped: [False * h(row)] is 0 and [0 >= 0] holds. *)
Lemma mask_step_ge_revives samples valid h k r :
  nth_error samples k = Some r -> nth_error valid k = Some false ->
  nth_error (mask_step_ge samples valid h) k = Some true.
Proof.
  unfold mask_step_ge. revert valid k.
  induction samples as [|x samples IH]; intros [|b valid] [|k]; simpl;
    try discriminate.
  - now intros _ [= ->].
  - intros Hs Hv. now apply IH.
Qed.

(** The same step in the loop keeps it dropped: [0 > 0] fails. *)
Lemma mask_step_gt_keeps_dropped samples valid h k r :
  nth_error samples k = Some r -> nth_error valid k = Some false ->
  nth_error (mask_step_gt samples valid h) k = Some false.
Proof.
  unfold mask_step_gt. revert valid k.
  induction samples as [|x samples IH]; intros [|b valid] [|k]; simpl;
    try discriminate.
  - now intros _ [= ->].
  - intros Hs Hv. now apply IH.
Qed.

(** C1 fails on the code: with the restrictions x - 5 >= 0 and x + 10 >= 0
    the row [1], which violates the first, is returned. *)
Theorem restricted_sampling_returns_infeasible_row (fuel : nat) :
  restricted_quantum_sampling fuel 1 Examples.two_restrictions
  = Ret [[1]] (drawn Examples.two_restrictions 1)
  /\ Examples.h_ge5 [1] < 0
  /\ ~ feasible (restrictions (self Examples.two_restrictions)) [1].
Proof.
  split; [|split].
  - destruct fuel; reflexivity.
  - reflexivity.
  - intro H. inversion H as [|h hs Hh Hhs]; subst.
    revert Hh. apply Qlt_not_le. reflexivity.
Qed.

(** ** training *)

Lemma elitist_sample_evaluation_eq samples m :
  elitist_sample_evaluation samples m
  = Ret (elite_target m samples) (charged m 1).
Proof. reflexivity. Qed.

Lemma call_cost1_eq x m :
  call_cost1 x m = Ret (cost_function (self m) x) (charged m 1).
Proof. reflexivity. Qed.

Lemma sampler_frame fuel n m :
  match (match restrictions (self m) with
         | _ :: _ => restricted_quantum_sampling fuel n
         | [] => quantum_sampling n
         end) m with
  | Ret _ m' => same_but_normals m m'
  | Raise e m' =>
      e = Hang /\ restrictions (self m) <> [] /\ same_but_normals m m'
  end.
Proof.
  destruct (restrictions (self m)) eqn:E.
  - rewrite quantum_sampling_eq. apply same_but_normals_drawn.
  - pose proof (restricted_quantum_sampling_frame fuel n m) as H.
    destruct (restricted_quantum_sampling fuel n m); [exact H|].
    destruct H as [-> H]. repeat split; [discriminate | apply H..].
Qed.

(** Runs the operation at the head of a monadic computation. *)
Ltac run_op :=
  first [ rewrite elitist_sample_evaluation_eq
        | rewrite call_cost1_eq
        | rewrite quantum_update_eq
        | progress unfold bind, get_self, read_best_of_best,
            set_elitist_level_attr, set_best_of_best_attr, put_self,
            ret, raise ];
  cbv beta iota.

Ltac tidy :=
  cbn [self Qarr env charged set_elitist_level set_best_of_best
       cost_function n_dims sigma_scaler mu_scaler elitist_level ros_flag
       saving_interval upper lower integral_id restrictions best_of_best
       gauss normals_drawn uniform uniforms_drawn wall_clock clock_reads
       cost_calls stdout npz fst snd].

(** Splits on the test of the conditional at the head. *)
Ltac split_if :=
  match goal with
  | |- context [(if ?c then _ else _) ?m] =>
      lazymatch type of m with machine => destruct c eqn:? end
  end.

Lemma force_level (N i : nat) :
  (Z.of_nat N - 1 <? Z.of_nat i)%Z = (N <=? i)%nat.
Proof.
  destruct (Z.ltb_spec (Z.of_nat N - 1) (Z.of_nat i));
    destruct (Nat.leb_spec N i); try reflexivity; lia.
Qed.

Lemma loop_body_spec N ss fuel i lv m :
  match loop_body N ss fuel i lv m with
  | Ret (b, lv') m' => b = false /\ step_ok N i lv m lv' m'
  | Raise e m' =>
      (e = Hang /\ restrictions (self m) <> [])
      \/ (e = ZeroDivisionError /\ N = 0%nat)
  end.
Proof.
  unfold loop_body. rewrite force_level. repeat run_op.
  pose proof (sampler_frame fuel ss m) as Hs.
  destruct (match restrictions (self m) with
            | _ :: _ => restricted_quantum_sampling fuel ss
            | [] => quantum_sampling ss
            end m) as [samples m1 | e m1].
  2:{ left. destruct Hs as (-> & Hr & _). now split. }
  destruct Hs as (Hself & HQ & _ & _ & _ & Hclock & Hreads & _).
  destruct (N <=? i)%nat eqn:Eforce; repeat run_op; tidy.
  all: split_if; repeat run_op; tidy.
  all: split_if; repeat run_op; tidy.
  all: split_if; repeat run_op; tidy.
  all: try (unfold progress; split_if; repeat run_op; tidy).
  all: first
    [ right; split; [reflexivity | now apply Nat.eqb_eq]
    | split; [apply andb_false_r|];
      unfold step_ok, same_setup; eexists; tidy;
      cbn [trace best_performer it_index it_elitist_level it_best_performer
           it_bob_before it_replaced it_bob_after];
      rewrite ?Eforce;
      repeat match goal with
             | H : Qltb _ _ = _ |- _ => rewrite ?Hself, ?HQ in H; revert H
             end;
      rewrite ?Hself, ?HQ, ?Hclock, ?Hreads; intros;
      repeat split; try reflexivity; try (symmetry; assumption) ].
Qed.


Lemma quantum_individual_init_eq m :
  quantum_individual_init m = Ret (initial_individual m) (initialised m).
Proof.
  unfold quantum_individual_init, initial_individual, initialised.
  repeat run_op. reflexivity.
Qed.

Lemma time_time_eq m :
  time_time m = Ret (wall_clock (env m) (clock_reads (env m))) (ticked m).
Proof. reflexivity. Qed.

Lemma same_setup_refl m : same_setup m m.
Proof. repeat split. Qed.

Lemma same_setup_trans m1 m2 m3 :
  same_setup m1 m2 -> same_setup m2 m3 -> same_setup m1 m3.
Proof.
  unfold same_setup. intros (A1 & A2 & A3 & A4 & A5) (B1 & B2 & B3 & B4 & B5).
  repeat split; congruence.
Qed.

Lemma last_target_snoc log e :
  last_target (log ++ [e]) = Some (it_best_performer e).
Proof. unfold last_target. now rewrite rev_unit. Qed.

Lemma level_after N L a :
  (if (N <=? a)%nat then 1%nat else if (a <=? N)%nat then L else 1%nat)
  = (if (S a <=? N)%nat then L else 1%nat).
Proof.
  destruct (Nat.leb_spec N a); destruct (Nat.leb_spec a N);
    destruct (Nat.leb_spec (S a) N); try reflexivity; lia.
Qed.

Lemma level_during N L a :
  (if (N <=? a)%nat then 1%nat else if (a <=? N)%nat then L else 1%nat)
  = level_at N L a.
Proof.
  unfold level_at.
  destruct (Nat.leb_spec N a); destruct (Nat.leb_spec a N);
    try reflexivity; lia.
Qed.

(** The loop over the indices [a, a + 1, ..., a + k - 1], entered with the
    level of elitism that the earlier indices leave. *)
Lemma for_range_spec N ss fuel L k : forall a lv m,
  elitist_level (self m) = (if (a <=? N)%nat then L else 1%nat) ->
  match for_range (loop_body N ss fuel) (seq a k) lv m with
  | Ret lv' m' =>
      exists es,
        trace lv' = trace lv ++ es
        /\ map it_index es = seq a k
        /\ Forall (fun e => it_elitist_level e = level_at N L (it_index e)) es
        /\ (es = [] -> best_performer lv' = best_performer lv)
        /\ (es <> [] -> best_performer lv' = last_target es)
        /\ elitist_level (self m') = (if (a + k <=? N)%nat then L else 1%nat)
        /\ same_setup m m'
  | Raise e m' =>
      (e = Hang /\ restrictions (self m) <> [])
      \/ (e = ZeroDivisionError /\ N = 0%nat)
  end.
Proof.
  induction k as [|k IH]; intros a lv m Hlevel.
  - simpl. unfold ret. exists []. rewrite app_nil_r, Nat.add_0_r.
    repeat split; auto using same_setup_refl. congruence.
  - cbn [seq for_range]. unfold bind at 1.
    pose proof (loop_body_spec N ss fuel a lv m) as Hbody.
    destruct (loop_body N ss fuel a lv m) as [[b lv1] m1 | e m1];
      [|exact Hbody].
    destruct Hbody as
      [-> (e & Htr & Hbp & Hidx & Hlv & Hlv1 & _ & _ & _ & _ & Hsetup)].
    cbn [fst snd].
    rewrite Hlevel in Hlv.
    assert (Hnext : elitist_level (self m1)
                    = (if (S a <=? N)%nat then L else 1%nat)).
    { rewrite Hlv1, Hlv. apply level_after. }
    specialize (IH (S a) lv1 m1 Hnext).
    destruct (for_range (loop_body N ss fuel) (seq (S a) k) lv1 m1)
      as [lv' m' | e' m'].
    + destruct IH as (es & Htr' & Hidx' & Hall & Hnil & Hlast & Hend & Hsetup').
      exists (e :: es). repeat match goal with |- _ /\ _ => split end.
      * rewrite Htr', Htr, <- app_assoc. reflexivity.
      * cbn [map]. now rewrite Hidx, Hidx'.
      * constructor; [|exact Hall].
        rewrite Hlv, Hidx. apply level_during.
      * discriminate.
      * intros _. destruct es as [|e0 es0].
        -- rewrite Hnil by reflexivity. rewrite Hbp.
           symmetry. apply (last_target_snoc []).
        -- rewrite Hlast by discriminate.
           unfold last_target. cbn [rev].
           destruct (rev es0 ++ [e0]) eqn:E; [|reflexivity].
           now apply app_eq_nil in E as [_ E].
      * rewrite Hend. now rewrite Nat.add_succ_comm.
      * eapply same_setup_trans; eassumption.
    + destruct Hsetup as (_ & Hr & _).
      destruct IH as [[-> IH] | IH]; [left | right; exact IH].
      split; [reflexivity | congruence].
Qed.

Ltac run_top :=
  first [ rewrite quantum_individual_init_eq
        | rewrite time_time_eq
        | run_op ];
  cbv beta iota.

(** Every outcome of [training]. *)
Lemma training_spec N ss save fuel m :
  match training N ss save fuel m with
  | Ret (res, log) m' =>
      (elitist_level (self m) < ss)%nat
      /\ map it_index log = seq 0 (N + 1)
      /\ Forall (fun e => it_elitist_level e
                          = level_at N (elitist_level (self m)) (it_index e))
                log
      /\ last_target log = Some (res_min res)
      /\ res_cost res = cost_function (self m) (res_min res)
      /\ res_time res
         = wall_clock (env m) (S (clock_reads (env m)))
           - wall_clock (env m) (clock_reads (env m))
      /\ elitist_level (self m') = 1%nat
  | Raise e m' =>
      (e = AssertionError /\ (ss <= elitist_level (self m))%nat /\ m' = m)
      \/ ((elitist_level (self m) < ss)%nat
          /\ ((e = ZeroDivisionError
               /\ (saving_interval (self m) = 0%nat \/ N = 0%nat))
              \/ (e = Hang /\ restrictions (self m) <> [])))
  end.
Proof.
  unfold training. repeat run_top.
  destruct (elitist_level (self m) <? ss)%nat eqn:Eassert.
  2:{ left. apply Nat.ltb_ge in Eassert. now repeat split. }
  apply Nat.ltb_lt in Eassert. repeat run_top. tidy.
  destruct (saving_interval (self m) =? 0)%nat eqn:Esave.
  { right. split; [assumption|]. left. split; [reflexivity|].
    left. now apply Nat.eqb_eq. }
  repeat run_top.
  pose proof (for_range_spec N ss fuel (elitist_level (self m)) (N + 1) 0
                (mkLocals None 0
                   (repeat (zero_snapshot (n_dims (self m)))
                           (1 + N / saving_interval (self m))) [])
                (ticked (initialised m)) eq_refl) as Hloop.
  destruct (for_range (loop_body N ss fuel) (seq 0 (N + 1)) _ _)
    as [lv' m1 | e m1].
  - destruct Hloop as (es & Htr & Hidx & Hall & _ & Hlast & Hend & Hsetup).
    cbn [trace app] in Htr.
    assert (Hne : es <> []).
    { intros ->. rewrite Nat.add_1_r in Hidx. discriminate Hidx. }
    specialize (Hlast Hne).
    destruct Hsetup as (Hcost & _ & _ & Hclock & Hreads).
    repeat run_top. rewrite Hlast.
    unfold last_target at 1.
    destruct (rev es) as [|e0 es0] eqn:Erev.
    { exfalso. apply Hne. rewrite <- (rev_involutive es), Erev. reflexivity. }
    repeat run_top.
    assert (Hfinal : elitist_level (self m1) = 1%nat).
    { rewrite Hend. destruct (Nat.leb_spec (0 + (N + 1)) N); [lia | reflexivity]. }
    cbn [ticked initialised self env wall_clock clock_reads cost_function
         set_best_of_best] in Hcost, Hclock, Hreads.
    destruct save; unfold np_savez; cbv beta iota; tidy;
      cbn [res_time res_cost res_min ticked initialised self env wall_clock
           clock_reads cost_function set_best_of_best];
      rewrite Htr, Hcost, Hclock, Hreads;
      unfold last_target; rewrite Erev;
      repeat match goal with |- _ /\ _ => split end;
      auto.
  - right. split; [assumption|].
    destruct Hloop as [[-> Hr] | [-> HN]].
    + right. split; [reflexivity | exact Hr].
    + left. split; [reflexivity | now right].
Qed.


(** The body never leaves the loop through [break]: the test that guards
    it ends in [and False]. *)
Lemma loop_body_never_breaks N ss fuel i lv m b lv' m' :
  loop_body N ss fuel i lv m = Ret (b, lv') m' -> b = false.
Proof.
  intro H. pose proof (loop_body_spec N ss fuel i lv m) as Hs.
  rewrite H in Hs. apply Hs.
Qed.

(** The loop over two ranges in a row. *)
Lemma for_range_app N ss fuel l1 : forall l2 lv m,
  for_range (loop_body N ss fuel) (l1 ++ l2) lv m
  = (lv1 <- for_range (loop_body N ss fuel) l1 lv ;;
     for_range (loop_body N ss fuel) l2 lv1) m.
Proof.
  induction l1 as [|i l1 IH]; intros l2 lv m; [reflexivity|].
  cbn [app for_range]. unfold bind.
  destruct (loop_body N ss fuel i lv m) as [[b lv1] m1 | e m1] eqn:E;
    [|reflexivity].
  apply loop_body_never_breaks in E. subst b. cbn [fst snd].
  rewrite IH. reflexivity.
Qed.

(** A loop that has run over 0 .. n - 1 has run over every prefix. *)
Lemma for_range_prefix N ss fuel n k lv0 m0 lvn mn :
  for_range (loop_body N ss fuel) (seq 0 n) lv0 m0 = Ret lvn mn ->
  (k <= n)%nat ->
  exists lv mk,
    for_range (loop_body N ss fuel) (seq 0 k) lv0 m0 = Ret lv mk
    /\ for_range (loop_body N ss fuel) (seq k (n - k)) lv mk = Ret lvn mn.
Proof.
  intros H Hk. replace n with (k + (n - k))%nat in H at 1 by lia.
  rewrite seq_app, for_range_app in H. unfold bind in H.
  destruct (for_range (loop_body N ss fuel) (seq 0 k) lv0 m0)
    as [lv mk | e mk]; [|discriminate].
  now exists lv, mk.
Qed.

(** The pass of index [k] inside a loop that has run over 0 .. n - 1. *)
Lemma for_range_pass N ss fuel n k lv0 m0 lvn mn :
  for_range (loop_body N ss fuel) (seq 0 n) lv0 m0 = Ret lvn mn ->
  (k < n)%nat ->
  exists lv mk lv' mk',
    for_range (loop_body N ss fuel) (seq 0 k) lv0 m0 = Ret lv mk
    /\ loop_body N ss fuel k lv mk = Ret (false, lv') mk'
    /\ for_range (loop_body N ss fuel) (seq 0 (S k)) lv0 m0 = Ret lv' mk'.
Proof.
  intros H Hk.
  destruct (for_range_prefix N ss fuel n (S k) lv0 m0 lvn mn H)
    as (lv' & mk' & Hnext & _); [lia|].
  pose proof Hnext as Hsplit.
  rewrite seq_S, for_range_app in Hsplit. unfold bind in Hsplit.
  destruct (for_range (loop_body N ss fuel) (seq 0 k) lv0 m0)
    as [lv mk | e mk]; [|discriminate].
  cbn [Nat.add for_range] in Hsplit. unfold bind in Hsplit.
  destruct (loop_body N ss fuel k lv mk) as [[b lv1] m1 | e m1] eqn:E;
    [|discriminate].
  pose proof (loop_body_never_breaks _ _ _ _ _ _ _ _ _ E) as ->.
  cbn [fst snd] in Hsplit. unfold ret in Hsplit.
  injection Hsplit as <- <-.
  now exists lv, mk, lv1, m1.
Qed.

(** The elite target of a pass: what [elitist_sample_evaluation] makes of
    the batch of this pass, after the level of elitism has been forced in
    the pass of index N_iterations. *)
Lemma loop_body_target N ss fuel i lv m :
  match loop_body N ss fuel i lv m with
  | Ret (b, lv') m' =>
      exists samples mS,
        pass_sampler fuel ss m = Ret samples mS
        /\ best_performer lv'
           = Some (elite_target
                     (if (N <=? i)%nat then with_level mS 1 else mS) samples)
  | Raise _ _ => True
  end.
Proof.
  unfold loop_body, pass_sampler. rewrite force_level. repeat run_op.
  destruct (match restrictions (self m) with
            | _ :: _ => restricted_quantum_sampling fuel ss
            | [] => quantum_sampling ss
            end m) as [samples m1 | e m1]; [|exact I].
  destruct (N <=? i)%nat eqn:Eforce; repeat run_op; tidy.
  all: split_if; repeat run_op; tidy.
  all: split_if; repeat run_op; tidy.
  all: split_if; repeat run_op; tidy.
  all: try (unfold progress; split_if; repeat run_op; tidy).
  all: try exact I.
  all: exists samples, m1; split; reflexivity.
Qed.

(** The loop and the record inside a completed run. *)
Lemma training_run_inversion N ss save fuel m res log m' :
  training N ss save fuel m = Ret (res, log) m' ->
  exists lv' mL,
    for_range (loop_body N ss fuel) (seq 0 (N + 1))
              (initial_locals (self m) N) (ticked (initialised m))
    = Ret lv' mL
    /\ trace lv' = log
    /\ best_performer lv' = Some (res_min res)
    /\ res_time res
       = wall_clock (env mL) (clock_reads (env mL))
         - wall_clock (env (initialised m)) (clock_reads (env (initialised m))).
Proof.
  unfold training. repeat run_top.
  destruct (elitist_level (self m) <? ss)%nat; [|discriminate].
  repeat run_top. tidy.
  destruct (saving_interval (self m) =? 0)%nat; [discriminate|].
  repeat run_top.
  match goal with
  | |- context [for_range ?body ?range ?lv ?m0] =>
      change lv with (initial_locals (self m) N);
      destruct (for_range body range (initial_locals (self m) N) m0)
        as [lv' mL | e mL] eqn:E; [|discriminate]
  end.
  repeat run_top.
  destruct (best_performer lv') as [bp|] eqn:Ebp; [|discriminate].
  repeat run_top.
  destruct save; unfold np_savez; cbv beta iota; intros [= <- <- _];
    exists lv', mL; repeat split; exact Ebp.
Qed.

(** ** The scale handed to the generator *)

Lemma zip_with_Forall {A B C} (f : A -> B -> C) (P : B -> Prop)
      (R : C -> Prop) :
  (forall x y, P y -> R (f x y)) ->
  forall xs ys, Forall P ys -> Forall R (zip_with f xs ys).
Proof.
  intro H. induction xs as [|x xs IH]; intros [|y ys] Hys; simpl;
    try constructor.
  - apply H. now apply Forall_cons_iff in Hys as [Hy _].
  - apply IH. now apply Forall_cons_iff in Hys as [_ Hys].
Qed.

Lemma scaled_sigma_nonneg c x sg :
  0 < c -> 0 <= sg -> 0 <= scaled_sigma c x sg.
Proof.
  intros Hc Hsg. unfold scaled_sigma, bool_times.
  assert (A : 0 <= sg / c)
    by (apply Qle_shift_div_l; [assumption | now rewrite Qmult_0_l]).
  assert (B : 0 <= sg * c) by (apply Qmult_le_0_compat; lra).
  assert (Z : 0 / c == 0) by (unfold Qdiv; ring).
  assert (Z' : 0 * c == 0) by ring.
  destruct (lt_one x); destruct (gt_one x); rewrite ?Z, ?Z'; clear Z Z';
    set (a := sg / c) in *; set (b := sg * c) in *; clearbody a b; lra.
Qed.

Lemma ros_correction_nonneg c x us :
  0 < c -> 0 <= us -> 0 <= ros_correction c x us.
Proof.
  intros Hc Hus. unfold ros_correction.
  destruct (Qltb us (1 # 1000) && lt_one x); [|assumption].
  apply Qmult_le_0_compat; lra.
Qed.

(** With sigma_scaler > 0, [quantum_update] writes no negative deviation
    over non-negative ones. *)
Lemma next_sigma_nonneg m bp :
  0 < sigma_scaler (self m) -> scale_accepted m ->
  Forall (fun sg => 0 <= sg) (next_sigma m bp).
Proof.
  intros Hc Hs. unfold next_sigma. cbv zeta.
  assert (H : Forall (fun sg => 0 <= sg)
                (zip_with (scaled_sigma (sigma_scaler (self m)))
                   (zip_with abs_div (vsub bp (mu (Qarr m))) (sigma (Qarr m)))
                   (sigma (Qarr m)))).
  { apply zip_with_Forall with (P := fun sg => 0 <= sg); [|exact Hs].
    intros x sg Hsg. now apply scaled_sigma_nonneg. }
  destruct (Qltb 10 (cost_function (self m) (next_mu m bp)) && ros_flag (self m));
    [|exact H].
  apply zip_with_Forall with (P := fun sg => 0 <= sg); [|exact H].
  intros x us Hus. now apply ros_correction_nonneg.
Qed.

(** What a pass leaves as it was: the domain and the scalers; and, with
    sigma_scaler > 0, a scale that the generator accepts stays one. *)
Lemma loop_body_frame N ss fuel i lv m :
  match loop_body N ss fuel i lv m with
  | Ret (b, lv') m' =>
      same_domain (self m) (self m')
      /\ sigma_scaler (self m') = sigma_scaler (self m)
      /\ (0 < sigma_scaler (self m) -> scale_accepted m -> scale_accepted m')
  | Raise _ _ => True
  end.
Proof.
  unfold loop_body. rewrite force_level. repeat run_op.
  pose proof (sampler_frame fuel ss m) as Hs.
  destruct (match restrictions (self m) with
            | _ :: _ => restricted_quantum_sampling fuel ss
            | [] => quantum_sampling ss
            end m) as [samples m1 | e m1]; [|exact I].
  destruct Hs as (Hself & HQ & _).
  destruct m1 as [s1 q1 w1]. cbn [self Qarr env] in Hself, HQ. subst s1 q1.
  destruct (N <=? i)%nat eqn:Eforce; repeat run_op; tidy.
  all: split_if; repeat run_op; tidy.
  all: split_if; repeat run_op; tidy.
  all: split_if; repeat run_op; tidy.
  all: try (unfold progress; split_if; repeat run_op; tidy).
  all: try exact I.
  all: unfold same_domain, scale_accepted; tidy; cbn [Qarr sigma];
    repeat match goal with |- _ /\ _ => split end; try reflexivity;
    intros Hc Hsc; apply next_sigma_nonneg; tidy; assumption.
Qed.

Lemma for_range_frame N ss fuel : forall range lv m,
  match for_range (loop_body N ss fuel) range lv m with
  | Ret lv' m' =>
      same_domain (self m) (self m')
      /\ sigma_scaler (self m') = sigma_scaler (self m)
      /\ (0 < sigma_scaler (self m) -> scale_accepted m -> scale_accepted m')
  | Raise _ _ => True
  end.
Proof.
  induction range as [|i range IH]; intros lv m.
  - simpl. unfold ret. now repeat split.
  - cbn [for_range]. unfold bind at 1.
    pose proof (loop_body_frame N ss fuel i lv m) as Hbody.
    destruct (loop_body N ss fuel i lv m) as [[b lv1] m1 | e m1] eqn:E;
      [|exact I].
    pose proof (loop_body_never_breaks _ _ _ _ _ _ _ _ _ E) as ->.
    cbn [fst snd]. specialize (IH lv1 m1).
    destruct (for_range (loop_body N ss fuel) range lv1 m1) as [lv' m' | e m'];
      [|exact I].
    destruct Hbody as ((A1 & A2 & A3 & A4 & A5) & Ac & As).
    destruct IH as ((B1 & B2 & B3 & B4 & B5) & Bc & Bs).
    unfold same_domain. repeat match goal with |- _ /\ _ => split end;
      try congruence.
    intros Hc Hsc. apply Bs; [now rewrite Ac | now apply As].
Qed.

(** On a valid domain the initial deviations [upper - lower] are not
    negative. *)
Lemma initial_scale_accepted m :
  valid_domain (self m) -> scale_accepted (ticked (initialised m)).
Proof.
  intros (Hl & Hu & _ & Hle). unfold scale_accepted.
  cbn [ticked initialised Qarr]. unfold initial_individual. cbv zeta.
  cbn [sigma]. apply Forall_nth. intros i d Hi.
  unfold vsub in *. rewrite !zip_with_length, repeat_length in Hi.
  rewrite (zip_with_nth _ _ _ _ 0 1)
    by (rewrite ?zip_with_length, ?repeat_length; lia).
  rewrite (zip_with_nth _ _ _ _ 0 0) by lia.
  rewrite nth_repeat. specialize (Hle i ltac:(lia)). lra.
Qed.

(** C6: a completed run returns the record made of the elapsed time, the
    cost of the elite target of the last pass and that elite target.  The
    elite target is the one that [elitist_sample_evaluation] returns, with
    elitist_level forced to 1, on the batch that the pass of index
    N_iterations draws from the individual that the passes before it have
    left; the elapsed time is the clock reading taken when the loop is left
    minus the one taken before it is entered. *)
Theorem training_reports_last_elite_target
        (N ss : nat) (save : bool) (fuel : nat) (m : machine)
        (res : results) (log : list iter_log) (m' : machine) :
  training N ss save fuel m = Ret (res, log) m' ->
  exists lvN mN samples mS mE lv' mL,
    for_range (loop_body N ss fuel) (seq 0 N)
              (initial_locals (self m) N) (ticked (initialised m))
    = Ret lvN mN
    /\ pass_sampler fuel ss mN = Ret samples mS
    /\ elitist_sample_evaluation samples (with_level mS 1)
       = Ret (res_min res) mE
    /\ loop_body N ss fuel N lvN mN = Ret (false, lv') mL
    /\ trace lv' = log
    /\ last_target log = Some (res_min res)
    /\ res_cost res = cost_function (self m) (res_min res)
    /\ res_time res
       = wall_clock (env mL) (clock_reads (env mL))
         - wall_clock (env (initialised m)) (clock_reads (env (initialised m)))
    /\ res_time res
       = wall_clock (env m) (S (clock_reads (env m)))
         - wall_clock (env m) (clock_reads (env m)).
Proof.
  intro H. pose proof (training_spec N ss save fuel m) as Hspec.
  rewrite H in Hspec.
  destruct Hspec as (_ & _ & _ & Hlast & Hcost & Htime & _).
  apply training_run_inversion in H as (lv' & mL & Hloop & Hlog & Hbp & Hclock).
  destruct (for_range_pass N ss fuel (N + 1) N _ _ _ _ Hloop)
    as (lvN & mN & lv1 & m1 & HN & Hpass & Hall); [lia|].
  rewrite <- Nat.add_1_r, Hloop in Hall. injection Hall as <- <-.
  pose proof (loop_body_target N ss fuel N lvN mN) as Ht.
  rewrite Hpass, Nat.leb_refl in Ht.
  destruct Ht as (samples & mS & Hs & Helite).
  rewrite Hbp in Helite. injection Helite as Helite.
  exists lvN, mN, samples, mS, (charged (with_level mS 1) 1), lv', mL.
  repeat match goal with |- _ /\ _ => split end; try assumption.
  rewrite Helite. apply elitist_sample_evaluation_eq.
Qed.

(** C7, as amended.  No pass leaves the loop through [break]; a run that
    completes has gone through the loop body once for each of the indices
    0, 1, ..., N_iterations, in this order, each pass starting in the state
    that the passes before it left, and the loop is left after the pass of
    index N_iterations; and a run without restrictions
    completes when its configuration is accepted, N_iterations >= 1, the
    domain is valid and sigma_scaler > 0, every pass then starting with a
    scale that the generator accepts. *)
Theorem training_runs_every_iteration
        (N ss : nat) (save : bool) (fuel : nat) (m : machine) :
  (forall i lv m0 b lv' m1,
      loop_body N ss fuel i lv m0 = Ret (b, lv') m1 -> b = false)
  /\ (forall res log m',
        training N ss save fuel m = Ret (res, log) m' ->
        map it_index log = seq 0 (N + 1) /\ length log = (N + 1)%nat
        /\ forall k, (k <= N)%nat ->
             exists lv mk lv' mk',
               for_range (loop_body N ss fuel) (seq 0 k)
                         (initial_locals (self m) N) (ticked (initialised m))
               = Ret lv mk
               /\ loop_body N ss fuel k lv mk = Ret (false, lv') mk'
               /\ for_range (loop_body N ss fuel) (seq 0 (S k))
                            (initial_locals (self m) N)
                            (ticked (initialised m))
                  = Ret lv' mk'
               /\ (k = N -> trace lv' = log))
  /\ (restrictions (self m) = [] ->
      (elitist_level (self m) < ss)%nat ->
      saving_interval (self m) <> 0%nat -> N <> 0%nat ->
      valid_domain (self m) -> 0 < sigma_scaler (self m) ->
      exists res log m',
        training N ss save fuel m = Ret (res, log) m'
        /\ forall k, (k <= N)%nat ->
             exists lv mk,
               for_range (loop_body N ss fuel) (seq 0 k)
                         (initial_locals (self m) N) (ticked (initialised m))
               = Ret lv mk
               /\ scale_accepted mk).
Proof.
  pose proof (training_spec N ss save fuel m) as Hspec.
  split; [|split].
  - intros i lv m0 b lv' m1. apply loop_body_never_breaks.
  - intros res log m' H. rewrite H in Hspec.
    destruct Hspec as (_ & Hidx & _). split; [exact Hidx|]. split.
    + rewrite <- (length_map it_index), Hidx. apply length_seq.
    + intros k Hk.
      apply training_run_inversion in H as (lvn & mL & Hloop & Hlog & _).
      destruct (for_range_pass N ss fuel (N + 1) k _ _ _ _ Hloop)
        as (lv & mk & lv' & mk' & Hpre & Hpass & Hnext); [lia|].
      exists lv, mk, lv', mk'. repeat split; try assumption.
      intros ->. rewrite <- Nat.add_1_r, Hloop in Hnext.
      now injection Hnext as <- <-.
  - intros Hr Hlt Hs HN Hv Hc.
    destruct (training N ss save fuel m) as [[res log] m' | e m'] eqn:E.
    + exists res, log, m'. split; [reflexivity|]. intros k Hk.
      apply training_run_inversion in E as (lvn & mL & Hloop & _).
      destruct (for_range_prefix N ss fuel (N + 1) k _ _ _ _ Hloop)
        as (lv & mk & Hpre & _); [lia|].
      exists lv, mk. split; [exact Hpre|].
      pose proof (for_range_frame N ss fuel (seq 0 k)
                    (initial_locals (self m) N) (ticked (initialised m)))
        as Hframe.
      rewrite Hpre in Hframe. destruct Hframe as (_ & _ & Hscale).
      apply Hscale; [exact Hc | now apply initial_scale_accepted].
    + exfalso. destruct Hspec as [(_ & Hle & _) | (_ & [[_ [H | H]] | [_ H]])];
        [lia | contradiction..].
Qed.

(** C8, as amended: in a completed run the passes of index below
    N_iterations work with the configured elitist_level, the pass of index
    N_iterations works with 1, and the attribute elitist_level is 1 when
    training returns. *)
Theorem training_forces_elitism_on_last_iteration
        (N ss : nat) (save : bool) (fuel : nat) (m : machine)
        (res : results) (log : list iter_log) (m' : machine) :
  training N ss save fuel m = Ret (res, log) m' ->
  (forall e, In e log -> (it_index e < N)%nat ->
             it_elitist_level e = elitist_level (self m))
  /\ (forall e, In e log -> it_index e = N -> it_elitist_level e = 1%nat)
  /\ (exists e, In e log /\ it_index e = N)
  /\ elitist_level (self m') = 1%nat.
Proof.
  intro H. pose proof (training_spec N ss save fuel m) as Hspec.
  rewrite H in Hspec.
  destruct Hspec as (_ & Hidx & Hall & _ & _ & _ & Hfinal).
  rewrite Forall_forall in Hall. repeat split.
  - intros e Hin Hlt. rewrite (Hall e Hin). unfold level_at.
    destruct (Nat.leb_spec N (it_index e)); [lia | reflexivity].
  - intros e Hin Heq. rewrite (Hall e Hin). unfold level_at.
    destruct (Nat.leb_spec N (it_index e)); [reflexivity | lia].
  - assert (HinN : In N (map it_index log)).
    { rewrite Hidx. apply in_seq. lia. }
    apply in_map_iff in HinN as (e & He & Hin). now exists e.
  - exact Hfinal.
Qed.

(** C9: when sample_size does not exceed elitist_level, training raises the
    assertion error in the machine it was called in, so before any random
    draw and any call of the cost function; when sample_size exceeds
    elitist_level it never raises this error. *)
Theorem training_checks_sample_size
        (N ss : nat) (save : bool) (fuel : nat) (m : machine) :
  ((ss <= elitist_level (self m))%nat ->
   training N ss save fuel m = Raise AssertionError m)
  /\ ((elitist_level (self m) < ss)%nat ->
      forall m', training N ss save fuel m <> Raise AssertionError m').
Proof.
  split.
  - intro Hle. unfold training. repeat run_top.
    destruct (Nat.ltb_spec (elitist_level (self m)) ss); [lia | reflexivity].
  - intros Hlt m' H. pose proof (training_spec N ss save fuel m) as Hspec.
    rewrite H in Hspec.
    destruct Hspec as [(_ & Hle & _) | (_ & [[He _] | [He _]])];
      [lia | discriminate..].
Qed.

Lemma training_reports_last_elite_target_witness :
  let o := Examples.improving_outcome in
  let res := fst (Examples.value_of Examples.no_result o) in
  let log := snd (Examples.value_of Examples.no_result o) in
  exists lvN mN samples mS mE lv' mL,
    for_range (loop_body 2 3 0) (seq 0 2)
              (initial_locals (self Examples.improving) 2)
              (ticked (initialised Examples.improving))
    = Ret lvN mN
    /\ pass_sampler 0 3 mN = Ret samples mS
    /\ elitist_sample_evaluation samples (with_level mS 1)
       = Ret (res_min res) mE
    /\ loop_body 2 3 0 2 lvN mN = Ret (false, lv') mL
    /\ trace lv' = log
    /\ last_target log = Some (res_min res)
    /\ res_cost res = Examples.square (res_min res)
    /\ res_time res
       = wall_clock (env mL) (clock_reads (env mL))
         - wall_clock (env (initialised Examples.improving))
                      (clock_reads (env (initialised Examples.improving)))
    /\ res_time res = 1 - 0.
Proof.
  apply (training_reports_last_elite_target 2 3 false 0 Examples.improving
           _ _ (Examples.machine_of Examples.improving_outcome)).
  vm_compute. reflexivity.
Defined.

(** In this run the elite targets of the three passes are 0, 10 and 10:
    the record holds the last one, and the first one, of lower cost, is
    what [best_of_best] ends as. *)
Lemma training_reports_last_of_three :
  exists res log m',
    training 2 3 false 0 Examples.improving = Ret (res, log) m'
    /\ map (fun e => map Qred (it_best_performer e)) log = [[0]; [10]; [10]]
    /\ res_min res = [10] /\ res_cost res == 100
    /\ map Qred (deref (best_of_best (self m')) (Qarr m')) = [0].
Proof.
  exists (fst (Examples.value_of Examples.no_result Examples.improving_outcome)),
         (snd (Examples.value_of Examples.no_result Examples.improving_outcome)),
         (Examples.machine_of Examples.improving_outcome).
  split; [vm_compute; reflexivity|]. repeat split; vm_compute; reflexivity.
Qed.

(** The record is not the tracked best: in this run [best_of_best] ends as
    a point of lower cost than the reported one. *)
Lemma training_result_differs_from_best_of_best :
  exists res log m',
    training 2 3 false 0 Examples.plain_run = Ret (res, log) m'
    /\ res_min res = [10]
    /\ Examples.square (deref (best_of_best (self m')) (Qarr m'))
       < Examples.square (res_min res).
Proof.
  exists (fst (Examples.value_of Examples.no_result Examples.plain_outcome)),
         (snd (Examples.value_of Examples.no_result Examples.plain_outcome)),
         (Examples.machine_of Examples.plain_outcome).
  split; [vm_compute; reflexivity|]. split; vm_compute; reflexivity.
Qed.

Lemma training_runs_every_iteration_witness :
  let log := snd (Examples.value_of Examples.no_result Examples.plain_outcome) in
  (map it_index log = [0; 1; 2]%nat /\ length log = 3%nat
   /\ forall k, (k <= 2)%nat ->
        exists lv mk lv' mk',
          for_range (loop_body 2 3 0) (seq 0 k)
                    (initial_locals (self Examples.plain_run) 2)
                    (ticked (initialised Examples.plain_run))
          = Ret lv mk
          /\ loop_body 2 3 0 k lv mk = Ret (false, lv') mk'
          /\ for_range (loop_body 2 3 0) (seq 0 (S k))
                       (initial_locals (self Examples.plain_run) 2)
                       (ticked (initialised Examples.plain_run))
             = Ret lv' mk'
          /\ (k = 2%nat -> trace lv' = log))
  /\ exists res log' m',
       training 2 3 false 0 Examples.plain_run = Ret (res, log') m'
       /\ forall k, (k <= 2)%nat ->
            exists lv mk,
              for_range (loop_body 2 3 0) (seq 0 k)
                        (initial_locals (self Examples.plain_run) 2)
                        (ticked (initialised Examples.plain_run))
              = Ret lv mk
              /\ scale_accepted mk.
Proof.
  destruct (training_runs_every_iteration 2 3 false 0 Examples.plain_run)
    as (_ & Hall & Hruns).
  split.
  - apply (Hall (fst (Examples.value_of Examples.no_result
                                        Examples.plain_outcome))
                _ (Examples.machine_of Examples.plain_outcome)).
    vm_compute. reflexivity.
  - apply Hruns;
      [ reflexivity | simpl; lia | discriminate | discriminate
      | repeat split; intros [|i] Hi; simpl in *; try lia; discriminate
      | reflexivity ].
Defined.

Lemma training_forces_elitism_on_last_iteration_witness :
  let log := snd (Examples.value_of Examples.no_result Examples.plain_outcome) in
  (forall e, In e log -> (it_index e < 2)%nat -> it_elitist_level e = 2%nat)
  /\ (forall e, In e log -> it_index e = 2%nat -> it_elitist_level e = 1%nat)
  /\ (exists e, In e log /\ it_index e = 2%nat)
  /\ elitist_level (self (Examples.machine_of Examples.plain_outcome)) = 1%nat.
Proof.
  apply (training_forces_elitism_on_last_iteration 2 3 false 0
           Examples.plain_run
           (fst (Examples.value_of Examples.no_result Examples.plain_outcome))).
  vm_compute. reflexivity.
Defined.

(** C8 as stated fails: the configured elitist_level is 2 and the attribute
    is 1, not 2, after training has returned. *)
Lemma training_leaves_elitist_level_forced :
  exists res log m',
    training 2 3 false 0 Examples.plain_run = Ret (res, log) m'
    /\ elitist_level (self Examples.plain_run) = 2%nat
    /\ elitist_level (self m') = 1%nat
    /\ elitist_level (self m') <> elitist_level (self Examples.plain_run).
Proof.
  exists (fst (Examples.value_of Examples.no_result Examples.plain_outcome)),
         (snd (Examples.value_of Examples.no_result Examples.plain_outcome)),
         (Examples.machine_of Examples.plain_outcome).
  split; [vm_compute; reflexivity|].
  split; [reflexivity|]. split; [vm_compute; reflexivity|].
  vm_compute. discriminate.
Qed.

Lemma training_checks_sample_size_witness :
  training 5 2 false 0 Examples.plain_run
  = Raise AssertionError Examples.plain_run
  /\ forall m', training 5 3 false 0 Examples.plain_run
                <> Raise AssertionError m'.
Proof.
  split.
  - apply (proj1 (training_checks_sample_size 5 2 false 0 Examples.plain_run)).
    simpl. lia.
  - apply (proj2 (training_checks_sample_size 5 3 false 0 Examples.plain_run)).
    simpl. lia.
Defined.

(** ** best_of_best *)

(** One pass rebinds [best_of_best] only to an elite target of strictly
    lower cost. *)
Lemma best_of_best_rebound_only_on_improvement N i lv m lv' m' :
  step_ok N i lv m lv' m' ->
  best_of_best (self m') = best_of_best (self m)
  \/ exists bp,
       best_of_best (self m') = Owned bp
       /\ cost_function (self m) bp
          < cost_function (self m) (deref (best_of_best (self m)) (Qarr m)).
Proof.
  intros (e & _ & _ & _ & _ & _ & Hbefore & _ & Hrep & Hbob & _).
  rewrite Hbob. destruct (it_replaced e) eqn:E; [right | now left].
  exists (it_best_performer e). split; [reflexivity|].
  rewrite <- Hbefore. apply Qltb_lt. now rewrite <- Hrep.
Qed.

(** Once [best_of_best] is an array of its own, a pass does not raise its
    cost. *)
Lemma owned_best_of_best_cost_monotone N i lv m lv' m' v :
  step_ok N i lv m lv' m' ->
  best_of_best (self m) = Owned v ->
  exists v',
    best_of_best (self m') = Owned v'
    /\ deref (best_of_best (self m')) (Qarr m') = v'
    /\ cost_function (self m') v' <= cost_function (self m) v.
Proof.
  intros (e & _ & _ & _ & _ & _ & Hbefore & _ & Hrep & Hbob & Hcost & _) Hown.
  rewrite Hown in Hbefore, Hbob. cbn [deref] in Hbefore.
  rewrite Hbefore in Hrep. rewrite Hbob, Hcost.
  destruct (it_replaced e) eqn:E.
  - exists (it_best_performer e). repeat split.
    apply Qlt_le_weak, Qltb_lt. now rewrite <- Hrep.
  - exists v. repeat split. apply Qle_refl.
Qed.

(** C3 fails on the code: the run starts at the minimum 0 of x * x; in the
    pass of index 0 the elite target 10 is no improvement and
    [best_of_best] is not replaced, yet it reads 0 before the pass and 1/10
    after it, of higher cost. *)
Theorem best_of_best_cost_increases :
  exists res log m',
    training 1 2 false 0 Examples.starts_at_minimum = Ret (res, log) m'
    /\ exists e,
         nth_error log 0 = Some e
         /\ it_index e = 0%nat
         /\ it_replaced e = false
         /\ it_bob_before e = [0]
         /\ Examples.first (it_bob_after e) == 1 # 10
         /\ Examples.square (it_bob_before e)
            < Examples.square (it_bob_after e).
Proof.
  pose (o := training 1 2 false 0 Examples.starts_at_minimum).
  exists (fst (Examples.value_of Examples.no_result o)),
         (snd (Examples.value_of Examples.no_result o)),
         (Examples.machine_of o).
  split; [vm_compute; reflexivity|].
  eexists. split; [vm_compute; reflexivity|].
  repeat split; vm_compute; reflexivity.
Qed.

(** ** quantum_individual_init *)

Lemma nth_map_seq (f : nat -> Q) d i :
  (i < d)%nat -> nth i (map f (seq 0 d)) 0 = f i.
Proof.
  intro Hi. rewrite (nth_indep _ 0 (f 0%nat)) by now rewrite length_map, length_seq.
  rewrite (map_nth f (seq 0 d) 0%nat i). now rewrite seq_nth.
Qed.

Lemma initial_mean_nth m i :
  length (lower (self m)) = n_dims (self m) ->
  length (upper (self m)) = n_dims (self m) ->
  (i < n_dims (self m))%nat ->
  nth i (mu (initial_individual m)) 0
  = nth i (lower (self m)) 0
    + nth i (upper (self m)) 0
      * uniform (env m) (uniforms_drawn (env m) + i).
Proof.
  intros Hl Hu Hi. unfold initial_individual. cbv zeta. cbn [mu]. unfold vadd.
  rewrite (zip_with_nth _ _ _ _ 0 0);
    rewrite ?zip_with_length, ?length_map, ?length_seq; try lia.
  rewrite (zip_with_nth _ _ _ _ 0 0);
    rewrite ?length_map, ?length_seq; try lia.
  rewrite nth_map_seq by assumption.
  cbn [Nat.mul]. now rewrite Nat.add_0_r.
Qed.

(** C10, as amended: the component i of the initial mean is
    lower[i] + upper[i] * u_i for the uniform variate u_i of [0, 1); it lies
    in [lower[i], lower[i] + upper[i]) when upper[i] > 0; it lies in
    [lower[i], upper[i]] whenever lower[i] <= 0 <= upper[i]; and when
    lower[i] > 0 or upper[i] < 0 some variate puts it outside
    [lower[i], upper[i]]. *)
Theorem initial_mean_range
        (s : QuantumEvAlgorithm) (q : individual) (w : world) (i : nat) :
  length (lower s) = n_dims s -> length (upper s) = n_dims s ->
  (i < n_dims s)%nat ->
  (forall k, 0 <= uniform w k < 1) ->
  nth i (lower s) 0 <= nth i (upper s) 0 ->
  let l := nth i (lower s) 0 in
  let u := nth i (upper s) 0 in
  exists Q m',
    quantum_individual_init (mkMachine s q w) = Ret Q m'
    /\ nth i (mu Q) 0 = l + u * uniform w (uniforms_drawn w + i)
    /\ (0 < u -> l <= nth i (mu Q) 0 /\ nth i (mu Q) 0 < l + u)
    /\ (l <= 0 -> 0 <= u -> l <= nth i (mu Q) 0 <= u)
    /\ (0 < l \/ u < 0 ->
        exists c, 0 <= c < 1 /\
          exists Q' m'',
            quantum_individual_init
              (mkMachine s q (with_uniform w c)) = Ret Q' m''
            /\ ~ (l <= nth i (mu Q') 0 <= u)).
Proof.
  intros Hl Hu Hi Hunif Hlu l u.
  assert (Hnth : forall w',
             nth i (mu (initial_individual (mkMachine s q w'))) 0
             = l + u * uniform w' (uniforms_drawn w' + i)).
  { intro w'. now rewrite initial_mean_nth by assumption. }
  assert (Hlu' : l <= u) by exact Hlu.
  clearbody l u.
  exists (initial_individual (mkMachine s q w)), (initialised (mkMachine s q w)).
  split; [apply quantum_individual_init_eq|].
  rewrite Hnth.
  set (x := uniform w (uniforms_drawn w + i)).
  assert (Hx : 0 <= x < 1) by apply Hunif.
  split; [reflexivity|].
  split; [|split].
  - intro Hpos. split.
    + assert (0 <= u * x) by (apply Qmult_le_0_compat; lra). lra.
    + assert (u * x < u * 1) by (apply Qmult_lt_l; [exact Hpos | lra]). lra.
  - intros Hneg Hnn. split.
    + assert (0 <= u * x) by (apply Qmult_le_0_compat; lra). lra.
    + assert (x * u <= 1 * u) by (apply Qmult_le_compat_r; lra). lra.
  - intros Hout.
    destruct Hout as [Hlpos | Huneg].
    + assert (Hupos : 0 < u) by lra.
      assert (Hhalf : u * (l / (2 * u)) == l * (1 # 2)) by (field; lra).
      assert (Hlow : 0 < l / (2 * u)) by (apply Qlt_shift_div_l; lra).
      assert (Hhigh : l / (2 * u) <= 1 # 2) by (apply Qle_shift_div_r; lra).
      set (t := l / (2 * u)) in *. clearbody t.
      exists (1 - t). split; [lra|].
      eexists. eexists. split; [apply quantum_individual_init_eq|].
      rewrite Hnth. cbn [with_uniform uniform].
      intros [_ Hle].
      assert (Heq : l + u * (1 - t) == l + u - u * t) by ring.
      rewrite Heq, Hhalf in Hle. lra.
    + exists (1 # 2). split; [lra|].
      eexists. eexists. split; [apply quantum_individual_init_eq|].
      rewrite Hnth. cbn [with_uniform uniform].
      intros [Hle _]. lra.
Qed.

Lemma initial_mean_range_witness :
  exists Q m',
    quantum_individual_init
      (mkMachine (self Examples.plain_run) (mkQ [] []) (Examples.world_of 1 (1 # 2)))
    = Ret Q m'
    /\ nth 0 (mu Q) 0 = -10 + 10 * (1 # 2)
    /\ (0 < 10 -> -10 <= nth 0 (mu Q) 0 /\ nth 0 (mu Q) 0 < -10 + 10)
    /\ (-10 <= 0 -> 0 <= 10 -> -10 <= nth 0 (mu Q) 0 <= 10)
    /\ (0 < -10 \/ 10 < 0 ->
        exists c, 0 <= c < 1 /\
          exists Q' m'',
            quantum_individual_init
              (mkMachine (self Examples.plain_run) (mkQ [] [])
                 (with_uniform (Examples.world_of 1 (1 # 2)) c))
            = Ret Q' m''
            /\ ~ (-10 <= nth 0 (mu Q') 0 <= 10)).
Proof.
  apply (initial_mean_range (self Examples.plain_run) (mkQ [] [])
           (Examples.world_of 1 (1 # 2)) 0).
  - reflexivity.
  - reflexivity.
  - simpl. lia.
  - intros k. simpl. split; [discriminate | reflexivity].
  - simpl. discriminate.
Defined.

(** C10 as stated fails in two places.  On the domain [-10, -5] the variate
    1/2 gives the initial mean -25/2, outside [lower, lower + upper).  On
    the domain [-10, 10], whose lower bound is not 0, no variate of [0, 1)
    puts the initial mean outside the domain. *)
Lemma initial_mean_claim_fails :
  (exists Q m',
     quantum_individual_init (Examples.negative_domain (1 # 2)) = Ret Q m'
     /\ nth 0 (lower (self (Examples.negative_domain (1 # 2)))) 0 == -10
     /\ nth 0 (upper (self (Examples.negative_domain (1 # 2)))) 0 == -5
     /\ ~ (-10 <= nth 0 (mu Q) 0 /\ nth 0 (mu Q) 0 < -10 + -5))
  /\ (~ nth 0 (lower (self (Examples.symmetric_domain (fun _ => 0)))) 0 == 0
      /\ forall u, (forall k, 0 <= u k < 1) ->
           exists Q m',
             quantum_individual_init (Examples.symmetric_domain u) = Ret Q m'
             /\ -10 <= nth 0 (mu Q) 0 <= 10).
Proof.
  split.
  - eexists. eexists. split; [apply quantum_individual_init_eq|].
    split; [reflexivity|]. split; [reflexivity|].
    intros [H _]. revert H. apply Qlt_not_le. reflexivity.
  - split; [discriminate|]. intros u Hu.
    eexists. eexists. split; [apply quantum_individual_init_eq|].
    rewrite initial_mean_nth by (try reflexivity; simpl; lia).
    cbn. specialize (Hu 0%nat). lra.
Qed.

(** ** Feasibility of the rows of the restricted sampler *)

Lemma select_Forall {A} (P : A -> Prop) mask xs :
  (forall k x, nth_error xs k = Some x -> nth_error mask k = Some true -> P x) ->
  Forall P (select mask xs).
Proof.
  revert xs. induction mask as [|b mask IH]; intros [|x xs] H; simpl;
    try constructor.
  destruct b.
  - constructor.
    + apply (H 0%nat x); reflexivity.
    + apply IH. intros k y Hy Hm. apply (H (S k) y); assumption.
  - apply IH. intros k y Hy Hm. apply (H (S k) y); assumption.
Qed.

Lemma select_length {A} mask (xs : list A) :
  (length (select mask xs) <= length xs)%nat.
Proof.
  revert xs. induction mask as [|b mask IH]; intros [|x xs]; simpl; try lia.
  specialize (IH xs). destruct b; simpl; lia.
Qed.

(** In the loop a row is kept by a restriction only if the mask had it and
    the restriction is positive on it. *)
Lemma mask_step_gt_true samples valid h k r :
  nth_error samples k = Some r ->
  nth_error (mask_step_gt samples valid h) k = Some true ->
  nth_error valid k = Some true /\ 0 < h r.
Proof.
  unfold mask_step_gt. revert valid k.
  induction samples as [|x samples IH]; intros [|b valid] [|k]; simpl;
    try discriminate.
  - intros [= ->] [= H]. apply Qltb_lt in H.
    destruct b; simpl in H; [now split|]. exfalso. revert H. apply Qlt_irrefl.
  - intros Hs Hv. now apply IH.
Qed.

Lemma fold_mask_gt_true samples hs : forall valid k r,
  nth_error samples k = Some r ->
  nth_error (fold_left (mask_step_gt samples) hs valid) k = Some true ->
  nth_error valid k = Some true /\ Forall (fun h => 0 < h r) hs.
Proof.
  induction hs as [|h hs IH]; intros valid k r Hr Hm; simpl in Hm.
  - now split.
  - destruct (IH _ _ _ Hr Hm) as [Hv Hall].
    destruct (mask_step_gt_true _ _ _ _ _ Hr Hv) as [Hv' Hh].
    split; [exact Hv' | now constructor].
Qed.

(** In the first pass a row that the mask has is kept by a restriction
    only if the restriction is non-negative on it. *)
Lemma mask_step_ge_true samples valid h k r :
  nth_error samples k = Some r ->
  nth_error (mask_step_ge samples valid h) k = Some true ->
  nth_error valid k = Some true -> 0 <= h r.
Proof.
  unfold mask_step_ge. revert valid k.
  induction samples as [|x samples IH]; intros [|b valid] [|k]; simpl;
    try discriminate.
  - intros [= ->] [= H] [= ->]. now apply Qle_bool_iff in H.
  - intros Hs Hv Hb. now apply (IH valid k).
Qed.

Lemma mask_step_ge_defined samples valid h k b :
  nth_error (mask_step_ge samples valid h) k = Some b ->
  exists b', nth_error valid k = Some b'.
Proof.
  unfold mask_step_ge. revert valid k.
  induction samples as [|x samples IH]; intros [|b0 valid] [|k]; simpl;
    try discriminate.
  - intros _. now exists b0.
  - apply IH.
Qed.

Lemma nth_error_repeat_true n k b :
  nth_error (repeat true n) k = Some b -> b = true.
Proof.
  intro H. apply nth_error_In in H. now apply repeat_spec in H.
Qed.

(** Every row that the [while] loop appends satisfies every restriction,
    and the loop ends with exactly [n] rows. *)
Lemma resample_loop_feasible fuel n : forall samples m rows m',
  resample_loop fuel n samples m = Ret rows m' ->
  exists extra,
    rows = samples ++ extra
    /\ Forall (feasible (restrictions (self m))) extra
    /\ ((length samples <= n)%nat -> length rows = n).
Proof.
  induction fuel as [|fuel IH]; intros samples m rows m'; simpl.
  - destruct (Nat.ltb_spec 0 (n - length samples)); [discriminate|].
    intros [= <- <-]. exists []. rewrite app_nil_r.
    repeat split; [constructor | lia].
  - destruct (Nat.ltb_spec 0 (n - length samples)).
    2:{ intros [= <- <-]. exists []. rewrite app_nil_r.
        repeat split; [constructor | lia]. }
    unfold bind at 1, get_self at 1. unfold bind at 1.
    rewrite quantum_sampling_eq. intro Hloop.
    apply IH in Hloop as (extra & -> & Hall & Hlen).
    match goal with
    | |- context [select ?mask ?new] =>
        set (kept := select mask new) in *;
        assert (Hkept : Forall (feasible (restrictions (self m))) kept);
        [ apply select_Forall; intros k r Hr Hm;
          destruct (fold_mask_gt_true _ _ _ _ _ Hr Hm) as [_ Hpos];
          unfold feasible; eapply Forall_impl; [|exact Hpos];
          intros h Hh; now apply Qlt_le_weak
        | assert (Hklen : (length kept <= n - length samples)%nat);
          [ unfold kept; etransitivity; [apply select_length|];
            now rewrite sampled_rows_length | ] ]
    end.
    exists (kept ++ extra). rewrite app_assoc.
    split; [reflexivity|]. split.
    + apply Forall_app. split; [exact Hkept | exact Hall].
    + intro Hle. apply Hlen. rewrite length_app. lia.
Qed.

(** With a single restriction every row of the restricted sampler is
    feasible and there are exactly [n] of them. *)
Lemma restricted_sampling_single_feasible fuel n m h rows m' :
  restrictions (self m) = [h] ->
  restricted_quantum_sampling fuel n m = Ret rows m' ->
  length rows = n /\ Forall (feasible [h]) rows.
Proof.
  intros Hh. unfold restricted_quantum_sampling.
  unfold bind at 1, get_self at 1. unfold bind at 1.
  rewrite quantum_sampling_eq. rewrite Hh. cbn [fold_left]. intro Hloop.
  apply resample_loop_feasible in Hloop as (extra & -> & Hall & Hlen).
  cbn [drawn self] in Hall. rewrite Hh in Hall.
  split.
  - apply Hlen. etransitivity; [apply select_length|].
    now rewrite sampled_rows_length.
  - apply Forall_app. split; [|exact Hall].
    apply select_Forall. intros k r Hr Hm.
    constructor; [|constructor].
    destruct (mask_step_ge_defined _ _ _ _ _ Hm) as [b Hb].
    pose proof (nth_error_repeat_true _ _ _ Hb) as ->.
    eapply mask_step_ge_true; eassumption.
Qed.

(** * Further properties *)

(** ** quantum_sampling: every value, dimension by dimension *)

Lemma np_round_near (x : Q) : x - (1 # 2) <= np_round x <= x + (1 # 2).
Proof.
  pose proof (Qfloor_le x) as Hlo. pose proof (Qlt_floor x) as Hhi.
  rewrite inject_Z_plus in Hhi. change (inject_Z 1) with 1 in Hhi.
  unfold np_round.
  destruct (Qltb (x - inject_Z (Qfloor x)) (1 # 2)) eqn:E1.
  - apply Qltb_lt in E1. split; lra.
  - apply Qltb_ge in E1.
    destruct (Qltb (1 # 2) (x - inject_Z (Qfloor x))) eqn:E2.
    + rewrite inject_Z_plus. change (inject_Z 1) with 1. split; lra.
    + apply Qltb_ge in E2.
      destruct (Z.even (Qfloor x)); rewrite ?inject_Z_plus;
        change (inject_Z 1) with 1; split; lra.
Qed.

Lemma Qltb_comp (a b c d : Q) : a == b -> c == d -> Qltb a c = Qltb b d.
Proof. intros H1 H2. unfold Qltb. now rewrite H1, H2. Qed.

(** Equal rationals round to the same fraction. *)
Lemma np_round_comp (x y : Q) : x == y -> np_round x = np_round y.
Proof.
  intro H. unfold np_round. rewrite (Qfloor_comp _ _ H).
  assert (Hr : x - inject_Z (Qfloor y) == y - inject_Z (Qfloor y))
    by now rewrite H.
  rewrite (Qltb_comp _ _ _ _ Hr (Qeq_refl _)).
  now rewrite (Qltb_comp _ _ _ _ (Qeq_refl (1 # 2)) Hr).
Qed.

Lemma np_maximum_comp (a b l : Q) : a == b -> np_maximum a l == np_maximum b l.
Proof.
  intro H. unfold np_maximum. rewrite (Qleb_comp _ _ H _ _ (Qeq_refl l)).
  destruct (Qle_bool b l); [reflexivity | exact H].
Qed.

Lemma np_minimum_comp (a b u : Q) : a == b -> np_minimum a u == np_minimum b u.
Proof.
  intro H. unfold np_minimum. rewrite (Qleb_comp _ _ H _ _ (Qeq_refl u)).
  destruct (Qle_bool b u); [exact H | reflexivity].
Qed.

Lemma sample_value_comp s i (x y : Q) :
  x == y -> sample_value s i x == sample_value s i y.
Proof.
  intro H. unfold sample_value.
  assert (Hc : np_minimum (np_maximum x (nth i (lower s) 0)) (nth i (upper s) 0)
               == np_minimum (np_maximum y (nth i (lower s) 0))
                             (nth i (upper s) 0))
    by now apply np_minimum_comp, np_maximum_comp.
  destruct (nth i (integral_id s) false); [|exact Hc].
  now rewrite (np_round_comp _ _ Hc).
Qed.

Lemma normal_rows_nth m n k i :
  (k < n)%nat -> (i < n_dims (self m))%nat ->
  nth i (nth k (normal_rows m n) []) 0
  = nth i (mu (Qarr m)) 0
    + nth i (sigma (Qarr m)) 0
      * gauss (env m) (normals_drawn (env m) + k * n_dims (self m) + i).
Proof.
  intros Hk Hi. unfold normal_rows.
  set (f := fun r : nat => map _ (seq 0 (n_dims (self m)))).
  rewrite (nth_indep _ [] (f 0%nat)) by now rewrite length_map, length_seq.
  rewrite (map_nth f (seq 0 n) 0%nat k), seq_nth by assumption.
  unfold f. cbn [Nat.add]. now rewrite nth_map_seq.
Qed.

Lemma nth_map_rows {A} (f : A -> row) (l : list A) (d : A) k :
  (k < length l)%nat -> nth k (map f l) [] = f (nth k l d).
Proof.
  intro Hk. rewrite (nth_indep _ [] (f d)) by now rewrite length_map.
  apply map_nth.
Qed.

(** The value of row [k], dimension [i] of a sampled batch. *)
Lemma sampled_rows_nth m n k i :
  domain_shapes (self m) -> (k < n)%nat -> (i < n_dims (self m))%nat ->
  nth i (nth k (sampled_rows m n) []) 0
  = sample_value (self m) i
      (nth i (mu (Qarr m)) 0
       + nth i (sigma (Qarr m)) 0
         * gauss (env m) (normals_drawn (env m) + k * n_dims (self m) + i)).
Proof.
  intros (Hl & Hu & Hm) Hk Hi.
  destruct (normal_rows_shape m n) as [Hlen Hshape].
  rewrite Forall_forall in Hshape.
  assert (Hrow : length (nth k (normal_rows m n) []) = n_dims (self m)).
  { apply Hshape, nth_In. now rewrite Hlen. }
  rewrite <- normal_rows_nth with (n := n) by assumption.
  unfold sampled_rows, sample_value.
  destruct (existsb (fun b => b) (integral_id (self m))) eqn:E.
  - rewrite (nth_map_rows _ _ ([] : row)) by now rewrite length_map, Hlen.
    rewrite (nth_map_rows _ _ ([] : row)) by now rewrite Hlen.
    rewrite place_rounded_nth
      by (rewrite clamp_row_length; congruence).
    now rewrite clamp_row_nth by congruence.
  - rewrite (nth_map_rows _ _ ([] : row)) by now rewrite Hlen.
    rewrite clamp_row_nth by congruence.
    now rewrite (existsb_id_false _ i E).
Qed.

Lemma sampled_rows_Forall m n (P : row -> Prop) :
  (forall k, (k < n)%nat -> P (nth k (sampled_rows m n) [])) ->
  Forall P (sampled_rows m n).
Proof.
  intro H. apply Forall_forall. intros r Hin.
  destruct (In_nth _ _ [] Hin) as (k & Hk & <-).
  apply H. now rewrite sampled_rows_length in Hk.
Qed.

Lemma sample_value_whole s i x :
  nth i (integral_id s) false = true -> is_whole (sample_value s i x).
Proof. intro H. unfold sample_value. rewrite H. apply np_round_whole. Qed.

Lemma sample_value_near s i x :
  nth i (lower s) 0 <= nth i (upper s) 0 ->
  (nth i (lower s) 0 - (1 # 2) <= sample_value s i x
   /\ sample_value s i x <= nth i (upper s) 0 + (1 # 2))
  /\ (nth i (integral_id s) false = false ->
      nth i (lower s) 0 <= sample_value s i x <= nth i (upper s) 0).
Proof.
  intro Hlu. unfold sample_value.
  pose proof (clamp_between x _ _ Hlu) as [Hlo Hhi].
  destruct (nth i (integral_id s) false).
  - split; [|discriminate].
    pose proof (np_round_near
                  (np_minimum (np_maximum x (nth i (lower s) 0))
                              (nth i (upper s) 0))) as [H1 H2].
    split; lra.
  - split; [split; lra | now intros _].
Qed.

(** X1: on a valid domain every sampled value lies within 1/2 of
    [lower[i], upper[i]], the values of the dimensions that are not integral
    lie within the bounds, and the values of the integral dimensions are
    integers, whatever the bounds are. *)
Theorem quantum_sampling_stays_near_domain (m : machine) (n : nat) :
  valid_domain (self m) ->
  exists samples m',
    quantum_sampling n m = Ret samples m'
    /\ Forall
         (fun r =>
            integral_values_whole (self m) r
            /\ forall i, (i < n_dims (self m))%nat ->
                 (nth i (lower (self m)) 0 - (1 # 2) <= nth i r 0
                  /\ nth i r 0 <= nth i (upper (self m)) 0 + (1 # 2))
                 /\ (nth i (integral_id (self m)) false = false ->
                     nth i (lower (self m)) 0 <= nth i r 0
                     <= nth i (upper (self m)) 0))
         samples.
Proof.
  intros (Hl & Hu & Hm & Hle).
  exists (sampled_rows m n), (drawn m (n * n_dims (self m))).
  split; [apply quantum_sampling_eq|].
  apply sampled_rows_Forall. intros k Hk. split.
  - intros i Hi Hint. rewrite sampled_rows_nth by (repeat split; assumption).
    now apply sample_value_whole.
  - intros i Hi. rewrite sampled_rows_nth by (repeat split; assumption).
    apply sample_value_near. now apply Hle.
Qed.

Lemma quantum_sampling_stays_near_domain_witness :
  exists samples m',
    quantum_sampling 2 Examples.fractional_bound = Ret samples m'
    /\ Forall
         (fun r =>
            integral_values_whole (self Examples.fractional_bound) r
            /\ forall i, (i < 1)%nat ->
                 (nth i [2 # 5] 0 - (1 # 2) <= nth i r 0
                  /\ nth i r 0 <= nth i [5] 0 + (1 # 2))
                 /\ (nth i [true] false = false ->
                     nth i [2 # 5] 0 <= nth i r 0 <= nth i [5] 0))
         samples.
Proof.
  apply (quantum_sampling_stays_near_domain Examples.fractional_bound 2).
  repeat split; intros [|i] Hi; simpl in *; try lia. discriminate.
Defined.

Lemma clamp_collapses (x lo hi : Q) :
  hi <= lo -> np_minimum (np_maximum x lo) hi == hi.
Proof.
  intro H. unfold np_minimum, np_maximum.
  destruct (Qle_bool x lo) eqn:E1.
  - destruct (Qle_bool lo hi) eqn:E2; [|reflexivity].
    apply Qle_bool_iff in E2. now apply Qle_antisym.
  - apply Qle_bool_false in E1.
    destruct (Qle_bool x hi) eqn:E2; [|reflexivity].
    apply Qle_bool_iff in E2. lra.
Qed.

(** X2: in a dimension whose upper bound does not exceed its lower bound
    (a pinned dimension) every value sampled from an individual whose
    scale the generator accepts is the upper bound, rounded where the
    dimension is integral, whatever the mean and the variates are. *)
Theorem quantum_sampling_collapses_to_upper (m : machine) (n i : nat) :
  domain_shapes (self m) -> scale_accepted m ->
  (i < n_dims (self m))%nat ->
  nth i (upper (self m)) 0 <= nth i (lower (self m)) 0 ->
  exists samples m',
    quantum_sampling n m = Ret samples m'
    /\ length samples = n
    /\ Forall
         (fun r =>
            nth i r 0
            == (if nth i (integral_id (self m)) false
                then np_round (nth i (upper (self m)) 0)
                else nth i (upper (self m)) 0))
         samples.
Proof.
  intros Hshape _ Hi Hul.
  exists (sampled_rows m n), (drawn m (n * n_dims (self m))).
  split; [apply quantum_sampling_eq|]. split; [apply sampled_rows_length|].
  apply sampled_rows_Forall. intros k Hk.
  rewrite sampled_rows_nth by assumption. unfold sample_value.
  match goal with
  | |- context [np_minimum (np_maximum ?x ?lo) ?hi] =>
      pose proof (clamp_collapses x lo hi Hul) as Hc
  end.
  destruct (nth i (integral_id (self m)) false); [|exact Hc].
  now rewrite (np_round_comp _ _ Hc).
Qed.

Lemma quantum_sampling_collapses_to_upper_witness :
  exists samples m',
    quantum_sampling 3 Examples.pinned = Ret samples m'
    /\ length samples = 3%nat
    /\ Forall (fun r => nth 0 r 0 == 3) samples.
Proof.
  apply (quantum_sampling_collapses_to_upper Examples.pinned 3 0).
  - repeat split.
  - apply Forall_cons; [discriminate | apply Forall_nil].
  - simpl. lia.
  - simpl. apply Qle_refl.
Defined.

(** X3: a dimension whose sigma is 0 is sampled without randomness: every
    row holds the mean of that dimension, clamped and, where the dimension
    is integral, rounded. *)
Theorem quantum_sampling_zero_sigma_is_constant (m : machine) (n i : nat) :
  domain_shapes (self m) -> (i < n_dims (self m))%nat ->
  nth i (sigma (Qarr m)) 0 == 0 ->
  exists samples m',
    quantum_sampling n m = Ret samples m'
    /\ length samples = n
    /\ Forall
         (fun r =>
            nth i r 0 == sample_value (self m) i (nth i (mu (Qarr m)) 0))
         samples.
Proof.
  intros Hshape Hi Hsg.
  exists (sampled_rows m n), (drawn m (n * n_dims (self m))).
  split; [apply quantum_sampling_eq|]. split; [apply sampled_rows_length|].
  apply sampled_rows_Forall. intros k Hk.
  rewrite sampled_rows_nth by assumption.
  apply sample_value_comp. rewrite Hsg. ring.
Qed.

Lemma quantum_sampling_zero_sigma_is_constant_witness :
  exists samples m',
    quantum_sampling 3 Examples.frozen = Ret samples m'
    /\ length samples = 3%nat
    /\ Forall
         (fun r => nth 0 r 0 == sample_value (self Examples.frozen) 0 1)
         samples.
Proof.
  apply (quantum_sampling_zero_sigma_is_constant Examples.frozen 3 0).
  - repeat split.
  - simpl. lia.
  - reflexivity.
Defined.

(** ** quantum_update: the new mean and the new sigma *)

Lemma next_mu_nth m bp i :
  (i < length bp)%nat -> (i < length (mu (Qarr m)))%nat ->
  (i < length (deref (best_of_best (self m)) (Qarr m)))%nat ->
  nth i (next_mu m bp) 0
  = nth i (mu (Qarr m)) 0
    + ((nth i bp 0 - nth i (mu (Qarr m)) 0)
       + (nth i (deref (best_of_best (self m)) (Qarr m)) 0
          - nth i (mu (Qarr m)) 0))
      / mu_scaler (self m).
Proof.
  intros Hb Hm Hbob. unfold next_mu, vadd, vsub, vscale_div. cbv zeta.
  rewrite (zip_with_nth _ _ _ _ 0 0);
    rewrite ?length_map, ?zip_with_length; try lia.
  f_equal.
  set (f := fun x : Q => x / mu_scaler (self m)).
  rewrite (nth_indep _ 0 (f 0)) by (rewrite length_map, !zip_with_length; lia).
  rewrite (map_nth f). unfold f. f_equal.
  rewrite (zip_with_nth _ _ _ _ 0 0) by (rewrite !zip_with_length; lia).
  rewrite (zip_with_nth _ _ _ _ 0 0) by lia.
  now rewrite (zip_with_nth _ _ _ _ 0 0) by lia.
Qed.

Lemma step_towards (x b c s : Q) :
  0 < s ->
  (x <= b -> x <= c -> x <= x + ((b - x) + (c - x)) / s)
  /\ (b <= x -> c <= x -> x + ((b - x) + (c - x)) / s <= x).
Proof.
  intro Hs. split; intros Hb Hc.
  - assert (H : 0 <= ((b - x) + (c - x)) / s)
      by (apply Qle_shift_div_l; [exact Hs | rewrite Qmult_0_l; lra]).
    set (d := ((b - x) + (c - x)) / s) in *. clearbody d. lra.
  - assert (H : ((b - x) + (c - x)) / s <= 0)
      by (apply Qle_shift_div_r; [exact Hs | rewrite Qmult_0_l; lra]).
    set (d := ((b - x) + (c - x)) / s) in *. clearbody d. lra.
Qed.

(** X4: the update never moves the mean away from both of its targets.
    With mu_scaler > 0, in a dimension where the elite target and
    best_of_best are both at least the mean, the new mean is at least the
    old one; where both are at most the mean, the new mean is at most the
    old one (so where both equal the mean, the mean stays). *)
Theorem quantum_update_moves_mean_towards_targets
        (m : machine) (bp : row) (i : nat) :
  0 < mu_scaler (self m) ->
  (i < length bp)%nat -> (i < length (mu (Qarr m)))%nat ->
  (i < length (deref (best_of_best (self m)) (Qarr m)))%nat ->
  exists Q m',
    quantum_update bp m = Ret Q m' /\ Qarr m' = Q
    /\ (nth i (mu (Qarr m)) 0 <= nth i bp 0 ->
        nth i (mu (Qarr m)) 0
        <= nth i (deref (best_of_best (self m)) (Qarr m)) 0 ->
        nth i (mu (Qarr m)) 0 <= nth i (mu Q) 0)
    /\ (nth i bp 0 <= nth i (mu (Qarr m)) 0 ->
        nth i (deref (best_of_best (self m)) (Qarr m)) 0
        <= nth i (mu (Qarr m)) 0 ->
        nth i (mu Q) 0 <= nth i (mu (Qarr m)) 0).
Proof.
  intros Hs Hb Hm Ho.
  eexists. eexists. split; [apply quantum_update_eq|].
  split; [reflexivity|]. cbn [mu].
  rewrite next_mu_nth by assumption.
  now apply step_towards.
Qed.

Lemma quantum_update_moves_mean_towards_targets_witness :
  exists Q m',
    quantum_update [1] Examples.one_sigma_away = Ret Q m' /\ Qarr m' = Q
    /\ (0 <= 1 -> 0 <= 0 -> 0 <= nth 0 (mu Q) 0)
    /\ (1 <= 0 -> 0 <= 0 -> nth 0 (mu Q) 0 <= 0).
Proof.
  apply (quantum_update_moves_mean_towards_targets
           Examples.one_sigma_away [1] 0).
  - reflexivity.
  - simpl. lia.
  - simpl. lia.
  - simpl. lia.
Defined.

Lemma scaled_sigma_of_zero c x sg : sg == 0 -> scaled_sigma c x sg == 0.
Proof.
  intro H. unfold scaled_sigma, bool_times.
  destruct (lt_one x); destruct (gt_one x); rewrite ?H; unfold Qdiv; ring.
Qed.

Lemma abs_div_of_zero d sg : sg == 0 -> lt_one (abs_div d sg) = false.
Proof.
  intro H. unfold abs_div. apply Qeq_bool_iff in H. rewrite H.
  now destruct (Qeq_bool d 0).
Qed.

(** X5: sigma never turns negative and 0 is absorbing.  For a
    sigma_scaler other than 0, a sigma of 0 stays 0 after
    [quantum_update], whatever the elite target and ros_flag are; and with
    sigma_scaler > 1 a non-negative sigma stays non-negative. *)
Theorem quantum_update_sigma_zero_absorbing (m : machine) (bp : row) (i : nat) :
  ~ sigma_scaler (self m) == 0 ->
  (i < length bp)%nat -> (i < length (mu (Qarr m)))%nat ->
  (i < length (sigma (Qarr m)))%nat ->
  exists Q m',
    quantum_update bp m = Ret Q m' /\ Qarr m' = Q
    /\ (nth i (sigma (Qarr m)) 0 == 0 -> nth i (sigma Q) 0 == 0)
    /\ (1 < sigma_scaler (self m) -> 0 <= nth i (sigma (Qarr m)) 0 ->
        0 <= nth i (sigma Q) 0).
Proof.
  intros _ Hb Hm Hs. eexists. eexists. split; [apply quantum_update_eq|].
  split; [reflexivity|]. cbn [sigma].
  assert (Hzero : nth i (sigma (Qarr m)) 0 == 0 ->
                  nth i (next_sigma m bp) 0 == 0).
  { intro Hz. rewrite next_sigma_nth by assumption. cbv zeta.
    unfold ros_correction. rewrite (abs_div_of_zero _ _ Hz), andb_false_r.
    destruct (Qltb 10 (cost_function (self m) (next_mu m bp)) && ros_flag (self m));
      now apply scaled_sigma_of_zero. }
  split; [exact Hzero|].
  intros Hc Hnn.
  destruct (Qle_lt_or_eq _ _ Hnn) as [Hpos | Hz].
  - destruct (Q_dec (Qabs (nth i bp 0 - nth i (mu (Qarr m)) 0)
                     / nth i (sigma (Qarr m)) 0) 1) as [Hoff | Htie].
    + apply Qlt_le_weak.
      apply quantum_update_sigma_positive_off_tie; try assumption.
      intro Heq. destruct Hoff as [H | H]; rewrite Heq in H;
        exact (Qlt_irrefl _ H).
    + rewrite quantum_update_tie; try assumption; [apply Qle_refl|].
      intro Heq. rewrite Heq in Hpos. exact (Qlt_irrefl _ Hpos).
  - rewrite Hzero by now symmetry. apply Qle_refl.
Qed.

Lemma quantum_update_sigma_zero_absorbing_witness :
  exists Q m',
    quantum_update [5] Examples.frozen = Ret Q m' /\ Qarr m' = Q
    /\ (nth 0 [0] 0 == 0 -> nth 0 (sigma Q) 0 == 0)
    /\ (1 < 100001 # 100000 -> 0 <= nth 0 [0] 0 -> 0 <= nth 0 (sigma Q) 0).
Proof.
  apply (quantum_update_sigma_zero_absorbing Examples.frozen [5] 0);
    [intro H; discriminate H | simpl; lia..].
Defined.

(** X6: while best_of_best is still the view of row 0 of [Q] that
    [quantum_individual_init] made, it contributes nothing to the update:
    the new mean is mean + (elite_target - mean) / mu_scaler, and
    best_of_best reads as this new mean afterwards. *)
Theorem quantum_update_with_viewed_best (m : machine) (bp : row) (i : nat) :
  best_of_best (self m) = ViewOfMu ->
  (i < length bp)%nat -> (i < length (mu (Qarr m)))%nat ->
  exists Q m',
    quantum_update bp m = Ret Q m' /\ Qarr m' = Q
    /\ nth i (mu Q) 0
       == nth i (mu (Qarr m)) 0
          + (nth i bp 0 - nth i (mu (Qarr m)) 0) / mu_scaler (self m)
    /\ deref (best_of_best (self m')) (Qarr m') = mu Q.
Proof.
  intros Hview Hb Hm. eexists. eexists. split; [apply quantum_update_eq|].
  split; [reflexivity|]. cbn [self Qarr mu]. rewrite Hview. cbn [deref mu].
  split; [|reflexivity].
  rewrite next_mu_nth by (rewrite ?Hview; cbn [deref]; assumption).
  rewrite Hview. cbn [deref]. unfold Qdiv. ring.
Qed.

Lemma quantum_update_with_viewed_best_witness :
  exists Q m',
    quantum_update [1] Examples.one_sigma_away = Ret Q m' /\ Qarr m' = Q
    /\ nth 0 (mu Q) 0 == 0 + (1 - 0) / 100
    /\ deref (best_of_best (self m')) (Qarr m') = mu Q.
Proof.
  apply (quantum_update_with_viewed_best Examples.one_sigma_away [1] 0).
  - reflexivity.
  - simpl. lia.
  - simpl. lia.
Defined.

(** ** quantum_individual_init: the initial sigma *)

(** X7: the initial sigma of a dimension is the width upper[i] - lower[i]
    of the domain (so 0 for a pinned dimension), [best_of_best] reads as the
    initial mean, and the call draws 2 * n_dims uniform variates (the second
    half is overwritten by the widths), no normal variate, and never calls
    the cost function. *)
Theorem quantum_individual_init_sigma_is_width (m : machine) (i : nat) :
  length (lower (self m)) = n_dims (self m) ->
  length (upper (self m)) = n_dims (self m) ->
  (i < n_dims (self m))%nat ->
  exists Q m',
    quantum_individual_init m = Ret Q m' /\ Qarr m' = Q
    /\ nth i (sigma Q) 0 == nth i (upper (self m)) 0 - nth i (lower (self m)) 0
    /\ deref (best_of_best (self m')) (Qarr m') = mu Q
    /\ uniforms_drawn (env m')
       = (uniforms_drawn (env m) + 2 * n_dims (self m))%nat
    /\ normals_drawn (env m') = normals_drawn (env m)
    /\ cost_calls (env m') = cost_calls (env m).
Proof.
  intros Hl Hu Hi. eexists. eexists.
  split; [apply quantum_individual_init_eq|].
  split; [reflexivity|]. split; [|repeat split].
  unfold initial_individual. cbv zeta. cbn [sigma]. unfold vsub.
  rewrite (zip_with_nth _ _ _ _ 0 1)
    by (rewrite ?zip_with_length, ?repeat_length; lia).
  rewrite (zip_with_nth _ _ _ _ 0 0) by lia.
  rewrite nth_repeat. ring.
Qed.

Lemma quantum_individual_init_sigma_is_width_witness :
  exists Q m',
    quantum_individual_init Examples.pinned = Ret Q m' /\ Qarr m' = Q
    /\ nth 0 (sigma Q) 0 == 3 - 3
    /\ deref (best_of_best (self m')) (Qarr m') = mu Q
    /\ uniforms_drawn (env m') = (0 + 2 * 1)%nat
    /\ normals_drawn (env m') = 0%nat
    /\ cost_calls (env m') = 0%nat.
Proof.
  apply (quantum_individual_init_sigma_is_width Examples.pinned 0).
  - reflexivity.
  - reflexivity.
  - simpl. lia.
Defined.

(** ** elitist_sample_evaluation: which rows are averaged *)

Lemma insert_by_perm cost i l : Permutation (insert_by cost i l) (i :: l).
Proof.
  induction l as [|j l IH]; simpl; [reflexivity|].
  destruct (Qle_bool (nth j cost 0) (nth i cost 0)); [|reflexivity].
  rewrite IH. apply perm_swap.
Qed.

Lemma fold_insert_perm cost l : forall acc,
  Permutation (fold_left (fun acc i => insert_by cost i acc) l acc) (l ++ acc).
Proof.
  induction l as [|x l IH]; intro acc; simpl; [reflexivity|].
  rewrite IH, insert_by_perm. symmetry. apply Permutation_middle.
Qed.

Lemma np_argsort_perm cost :
  Permutation (np_argsort cost) (seq 0 (length cost)).
Proof.
  unfold np_argsort. rewrite fold_insert_perm. now rewrite app_nil_r.
Qed.

Lemma insert_by_HdRel cost j i l :
  HdRel (cost_le cost) j l -> cost_le cost j i ->
  HdRel (cost_le cost) j (insert_by cost i l).
Proof.
  intros Hl Hi. destruct l as [|k l]; simpl; [now constructor|].
  destruct (Qle_bool (nth k cost 0) (nth i cost 0)).
  - constructor. now inversion Hl.
  - now constructor.
Qed.

Lemma insert_by_sorted cost i l :
  Sorted (cost_le cost) l -> Sorted (cost_le cost) (insert_by cost i l).
Proof.
  induction l as [|j l IH]; intro Hs; simpl.
  - repeat constructor.
  - inversion Hs as [|? ? Hsl Hhd]; subst.
    destruct (Qle_bool (nth j cost 0) (nth i cost 0)) eqn:E.
    + constructor; [now apply IH|].
      apply insert_by_HdRel; [assumption|]. now apply Qle_bool_iff.
    + constructor; [assumption|]. constructor.
      apply Qlt_le_weak. now apply Qle_bool_false.
Qed.

Lemma fold_insert_sorted cost l : forall acc,
  Sorted (cost_le cost) acc ->
  Sorted (cost_le cost) (fold_left (fun acc i => insert_by cost i acc) l acc).
Proof.
  induction l as [|x l IH]; intros acc Hacc; simpl; [assumption|].
  now apply IH, insert_by_sorted.
Qed.

Lemma np_argsort_sorted cost : StronglySorted (cost_le cost) (np_argsort cost).
Proof.
  apply Sorted_StronglySorted.
  - intros a b c. unfold cost_le. apply Qle_trans.
  - apply fold_insert_sorted. constructor.
Qed.

Lemma StronglySorted_split {A} (R : A -> A -> Prop) (l : list A) k :
  StronglySorted R l ->
  forall a b, In a (firstn k l) -> In b (skipn k l) -> R a b.
Proof.
  revert k. induction l as [|x l IH]; intros [|k] Hs a b Ha Hb;
    simpl in *; try contradiction.
  inversion Hs as [|? ? Hsl Hall]; subst.
  destruct Ha as [<- | Ha].
  - rewrite Forall_forall in Hall. apply Hall.
    rewrite <- (firstn_skipn k l). apply in_or_app. now right.
  - now apply (IH k).
Qed.

Lemma fold_vadd_column d i : forall rows acc,
  length acc = d -> Forall (fun r => length r = d) rows -> (i < d)%nat ->
  length (fold_left vadd rows acc) = d
  /\ nth i (fold_left vadd rows acc) 0 == nth i acc 0 + column_sum i rows.
Proof.
  induction rows as [|r rows IH]; intros acc Hacc Hrows Hi; simpl.
  - split; [assumption | ring].
  - apply Forall_cons_iff in Hrows as [Hr Hrest].
    assert (Hlen : length (vadd acc r) = d).
    { unfold vadd. rewrite zip_with_length. lia. }
    destruct (IH (vadd acc r) Hlen Hrest Hi) as [IH1 IH2].
    split; [exact IH1|]. rewrite IH2. unfold vadd.
    rewrite (zip_with_nth _ _ _ _ 0 0) by lia. ring.
Qed.

Lemma fold_vadd_length d : forall rows acc,
  length acc = d -> Forall (fun r => length r = d) rows ->
  length (fold_left vadd rows acc) = d.
Proof.
  induction rows as [|r rows IH]; intros acc Hacc Hrows; simpl; [assumption|].
  apply Forall_cons_iff in Hrows as [Hr Hrest]. apply IH; [|assumption].
  unfold vadd. rewrite zip_with_length. lia.
Qed.

Lemma np_mean_axis0_nth d i rows :
  Forall (fun r => length r = d) rows -> (i < d)%nat ->
  length (np_mean_axis0 d rows) = d
  /\ nth i (np_mean_axis0 d rows) 0
     == column_sum i rows / inject_Z (Z.of_nat (length rows)).
Proof.
  intros Hrows Hi. unfold np_mean_axis0, vscale_div.
  destruct (fold_vadd_column d i rows (repeat 0 d) (repeat_length _ _) Hrows Hi)
    as [Hlen Hsum].
  split; [now rewrite length_map|].
  set (c := inject_Z (Z.of_nat (length rows))).
  set (f := fun x : Q => x / c).
  rewrite (nth_indep _ 0 (f 0)) by (rewrite length_map; lia).
  rewrite (map_nth f). unfold f. rewrite Hsum, nth_repeat.
  unfold Qdiv. ring.
Qed.

Lemma nth_cost_map (f : row -> Q) (samples : batch) a :
  (a < length samples)%nat ->
  nth a (map f samples) 0 = f (nth a samples []).
Proof.
  intro Ha. rewrite (nth_indep _ 0 (f [])) by now rewrite length_map.
  apply map_nth.
Qed.

(** The rows that [elitist_sample_evaluation] averages: the first
    [elitist_level] indices of the sorted order. *)
Lemma elite_target_structure (m : machine) (samples : batch) :
  Forall (fun r => length r = length (hd [] samples)) samples ->
  exists chosen rest,
    Permutation (chosen ++ rest) (seq 0 (length samples))
    /\ length chosen = Nat.min (elitist_level (self m)) (length samples)
    /\ (forall a b, In a chosen -> In b rest ->
          cost_function (self m) (nth a samples [])
          <= cost_function (self m) (nth b samples []))
    /\ length (elite_target m samples) = length (hd [] samples)
    /\ (forall i, (i < length (hd [] samples))%nat ->
          nth i (elite_target m samples) 0
          == column_sum i (map (fun j => nth j samples []) chosen)
             / inject_Z (Z.of_nat (length chosen))).
Proof.
  intro Hrect.
  set (cost := map (cost_function (self m)) samples).
  set (order := np_argsort cost).
  assert (Hperm : Permutation order (seq 0 (length samples))).
  { unfold order. rewrite np_argsort_perm. unfold cost. now rewrite length_map. }
  assert (Hin : forall j, In j order -> (j < length samples)%nat).
  { intros j Hj. apply (Permutation_in _ Hperm), in_seq in Hj. lia. }
  exists (firstn (elitist_level (self m)) order),
         (skipn (elitist_level (self m)) order).
  assert (Hsel : Forall (fun r => length r = length (hd [] samples))
                   (map (fun j => nth j samples [])
                        (firstn (elitist_level (self m)) order))).
  { apply Forall_forall. intros r (j & <- & Hj)%in_map_iff.
    rewrite Forall_forall in Hrect. apply Hrect, nth_In, Hin.
    rewrite <- (firstn_skipn (elitist_level (self m)) order).
    apply in_or_app. now left. }
  repeat match goal with |- _ /\ _ => split end.
  - now rewrite firstn_skipn.
  - rewrite length_firstn. f_equal.
    rewrite (Permutation_length Hperm). apply length_seq.
  - intros a b Ha Hb.
    pose proof (StronglySorted_split _ _ _ (np_argsort_sorted cost) a b Ha Hb)
      as Hle.
    unfold cost_le, cost in Hle.
    rewrite !nth_cost_map in Hle; [exact Hle | |].
    + apply Hin. rewrite <- (firstn_skipn (elitist_level (self m)) order).
      apply in_or_app. now right.
    + apply Hin. rewrite <- (firstn_skipn (elitist_level (self m)) order).
      apply in_or_app. now left.
  - unfold elite_target. fold cost. fold order.
    unfold np_mean_axis0, vscale_div. rewrite length_map.
    apply fold_vadd_length; [apply repeat_length | exact Hsel].
  - intros i Hi. unfold elite_target. fold cost. fold order.
    destruct (np_mean_axis0_nth _ i _ Hsel Hi) as [_ Hnth].
    rewrite Hnth. now rewrite length_map.
Qed.

(** X8: on a rectangular batch [elitist_sample_evaluation] returns the
    coordinate-wise mean of min(elitist_level, n) rows whose costs do not
    exceed the cost of any row left out, and it calls the cost function
    once. *)
Theorem elitist_sample_evaluation_averages_best (m : machine) (samples : batch) :
  Forall (fun r => length r = length (hd [] samples)) samples ->
  exists elite m' chosen rest,
    elitist_sample_evaluation samples m = Ret elite m'
    /\ cost_calls (env m') = S (cost_calls (env m))
    /\ Permutation (chosen ++ rest) (seq 0 (length samples))
    /\ length chosen = Nat.min (elitist_level (self m)) (length samples)
    /\ (forall a b, In a chosen -> In b rest ->
          cost_function (self m) (nth a samples [])
          <= cost_function (self m) (nth b samples []))
    /\ length elite = length (hd [] samples)
    /\ (forall i, (i < length (hd [] samples))%nat ->
          nth i elite 0
          == column_sum i (map (fun j => nth j samples []) chosen)
             / inject_Z (Z.of_nat (length chosen))).
Proof.
  intro Hrect.
  destruct (elite_target_structure m samples Hrect)
    as (chosen & rest & H1 & H2 & H3 & H4 & H5).
  exists (elite_target m samples), (charged m 1), chosen, rest.
  split; [apply elitist_sample_evaluation_eq|].
  split; [reflexivity|]. now repeat split.
Qed.

Lemma elitist_sample_evaluation_averages_best_witness :
  exists elite m' chosen rest,
    elitist_sample_evaluation [[3]; [1]; [2]] Examples.plain_run = Ret elite m'
    /\ cost_calls (env m') = 1%nat
    /\ Permutation (chosen ++ rest) [0; 1; 2]%nat
    /\ length chosen = 2%nat
    /\ (forall a b, In a chosen -> In b rest ->
          Examples.square (nth a [[3]; [1]; [2]] [])
          <= Examples.square (nth b [[3]; [1]; [2]] []))
    /\ length elite = 1%nat
    /\ (forall i, (i < 1)%nat ->
          nth i elite 0
          == column_sum i (map (fun j => nth j [[3]; [1]; [2]] []) chosen)
             / inject_Z (Z.of_nat (length chosen))).
Proof.
  apply (elitist_sample_evaluation_averages_best Examples.plain_run
           [[3]; [1]; [2]]).
  repeat constructor.
Defined.

(** X9: with elitist_level = 1, as in the last pass of [training], the
    elite target of a non-empty rectangular batch is one of its rows, and
    no row of the batch has a lower cost. *)
Theorem elitist_level_one_picks_a_best_row (m : machine) (samples : batch) :
  elitist_level (self m) = 1%nat -> samples <> [] ->
  Forall (fun r => length r = length (hd [] samples)) samples ->
  exists elite m' a,
    elitist_sample_evaluation samples m = Ret elite m'
    /\ (a < length samples)%nat
    /\ (forall b, (b < length samples)%nat ->
          cost_function (self m) (nth a samples [])
          <= cost_function (self m) (nth b samples []))
    /\ length elite = length (nth a samples [])
    /\ (forall i, (i < length elite)%nat ->
          nth i elite 0 == nth i (nth a samples []) 0).
Proof.
  intros Hone Hne Hrect.
  destruct (elite_target_structure m samples Hrect)
    as (chosen & rest & Hperm & Hlen & Hbest & Helen & Hmean).
  assert (Hn : (1 <= length samples)%nat).
  { destruct samples; [contradiction | simpl; lia]. }
  rewrite Hone in Hlen. rewrite Nat.min_l in Hlen by exact Hn.
  destruct chosen as [|a [|a' chosen]]; try discriminate Hlen.
  assert (Ha : (a < length samples)%nat).
  { assert (Hin : In a (seq 0 (length samples))).
    { apply (Permutation_in _ Hperm). now left. }
    apply in_seq in Hin. lia. }
  assert (Hrow : length (nth a samples []) = length (hd [] samples)).
  { rewrite Forall_forall in Hrect. now apply Hrect, nth_In. }
  exists (elite_target m samples), (charged m 1), a.
  split; [apply elitist_sample_evaluation_eq|].
  split; [exact Ha|]. split; [|split].
  - intros b Hb.
    assert (Hin : In b ([a] ++ rest)).
    { apply (Permutation_in _ (Permutation_sym Hperm)), in_seq. lia. }
    destruct Hin as [<- | Hin]; [apply Qle_refl|].
    apply Hbest; [now left | exact Hin].
  - congruence.
  - intros i Hi. rewrite Hmean by congruence.
    cbn [map column_sum fold_right length Z.of_nat Pos.of_succ_nat].
    change (inject_Z 1) with 1. field.
Qed.

Lemma elitist_level_one_picks_a_best_row_witness :
  exists elite m' a,
    elitist_sample_evaluation [[3]; [1]; [2]] Examples.starts_at_minimum
    = Ret elite m'
    /\ (a < 3)%nat
    /\ (forall b, (b < 3)%nat ->
          Examples.square (nth a [[3]; [1]; [2]] [])
          <= Examples.square (nth b [[3]; [1]; [2]] []))
    /\ length elite = length (nth a [[3]; [1]; [2]] [])
    /\ (forall i, (i < length elite)%nat ->
          nth i elite 0 == nth i (nth a [[3]; [1]; [2]] []) 0).
Proof.
  apply (elitist_level_one_picks_a_best_row Examples.starts_at_minimum
           [[3]; [1]; [2]]).
  - reflexivity.
  - discriminate.
  - repeat constructor.
Defined.


(** ** restricted_quantum_sampling: what the loop adds and when it ends *)

Lemma resample_loop_strict fuel n : forall samples m rows m',
  resample_loop fuel n samples m = Ret rows m' ->
  exists extra,
    rows = samples ++ extra
    /\ Forall (strictly_feasible (restrictions (self m))) extra
    /\ ((length samples <= n)%nat -> length rows = n).
Proof.
  induction fuel as [|fuel IH]; intros samples m rows m'; simpl.
  - destruct (Nat.ltb_spec 0 (n - length samples)); [discriminate|].
    intros [= <- <-]. exists []. rewrite app_nil_r.
    repeat split; [constructor | lia].
  - destruct (Nat.ltb_spec 0 (n - length samples)).
    2:{ intros [= <- <-]. exists []. rewrite app_nil_r.
        repeat split; [constructor | lia]. }
    unfold bind at 1, get_self at 1. unfold bind at 1.
    rewrite quantum_sampling_eq. intro Hloop.
    apply IH in Hloop as (extra & -> & Hall & Hlen).
    match goal with
    | |- context [select ?mask ?new] => set (kept := select mask new) in *
    end.
    assert (Hkept : Forall (strictly_feasible (restrictions (self m))) kept).
    { apply select_Forall. intros k r Hr Hm.
      now destruct (fold_mask_gt_true _ _ _ _ _ Hr Hm). }
    assert (Hklen : (length kept <= n - length samples)%nat).
    { unfold kept. etransitivity; [apply select_length|].
      now rewrite sampled_rows_length. }
    exists (kept ++ extra). rewrite app_assoc.
    split; [reflexivity|]. split.
    + apply Forall_app. split; [exact Hkept | exact Hall].
    + intro Hle. apply Hlen. rewrite length_app. lia.
Qed.

(** X11: when [restricted_quantum_sampling] returns, it returns exactly
    [n] rows: the rows of the first batch that pass the first mask, in
    order, followed by rows on which every restriction is strictly
    positive; the call has changed nothing but the position of the normal
    generator. *)
Theorem restricted_sampling_returns_n_rows
        (fuel n : nat) (m : machine) (rows : batch) (m' : machine) :
  restricted_quantum_sampling fuel n m = Ret rows m' ->
  length rows = n
  /\ same_but_normals m m'
  /\ exists extra,
       rows = select (fold_left (mask_step_ge (sampled_rows m n))
                                (restrictions (self m)) (repeat true n))
                     (sampled_rows m n)
              ++ extra
       /\ Forall (strictly_feasible (restrictions (self m))) extra.
Proof.
  intro H.
  pose proof (restricted_quantum_sampling_frame fuel n m) as Hframe.
  rewrite H in Hframe.
  unfold restricted_quantum_sampling in H.
  unfold bind at 1, get_self at 1 in H. unfold bind at 1 in H.
  rewrite quantum_sampling_eq in H.
  apply resample_loop_strict in H as (extra & -> & Hall & Hlen).
  split; [|split; [exact Hframe|]].
  - apply Hlen. etransitivity; [apply select_length|].
    now rewrite sampled_rows_length.
  - exists extra. split; [reflexivity | exact Hall].
Qed.

Lemma restricted_sampling_returns_n_rows_witness :
  let o := restricted_quantum_sampling 1 2 Examples.one_restriction in
  length (Examples.value_of [] o) = 2%nat
  /\ same_but_normals Examples.one_restriction (Examples.machine_of o)
  /\ exists extra,
       Examples.value_of [] o
       = select (fold_left
                   (mask_step_ge (sampled_rows Examples.one_restriction 2))
                   [Examples.h_ge5] (repeat true 2))
                (sampled_rows Examples.one_restriction 2)
         ++ extra
       /\ Forall (strictly_feasible [Examples.h_ge5]) extra.
Proof.
  apply (restricted_sampling_returns_n_rows 1 2 Examples.one_restriction).
  vm_compute. reflexivity.
Defined.

(** X12: with exactly one restriction every returned row is feasible, and
    there are [n] of them. *)
Theorem restricted_sampling_one_restriction_feasible
        (fuel n : nat) (m : machine) (h : row -> Q)
        (rows : batch) (m' : machine) :
  restrictions (self m) = [h] ->
  restricted_quantum_sampling fuel n m = Ret rows m' ->
  length rows = n /\ Forall (fun r => 0 <= h r) rows.
Proof.
  intros Hh H.
  destruct (restricted_sampling_single_feasible fuel n m h rows m' Hh H)
    as [Hlen Hall].
  split; [exact Hlen|]. eapply Forall_impl; [|exact Hall].
  intros r Hr. now inversion Hr.
Qed.

Lemma restricted_sampling_one_restriction_feasible_witness :
  let o := restricted_quantum_sampling 1 2 Examples.one_restriction in
  length (Examples.value_of [] o) = 2%nat
  /\ Forall (fun r => 0 <= Examples.h_ge5 r) (Examples.value_of [] o).
Proof.
  apply (restricted_sampling_one_restriction_feasible
           1 2 Examples.one_restriction Examples.h_ge5 _
           (Examples.machine_of
              (restricted_quantum_sampling 1 2 Examples.one_restriction))).
  - reflexivity.
  - vm_compute. reflexivity.
Defined.

Lemma select_mask_ge_none h : forall samples n,
  Forall (fun r => h r < 0) samples ->
  select (mask_step_ge samples (repeat true n) h) samples = [].
Proof.
  unfold mask_step_ge.
  induction samples as [|r samples IH]; intros [|n] Hall; simpl;
    try reflexivity.
  apply Forall_cons_iff in Hall as [Hr Hrest].
  destruct (Qle_bool 0 (h r)) eqn:E.
  - apply Qle_bool_iff in E. exfalso. exact (Qlt_not_le _ _ Hr E).
  - now apply IH.
Qed.

Lemma select_mask_gt_none h : forall samples valid,
  Forall (fun r => h r < 0) samples ->
  select (mask_step_gt samples valid h) samples = [].
Proof.
  unfold mask_step_gt.
  induction samples as [|r samples IH]; intros [|b valid] Hall; simpl;
    try reflexivity.
  apply Forall_cons_iff in Hall as [Hr Hrest].
  destruct (Qltb 0 (bool_times b (h r))) eqn:E.
  - apply Qltb_lt in E. exfalso. destruct b; simpl in E.
    + exact (Qlt_irrefl _ (Qlt_trans _ _ _ E Hr)).
    + exact (Qlt_irrefl _ E).
  - now apply IH.
Qed.

Lemma sampled_rows_infeasible m n h :
  valid_domain (self m) -> integral_bounds_whole (self m) ->
  (forall r, in_bounds (self m) r -> h r < 0) ->
  Forall (fun r => h r < 0) (sampled_rows m n).
Proof.
  intros Hv Hw Hneg.
  eapply Forall_impl; [|apply (sampled_rows_in_bounds m n Hv Hw)].
  intros r [Hr _]. now apply Hneg.
Qed.

Lemma resample_loop_hangs n h fuel : forall m,
  (0 < n)%nat -> restrictions (self m) = [h] ->
  valid_domain (self m) -> integral_bounds_whole (self m) ->
  (forall r, in_bounds (self m) r -> h r < 0) ->
  exists m', resample_loop fuel n [] m = Raise Hang m'.
Proof.
  induction fuel as [|fuel IH]; intros m Hn Hh Hv Hw Hneg; simpl.
  - rewrite Nat.sub_0_r. destruct (Nat.ltb_spec 0 n); [|lia].
    now exists m.
  - rewrite Nat.sub_0_r. destruct (Nat.ltb_spec 0 n); [|lia].
    unfold bind at 1, get_self at 1. unfold bind at 1.
    rewrite quantum_sampling_eq, Hh. cbn [fold_left].
    rewrite select_mask_gt_none by now apply sampled_rows_infeasible.
    apply (IH (drawn m (n * n_dims (self m)))); assumption.
Qed.

Lemma restricted_sampling_hangs (fuel n : nat) (m : machine) (h : row -> Q) :
  (0 < n)%nat -> restrictions (self m) = [h] ->
  valid_domain (self m) -> integral_bounds_whole (self m) ->
  (forall r, in_bounds (self m) r -> h r < 0) ->
  exists m', restricted_quantum_sampling fuel n m = Raise Hang m'.
Proof.
  intros Hn Hh Hv Hw Hneg. unfold restricted_quantum_sampling.
  unfold bind at 1, get_self at 1. unfold bind at 1.
  rewrite quantum_sampling_eq, Hh. cbn [fold_left].
  rewrite select_mask_ge_none by now apply sampled_rows_infeasible.
  apply (resample_loop_hangs n h fuel (drawn m (n * n_dims (self m))));
    assumption.
Qed.

(** X13: a single restriction that is negative on the whole domain makes
    [restricted_quantum_sampling] run for ever: for n > 0 and whatever the
    generator delivers, no bound on the rounds of the loop lets it
    return. *)
Theorem restricted_sampling_never_returns_when_infeasible
        (fuel n : nat) (m : machine) (h : row -> Q) :
  (0 < n)%nat -> restrictions (self m) = [h] ->
  valid_domain (self m) -> integral_bounds_whole (self m) ->
  (forall r, in_bounds (self m) r -> h r < 0) ->
  exists m', restricted_quantum_sampling fuel n m = Raise Hang m'.
Proof.
  intros Hn Hh Hv Hw Hneg. unfold restricted_quantum_sampling.
  unfold bind at 1, get_self at 1. unfold bind at 1.
  rewrite quantum_sampling_eq, Hh. cbn [fold_left].
  rewrite select_mask_ge_none by now apply sampled_rows_infeasible.
  apply (resample_loop_hangs n h fuel (drawn m (n * n_dims (self m))));
    assumption.
Qed.

Lemma restricted_sampling_never_returns_when_infeasible_witness :
  exists m', restricted_quantum_sampling 25 3 Examples.infeasible
             = Raise Hang m'.
Proof.
  apply (restricted_sampling_never_returns_when_infeasible
           25 3 Examples.infeasible Examples.h_ge20).
  - lia.
  - reflexivity.
  - repeat split; intros [|i] Hi; simpl in *; try lia. discriminate.
  - intros [|[|i]] Hi; simpl in Hi; discriminate.
  - intros r [Hlen Hb]. specialize (Hb 0%nat Nat.lt_0_1). simpl in Hb.
    unfold Examples.h_ge20, Examples.first. lra.
Defined.

Lemma select_all_true {A} (xs : list A) :
  select (repeat true (length xs)) xs = xs.
Proof. induction xs as [|x xs IH]; simpl; [reflexivity | now rewrite IH]. Qed.

(** X14: without restrictions [restricted_quantum_sampling] is
    [quantum_sampling]: the same batch, the same draws, no round of the
    loop. *)
Theorem restricted_sampling_without_restrictions
        (fuel n : nat) (m : machine) :
  restrictions (self m) = [] ->
  restricted_quantum_sampling fuel n m = quantum_sampling n m.
Proof.
  intro Hr. unfold restricted_quantum_sampling.
  unfold bind at 1, get_self at 1. unfold bind at 1.
  rewrite quantum_sampling_eq, Hr. cbn [fold_left].
  replace (repeat true n) with (repeat true (length (sampled_rows m n)))
    by now rewrite sampled_rows_length.
  rewrite select_all_true.
  destruct fuel; simpl; rewrite sampled_rows_length, Nat.sub_diag; reflexivity.
Qed.

Lemma restricted_sampling_without_restrictions_witness :
  restricted_quantum_sampling 0 3 Examples.plain_run
  = quantum_sampling 3 Examples.plain_run.
Proof.
  apply (restricted_sampling_without_restrictions 0 3 Examples.plain_run).
  reflexivity.
Defined.

(** ** training: history, terminal and resources *)

Lemma sampler_effects fuel n m :
  match (match restrictions (self m) with
         | _ :: _ => restricted_quantum_sampling fuel n
         | [] => quantum_sampling n
         end) m with
  | Ret _ m' =>
      same_but_normals m m'
      /\ (restrictions (self m) = [] ->
          normals_drawn (env m')
          = (normals_drawn (env m) + n * n_dims (self m))%nat)
  | Raise e m' => True
  end.
Proof.
  destruct (restrictions (self m)) eqn:E.
  - rewrite quantum_sampling_eq. split; [apply same_but_normals_drawn|].
    reflexivity.
  - pose proof (restricted_quantum_sampling_frame fuel n m) as H.
    destruct (restricted_quantum_sampling fuel n m); [|exact I].
    split; [exact H | discriminate].
Qed.

Lemma loop_body_effects N ss fuel i lv m :
  match loop_body N ss fuel i lv m with
  | Ret (b, lv') m' => step_effects N ss i lv m lv' m'
  | Raise e m' => True
  end.
Proof.
  unfold loop_body. rewrite force_level. repeat run_op.
  pose proof (sampler_effects fuel ss m) as Hs.
  destruct (match restrictions (self m) with
            | _ :: _ => restricted_quantum_sampling fuel ss
            | [] => quantum_sampling ss
            end m) as [samples m1 | e m1]; [|exact I].
  destruct Hs as ((Hself & HQ & _ & _ & Hunif & _ & _ & Hcalls & Hout & Hnpz)
                  & Hnormals).
  destruct (N <=? i)%nat eqn:Eforce; repeat run_op; tidy.
  all: split_if; repeat run_op; tidy.
  all: split_if; repeat run_op; tidy.
  all: split_if; repeat run_op; tidy.
  all: try (unfold progress; split_if; repeat run_op; tidy).
  all: try exact I.
  all: unfold step_effects; cbv zeta; eexists; tidy;
    cbn [trace]; (split; [reflexivity|]);
    cbn [trace j history it_index it_best_performer];
    unfold saved_pass, progress_pass, progress_line;
    cbn [it_index it_best_performer];
    repeat match goal with
           | H : (_ =? 0)%nat = _ |- _ => rewrite H
           end;
    cbn [count_if];
    rewrite ?Hself, ?Hunif, ?Hcalls, ?Hout, ?Hnpz;
    repeat match goal with |- _ /\ _ => split end;
    try reflexivity; try lia; try (now rewrite app_nil_r);
    try (intro Hr; rewrite (Hnormals Hr); reflexivity).
Qed.

Lemma ceil_step (s a c : nat) :
  s <> 0%nat -> (a <= c * s < a + s)%nat ->
  if (a mod s =? 0)%nat
  then (c * s = a /\ S a <= S c * s < S a + s)%nat
  else (S a <= c * s < S a + s)%nat.
Proof.
  intros Hs [H1 H2].
  pose proof (Nat.div_mod_eq a s) as Hdm.
  pose proof (Nat.mod_upper_bound a s Hs) as Hr.
  destruct (Nat.eqb_spec (a mod s) 0) as [E | E].
  - rewrite E, Nat.add_0_r in Hdm.
    assert (Hc : c = (a / s)%nat) by nia. subst c. nia.
  - assert (Hne : (a <> c * s)%nat).
    { intro Heq. assert (c <= a / s \/ a / s < c)%nat as [Hc | Hc] by lia; nia. }
    lia.
Qed.

(** The passes 0 .. a-1 count ceil(a / s) multiples of [s]. *)
Lemma count_multiples_log (s : nat) (log : list iter_log) :
  s <> 0%nat -> map it_index log = seq 0 (length log) ->
  (length log <= length (filter (fun e => it_index e mod s =? 0)%nat log) * s
   < length log + s)%nat.
Proof.
  intro Hs. induction log as [|e log IH] using rev_ind; intro Hidx.
  - simpl. lia.
  - rewrite length_app, map_app in Hidx. cbn [length map] in Hidx.
    rewrite Nat.add_1_r, seq_S in Hidx. cbn [Nat.add] in Hidx.
    apply app_inj_tail in Hidx as [Hidx He].
    specialize (IH Hidx).
    rewrite filter_app, !length_app. cbn [filter length].
    pose proof (ceil_step s (length log) _ Hs IH) as Hstep.
    rewrite He. destruct (length log mod s =? 0)%nat; cbn [length]; lia.
Qed.

Lemma count_multiples_total (s N c : nat) :
  s <> 0%nat -> (N + 1 <= c * s < N + 1 + s)%nat -> c = (1 + N / s)%nat.
Proof.
  intros Hs [H1 H2].
  assert (Hc : (1 <= c)%nat) by nia.
  assert (Hdiv : (N / s = c - 1)%nat).
  { symmetry. apply (Nat.div_unique N s (c - 1) (N - s * (c - 1))); nia. }
  lia.
Qed.

Lemma list_set_length {A} (l : list A) k x : length (list_set l k x) = length l.
Proof.
  revert k. induction l as [|y l IH]; intros [|k]; simpl; auto.
Qed.

Lemma firstn_list_set {A} (l : list A) k x :
  (k < length l)%nat -> firstn (S k) (list_set l k x) = firstn k l ++ [x].
Proof.
  revert k. induction l as [|y l IH]; intros [|k] Hk; simpl in *; try lia.
  - reflexivity.
  - f_equal. apply IH. lia.
Qed.

Lemma loop_inv_step N ss m0 lv m lv' m' :
  saving_interval (self m0) <> 0%nat ->
  (length (trace lv) <= N)%nat ->
  loop_inv N ss m0 lv m ->
  step_effects N ss (length (trace lv)) lv m lv' m' ->
  same_setup m m' ->
  loop_inv N ss m0 lv' m'.
Proof.
  intros Hs HN (Hidx & Hj & Hlen & Hhist & Hout & Hcalls & Hnpz & Hunif
                & Hnorm & Hsetup & Hdims) Heff Hstep.
  pose proof Hsetup as (Hcost & Hrestr & Hsave & _).
  unfold step_effects in Heff. cbv zeta in Heff. rewrite Hcost, Hsave in Heff.
  destruct Heff as (e & Htr & He & Hj' & Hhist' & Hout' & Hcalls' & Hnpz'
                    & Hunif' & Hdims' & Hnorm').
  unfold loop_inv. cbv zeta. rewrite Htr.
  rewrite !filter_app, !length_app, map_app. cbn [filter length map].
  pose proof (count_multiples_log _ _ Hs Hidx) as Hcount.
  fold (saved_pass (saving_interval (self m0))) in Hcount.
  repeat match goal with |- _ /\ _ => split end.
  - rewrite Nat.add_1_r, seq_S, Hidx, He. reflexivity.
  - rewrite Hj', Hj.
    destruct (saved_pass (saving_interval (self m0)) e); reflexivity.
  - rewrite Hhist'.
    destruct (saved_pass _ e); [now rewrite list_set_length | exact Hlen].
  - rewrite Hhist', Hj'. unfold saved_pass in *. rewrite He in *.
    pose proof (ceil_step _ _ _ Hs Hcount) as Hceil.
    destruct (length (trace lv) mod saving_interval (self m0) =? 0)%nat.
    + cbn [count_if]. rewrite Nat.add_1_r, firstn_list_set.
      * apply Forall2_app; [exact Hhist|].
        constructor; [|constructor]. split; cbn; [reflexivity | now rewrite He].
      * rewrite Hlen, Hj. destruct Hceil as [Hc _].
        assert (length (filter (fun e0 => (it_index e0 mod saving_interval (self m0)
                                           =? 0)%nat) (trace lv))
                <= N / saving_interval (self m0))%nat; [|lia].
        apply Nat.div_le_lower_bound; [exact Hs | nia].
    + cbn [count_if]. rewrite Nat.add_0_r, app_nil_r. exact Hhist.
  - rewrite Hout', Hout, map_app, <- app_assoc. f_equal. f_equal.
    destruct (progress_pass e); reflexivity.
  - rewrite Hcalls', Hcalls.
    destruct (saved_pass _ e); destruct (progress_pass e); cbn; lia.
  - congruence.
  - congruence.
  - intro Hr. rewrite Hnorm', (Hnorm Hr), Hdims by congruence. lia.
  - eapply same_setup_trans; eassumption.
  - congruence.
Qed.

Lemma for_range_inv N ss fuel m0 : forall k lv m,
  saving_interval (self m0) <> 0%nat ->
  (length (trace lv) + k <= N + 1)%nat ->
  loop_inv N ss m0 lv m ->
  match for_range (loop_body N ss fuel) (seq (length (trace lv)) k) lv m with
  | Ret lv' m' =>
      loop_inv N ss m0 lv' m'
      /\ length (trace lv') = (length (trace lv) + k)%nat
  | Raise _ _ => True
  end.
Proof.
  induction k as [|k IH]; intros lv m Hs Hk Hinv.
  - simpl. unfold ret. split; [exact Hinv | lia].
  - cbn [seq for_range]. unfold bind at 1.
    pose proof (loop_body_spec N ss fuel (length (trace lv)) lv m) as Hspec.
    pose proof (loop_body_effects N ss fuel (length (trace lv)) lv m) as Heff.
    destruct (loop_body N ss fuel (length (trace lv)) lv m)
      as [[b lv1] m1 | e m1]; [|exact I].
    destruct Hspec as [-> (e & Htr & _ & _ & _ & _ & _ & _ & _ & _ & Hsetup)].
    cbn [fst snd].
    assert (Hinv1 : loop_inv N ss m0 lv1 m1).
    { apply (loop_inv_step N ss m0 lv m); try assumption. lia. }
    assert (Hlen1 : length (trace lv1) = S (length (trace lv))).
    { rewrite Htr, length_app. simpl. lia. }
    specialize (IH lv1 m1 Hs).
    rewrite Hlen1 in IH.
    specialize (IH ltac:(lia) Hinv1).
    destruct (for_range (loop_body N ss fuel) (seq (S (length (trace lv))) k)
                        lv1 m1); [|exact I].
    destruct IH as [IH1 IH2]. split; [exact IH1 | lia].
Qed.

(** What a completed run leaves behind. *)
Lemma training_effects N ss save fuel m :
  match training N ss save fuel m with
  | Ret (res, log) m' =>
      let s := saving_interval (self m) in
      let f := cost_function (self m) in
      length log = (N + 1)%nat
      /\ s <> 0%nat
      /\ map it_index log = seq 0 (length log)
      /\ (exists h,
            length h = (1 + N / s)%nat
            /\ Forall2 (snapshot_of f ss) h (filter (saved_pass s) log)
            /\ npz (env m') = if save then Some h else npz (env m))
      /\ stdout (env m')
         = stdout (env m) ++ map (progress_line f N) (filter progress_pass log)
      /\ length (filter progress_pass log) = (1 + N / 50)%nat
      /\ cost_calls (env m')
         = (cost_calls (env m) + 5 * (N + 1) + (1 + N / s) + (1 + N / 50)
            + 1)%nat
      /\ uniforms_drawn (env m')
         = (uniforms_drawn (env m) + 2 * n_dims (self m))%nat
      /\ clock_reads (env m') = (clock_reads (env m) + 2)%nat
      /\ (restrictions (self m) = [] ->
          normals_drawn (env m')
          = (normals_drawn (env m) + (N + 1) * (ss * n_dims (self m)))%nat)
  | Raise _ _ => True
  end.
Proof.
  unfold training. repeat run_top.
  destruct (elitist_level (self m) <? ss)%nat; [|exact I].
  repeat run_top. tidy.
  destruct (Nat.eqb_spec (saving_interval (self m)) 0) as [|Hs]; [exact I|].
  repeat run_top.
  set (lv0 := mkLocals None 0
                (repeat (zero_snapshot (n_dims (self m)))
                        (1 + N / saving_interval (self m))) []).
  set (m0 := ticked (initialised m)).
  assert (Hinv0 : loop_inv N ss m0 lv0 m0).
  { unfold loop_inv, lv0. cbv zeta. cbn [trace j history filter map length].
    repeat match goal with |- _ /\ _ => split end;
      try reflexivity; try apply same_setup_refl.
    - apply repeat_length.
    - constructor.
    - now rewrite app_nil_r.
    - lia.
    - intros _. lia. }
  pose proof (for_range_inv N ss fuel m0 (N + 1) lv0 m0 Hs
                ltac:(simpl; lia) Hinv0) as Hloop.
  change (length (trace lv0)) with 0%nat in Hloop.
  destruct (for_range (loop_body N ss fuel) (seq 0 (N + 1)) lv0 m0)
    as [lv' m1 | e m1]; [|exact I].
  destruct Hloop as [(Hidx & Hj & Hlen & Hhist & Hout & Hcalls & Hnpz & Hunif
                      & Hnorm & Hsetup & Hdims) Hlog].
  cbn [Nat.add] in Hlog.
  cbn [m0 ticked initialised self env saving_interval cost_function
       set_best_of_best stdout cost_calls npz uniforms_drawn normals_drawn
       restrictions n_dims] in Hidx, Hj, Hlen, Hhist, Hout, Hcalls, Hnpz,
       Hunif, Hnorm, Hdims.
  destruct Hsetup as (_ & _ & _ & _ & Hreads).
  cbn [m0 ticked initialised self env clock_reads] in Hreads.
  pose proof (count_multiples_log _ _ Hs Hidx) as Hsaved.
  pose proof (count_multiples_log 50 _ ltac:(discriminate) Hidx) as Hprog.
  rewrite Hlog in Hsaved, Hprog.
  apply count_multiples_total in Hsaved; [|exact Hs].
  apply count_multiples_total in Hprog; [|discriminate].
  fold (saved_pass (saving_interval (self m))) in Hsaved.
  fold progress_pass in Hprog.
  repeat run_top.
  destruct (best_performer lv') as [bp|]; [|exact I].
  repeat run_top.
  assert (Hfull : firstn (j lv') (history lv') = history lv').
  { apply firstn_all2. rewrite Hj, Hsaved, Hlen. lia. }
  rewrite Hfull in Hhist.
  destruct save; unfold np_savez; cbv beta iota zeta; tidy;
    cbn [ticked self env npz stdout cost_calls uniforms_drawn clock_reads
         normals_drawn];
    (split; [exact Hlog|]);
    (split; [exact Hs|]);
    (split; [exact Hidx|]);
    (split; [exists (history lv'); repeat split; assumption|]);
    (split; [exact Hout|]);
    (split; [exact Hprog|]);
    (split; [rewrite Hcalls, Hlog, Hsaved, Hprog; lia|]);
    (split; [exact Hunif|]);
    (split; [lia|]);
    (intro Hr; rewrite (Hnorm Hr), Hlog; reflexivity).
Qed.

Lemma log_position (log : list iter_log) (e : iter_log) :
  map it_index log = seq 0 (length log) -> In e log ->
  nth_error log (it_index e) = Some e.
Proof.
  intros Hidx Hin. apply In_nth_error in Hin as [p Hp].
  assert (Hlt : (p < length log)%nat) by (apply nth_error_Some; congruence).
  assert (Hnth : nth p (map it_index log) 0%nat = it_index e).
  { apply nth_error_nth. now apply map_nth_error. }
  rewrite Hidx, seq_nth in Hnth by exact Hlt. simpl in Hnth.
  now rewrite <- Hnth.
Qed.

(** The saved passes are those of index 0, s, 2 s, ... *)
Lemma saved_pass_indices (s : nat) (log : list iter_log) :
  s <> 0%nat -> map it_index log = seq 0 (length log) ->
  map it_index (filter (saved_pass s) log)
  = map (fun k => (k * s)%nat)
        (seq 0 (length (filter (saved_pass s) log))).
Proof.
  intro Hs. induction log as [|e log IH] using rev_ind; intro Hidx.
  - reflexivity.
  - rewrite length_app, map_app in Hidx. cbn [length map] in Hidx.
    rewrite Nat.add_1_r, seq_S in Hidx. cbn [Nat.add] in Hidx.
    apply app_inj_tail in Hidx as [Hidx He].
    specialize (IH Hidx).
    pose proof (ceil_step s _ _ Hs (count_multiples_log s log Hs Hidx)) as Hc.
    fold (saved_pass s) in Hc.
    rewrite filter_app, map_app, length_app, IH. cbn [filter].
    assert (Hsp : saved_pass s e = (length log mod s =? 0)%nat)
      by (unfold saved_pass; now rewrite He).
    rewrite Hsp.
    destruct (length log mod s =? 0)%nat.
    + cbn [length map]. rewrite Nat.add_1_r, seq_S, map_app. cbn [map Nat.add].
      destruct Hc as [Hc _]. now rewrite He, Hc.
    + cbn [length map]. now rewrite Nat.add_0_r, app_nil_r.
Qed.

Lemma Forall2_nth_error {A B} (R : A -> B -> Prop) l1 l2 k :
  Forall2 R l1 l2 -> (k < length l1)%nat ->
  exists a b, nth_error l1 k = Some a /\ nth_error l2 k = Some b /\ R a b.
Proof.
  intro H. revert k. induction H as [|a b l1 l2 Hab _ IH]; intros [|k] Hk;
    simpl in *; try lia.
  - now exists a, b.
  - apply IH. lia.
Qed.

(** X15: a completed run fills the history exactly.  The archive that
    [np.savez] writes when [save] is set has 1 + N_iterations /
    saving_interval snapshots; snapshot k records the pass of index
    k * saving_interval: the cost of its elite target and
    k * saving_interval * sample_size evaluations.  Without [save] no file
    is written. *)
Theorem training_fills_history
        (N ss : nat) (save : bool) (fuel : nat) (m : machine)
        (res : results) (log : list iter_log) (m' : machine) :
  training N ss save fuel m = Ret (res, log) m' ->
  let s := saving_interval (self m) in
  exists h,
    length h = (1 + N / s)%nat
    /\ npz (env m') = (if save then Some h else npz (env m))
    /\ forall k, (k < 1 + N / s)%nat ->
         exists snap e,
           nth_error h k = Some snap
           /\ nth_error log (k * s) = Some e
           /\ snap_cost snap = cost_function (self m) (it_best_performer e)
           /\ snap_evals snap = (k * s * ss)%nat.
Proof.
  intro H. pose proof (training_effects N ss save fuel m) as Heff.
  rewrite H in Heff. cbv zeta in Heff.
  destruct Heff as (_ & Hs & Hidx & (h & Hlen & Hall & Hnpz) & _).
  cbv zeta. exists h. split; [exact Hlen|]. split; [exact Hnpz|].
  intros k Hk. rewrite <- Hlen in Hk.
  destruct (Forall2_nth_error _ _ _ k Hall Hk) as (snap & e & Hsnap & He & Hcost & Hev).
  exists snap, e. split; [exact Hsnap|].
  assert (Hie : it_index e = (k * saving_interval (self m))%nat).
  { pose proof (saved_pass_indices _ _ Hs Hidx) as Hmul.
    pose proof (map_nth_error it_index _ _ He) as Hk1.
    rewrite Hmul in Hk1.
    assert (Hkf : (k < length (filter (saved_pass (saving_interval (self m))) log))%nat).
    { apply nth_error_Some. congruence. }
    assert (Hseq : nth_error
                     (seq 0 (length (filter (saved_pass (saving_interval (self m)))
                                            log))) k = Some k).
    { rewrite (nth_error_nth' _ 0%nat) by now rewrite length_seq.
      now rewrite seq_nth. }
    rewrite (map_nth_error (fun k => (k * saving_interval (self m))%nat) k
               _ Hseq) in Hk1.
    now injection Hk1. }
  split; [|split; [exact Hcost | now rewrite Hev, Hie]].
  rewrite <- Hie. apply log_position; [exact Hidx|].
  apply nth_error_In in He. now apply filter_In in He.
Qed.

Lemma training_fills_history_witness :
  let o := training 2 3 true 0 Examples.plain_run in
  exists h,
    length h = (1 + 2 / 1)%nat
    /\ npz (env (Examples.machine_of o)) = Some h
    /\ forall k, (k < 1 + 2 / 1)%nat ->
         exists snap e,
           nth_error h k = Some snap
           /\ nth_error (snd (Examples.value_of Examples.no_result o)) (k * 1)
              = Some e
           /\ snap_cost snap = Examples.square (it_best_performer e)
           /\ snap_evals snap = (k * 1 * 3)%nat.
Proof.
  apply (training_fills_history 2 3 true 0 Examples.plain_run
           (fst (Examples.value_of Examples.no_result
                   (training 2 3 true 0 Examples.plain_run)))).
  vm_compute. reflexivity.
Defined.

(** X16: a completed run writes one progress line for each pass whose
    index is a multiple of 50, in order, and [progress] is called at no
    other point: 1 + N_iterations / 50 lines, each with the index of its
    pass, N_iterations and the cost of the elite target of that pass. *)
Theorem training_progress_lines
        (N ss : nat) (save : bool) (fuel : nat) (m : machine)
        (res : results) (log : list iter_log) (m' : machine) :
  training N ss save fuel m = Ret (res, log) m' ->
  stdout (env m')
  = stdout (env m)
    ++ map (progress_line (cost_function (self m)) N)
           (filter progress_pass log)
  /\ length (filter progress_pass log) = (1 + N / 50)%nat.
Proof.
  intro H. pose proof (training_effects N ss save fuel m) as Heff.
  rewrite H in Heff. cbv zeta in Heff.
  destruct Heff as (_ & _ & _ & _ & Hout & Hcount & _). now split.
Qed.

Lemma training_progress_lines_witness :
  let o := Examples.plain_outcome in
  stdout (env (Examples.machine_of o))
  = stdout (env Examples.plain_run)
    ++ map (progress_line Examples.square 2)
           (filter progress_pass (snd (Examples.value_of Examples.no_result o)))
  /\ length (filter progress_pass
                    (snd (Examples.value_of Examples.no_result o)))
     = (1 + 2 / 50)%nat.
Proof.
  apply (training_progress_lines 2 3 false 0 Examples.plain_run
           (fst (Examples.value_of Examples.no_result Examples.plain_outcome))).
  vm_compute. reflexivity.
Defined.

(** X17: what a completed run consumes.  The cost function is called
    5 (N + 1) + (1 + N / saving_interval) + (1 + N / 50) + 1 times, where N
    is N_iterations; 2 * n_dims uniform variates are drawn and the clock is
    read twice; without restrictions exactly
    (N + 1) * sample_size * n_dims normal variates are drawn. *)
Theorem training_resources
        (N ss : nat) (save : bool) (fuel : nat) (m : machine)
        (res : results) (log : list iter_log) (m' : machine) :
  training N ss save fuel m = Ret (res, log) m' ->
  cost_calls (env m')
  = (cost_calls (env m) + 5 * (N + 1) + (1 + N / saving_interval (self m))
     + (1 + N / 50) + 1)%nat
  /\ uniforms_drawn (env m')
     = (uniforms_drawn (env m) + 2 * n_dims (self m))%nat
  /\ clock_reads (env m') = (clock_reads (env m) + 2)%nat
  /\ (restrictions (self m) = [] ->
      normals_drawn (env m')
      = (normals_drawn (env m) + (N + 1) * (ss * n_dims (self m)))%nat).
Proof.
  intro H. pose proof (training_effects N ss save fuel m) as Heff.
  rewrite H in Heff. cbv zeta in Heff.
  destruct Heff as (_ & _ & _ & _ & _ & _ & Hcalls & Hunif & Hclock & Hnorm).
  now repeat split.
Qed.

Lemma training_resources_witness :
  let m' := Examples.machine_of Examples.plain_outcome in
  cost_calls (env m') = (0 + 5 * (2 + 1) + (1 + 2 / 1) + (1 + 2 / 50) + 1)%nat
  /\ uniforms_drawn (env m') = (0 + 2 * 1)%nat
  /\ clock_reads (env m') = (0 + 2)%nat
  /\ (restrictions (self Examples.plain_run) = [] ->
      normals_drawn (env m') = (0 + (2 + 1) * (3 * 1))%nat).
Proof.
  apply (training_resources 2 3 false 0 Examples.plain_run
           (fst (Examples.value_of Examples.no_result Examples.plain_outcome))
           (snd (Examples.value_of Examples.no_result Examples.plain_outcome))).
  vm_compute. reflexivity.
Defined.

(** The one pass of a run with N_iterations = 0 ends in [progress], which
    divides by N_iterations. *)
Lemma loop_body_zero ss fuel lv m :
  match loop_body 0 ss fuel 0 lv m with
  | Ret _ _ => False
  | Raise e _ =>
      e = ZeroDivisionError \/ (e = Hang /\ restrictions (self m) <> [])
  end.
Proof.
  unfold loop_body. rewrite force_level. repeat run_op.
  pose proof (sampler_frame fuel ss m) as Hs.
  destruct (match restrictions (self m) with
            | _ :: _ => restricted_quantum_sampling fuel ss
            | [] => quantum_sampling ss
            end m) as [samples m1 | e m1].
  2:{ right. destruct Hs as (-> & Hr & _). now split. }
  cbn [Nat.leb]. repeat run_op; tidy.
  all: split_if; repeat run_op; tidy.
  all: split_if; repeat run_op; tidy.
  all: change (0 mod 50 =? 0)%nat with true; cbv beta iota;
    repeat run_op; tidy; unfold progress; cbn [Nat.eqb];
    repeat run_op; now left.
Qed.

(** X18: [training] with N_iterations = 0 never returns a result: its
    first progress line divides by N_iterations.  When the configuration is
    accepted and there are no restrictions the outcome is the
    ZeroDivisionError. *)
Theorem training_zero_iterations_fails
        (ss : nat) (save : bool) (fuel : nat) (m : machine) :
  (forall v m', training 0 ss save fuel m <> Ret v m')
  /\ ((elitist_level (self m) < ss)%nat -> restrictions (self m) = [] ->
      exists m', training 0 ss save fuel m = Raise ZeroDivisionError m').
Proof.
  assert (Hnever : forall v m', training 0 ss save fuel m <> Ret v m').
  { intros v m'. unfold training. repeat run_top.
    destruct (elitist_level (self m) <? ss)%nat; [|discriminate].
    repeat run_top. tidy.
    destruct (saving_interval (self m) =? 0)%nat; [discriminate|].
    repeat run_top. cbn [Nat.add seq for_range]. repeat run_top.
    match goal with
    | |- context [loop_body 0 ss fuel 0 ?lv ?m0] =>
        pose proof (loop_body_zero ss fuel lv m0) as Hz;
        destruct (loop_body 0 ss fuel 0 lv m0); [contradiction | discriminate]
    end. }
  split; [exact Hnever|].
  intros Hlt Hr. pose proof (training_spec 0 ss save fuel m) as Hspec.
  destruct (training 0 ss save fuel m) as [v m' | e m'].
  - exfalso. exact (Hnever v m' eq_refl).
  - exists m'.
    destruct Hspec as [(_ & Hle & _) | (_ & [[-> _] | [_ H]])];
      [lia | reflexivity | contradiction].
Qed.

Lemma training_zero_iterations_fails_witness :
  (forall v m', training 0 3 false 0 Examples.plain_run <> Ret v m')
  /\ exists m', training 0 3 false 0 Examples.plain_run
                = Raise ZeroDivisionError m'.
Proof.
  destruct (training_zero_iterations_fails 3 false 0 Examples.plain_run)
    as [Hnever Hraise].
  split; [exact Hnever|]. apply Hraise; [simpl; lia | reflexivity].
Defined.

(** X19: with saving_interval = 0 an accepted configuration fails with
    the ZeroDivisionError of the history allocation, after the individual
    has been initialised and before the clock is read, a sample is drawn or
    the cost function is called. *)
Theorem training_zero_saving_interval_fails
        (N ss : nat) (save : bool) (fuel : nat) (m : machine) :
  (elitist_level (self m) < ss)%nat -> saving_interval (self m) = 0%nat ->
  training N ss save fuel m = Raise ZeroDivisionError (initialised m).
Proof.
  intros Hlt Hs. unfold training. repeat run_top.
  destruct (Nat.ltb_spec (elitist_level (self m)) ss); [|lia].
  repeat run_top. tidy. rewrite Hs. reflexivity.
Qed.

Lemma training_zero_saving_interval_fails_witness :
  training 5 3 true 0 Examples.no_saving
  = Raise ZeroDivisionError (initialised Examples.no_saving).
Proof.
  apply (training_zero_saving_interval_fails 5 3 true 0 Examples.no_saving).
  - simpl. lia.
  - reflexivity.
Defined.

(** ** training: best_of_best after its first replacement *)

(** The loop inside a completed run. *)
Lemma training_loop_inversion N ss save fuel m res log m' :
  training N ss save fuel m = Ret (res, log) m' ->
  exists lv0 lv' m1,
    trace lv0 = []
    /\ for_range (loop_body N ss fuel) (seq 0 (N + 1)) lv0
                 (ticked (initialised m)) = Ret lv' m1
    /\ trace lv' = log /\ self m' = self m1 /\ Qarr m' = Qarr m1.
Proof.
  unfold training. repeat run_top.
  destruct (elitist_level (self m) <? ss)%nat; [|discriminate].
  repeat run_top. tidy.
  destruct (saving_interval (self m) =? 0)%nat; [discriminate|].
  repeat run_top.
  match goal with
  | |- context [for_range ?body ?range ?lv ?m0] =>
      set (lv0 := lv);
      destruct (for_range body range lv0 m0) as [lv' m1 | e m1] eqn:E;
      [|discriminate]
  end.
  repeat run_top.
  destruct (best_performer lv'); [|discriminate].
  repeat run_top.
  destruct save; unfold np_savez; cbv beta iota; intros [= _ <- <-];
    exists lv0, lv', m1; now repeat split.
Qed.

Lemma for_range_owned N ss fuel : forall k a lv m lv' m' v,
  for_range (loop_body N ss fuel) (seq a k) lv m = Ret lv' m' ->
  best_of_best (self m) = Owned v ->
  exists es,
    trace lv' = trace lv ++ es
    /\ cost_function (self m') = cost_function (self m)
    /\ Forall (fun e => cost_function (self m) (it_bob_after e)
                        <= cost_function (self m) v) es.
Proof.
  induction k as [|k IH]; intros a lv m lv' m' v H Hown.
  - simpl in H. injection H as <- <-. exists [].
    rewrite app_nil_r. repeat split. constructor.
  - cbn [seq for_range] in H. unfold bind at 1 in H.
    pose proof (loop_body_spec N ss fuel a lv m) as Hspec.
    destruct (loop_body N ss fuel a lv m) as [[b lv1] m1 | e m1];
      [|discriminate].
    destruct Hspec as [-> Hstep]. cbn [fst snd] in H.
    destruct (owned_best_of_best_cost_monotone _ _ _ _ _ _ v Hstep Hown)
      as (v1 & Hown1 & Hderef & Hle).
    destruct Hstep as (e & Htr & _ & _ & _ & _ & _ & Hafter & _ & _ & Hsetup).
    destruct Hsetup as (Hcost & _).
    destruct (IH _ _ _ _ _ v1 H Hown1) as (es & Htr' & Hcost' & Hall).
    exists (e :: es). split; [|split].
    + rewrite Htr', Htr, <- app_assoc. reflexivity.
    + congruence.
    + rewrite Hcost in Hle. constructor.
      * rewrite Hafter, Hderef. exact Hle.
      * eapply Forall_impl; [|exact Hall]. intros e' He'. cbv beta in He'.
        rewrite Hcost in He'. eapply Qle_trans; eassumption.
Qed.

Lemma for_range_never_worse N ss fuel : forall k a lv m lv' m',
  for_range (loop_body N ss fuel) (seq a k) lv m = Ret lv' m' ->
  exists es,
    trace lv' = trace lv ++ es
    /\ ForallOrdPairs (never_worse (cost_function (self m))) es.
Proof.
  induction k as [|k IH]; intros a lv m lv' m' H.
  - simpl in H. injection H as <- <-. exists [].
    rewrite app_nil_r. split; [reflexivity | constructor].
  - cbn [seq for_range] in H. unfold bind at 1 in H.
    pose proof (loop_body_spec N ss fuel a lv m) as Hspec.
    destruct (loop_body N ss fuel a lv m) as [[b lv1] m1 | e m1];
      [|discriminate].
    destruct Hspec as [-> Hstep]. cbn [fst snd] in H.
    destruct Hstep as (e & Htr & _ & _ & _ & _ & _ & Hafter & _ & Hbob & Hsetup).
    destruct Hsetup as (Hcost & _).
    destruct (IH _ _ _ _ _ H) as (es & Htr' & Hpairs).
    exists (e :: es). split.
    + rewrite Htr', Htr, <- app_assoc. reflexivity.
    + constructor; [|now rewrite <- Hcost].
      destruct (it_replaced e) eqn:Erep.
      * destruct (for_range_owned N ss fuel k _ _ _ _ _ _ H Hbob)
          as (es2 & Htr2 & _ & Hall).
        rewrite Htr' in Htr2. apply app_inv_head in Htr2 as <-.
        eapply Forall_impl; [|exact Hall].
        intros e' He' _. rewrite Hafter, Hbob. cbn [deref].
        now rewrite <- Hcost.
      * apply Forall_forall. intros e' _ Habs. congruence.
Qed.

(** X20: from the first pass that replaces it, [best_of_best] behaves as
    the best point found: in the log of a completed run, whenever a pass
    has replaced [best_of_best], every later pass leaves a [best_of_best]
    whose cost is at most the cost of the one that pass installed. *)
Theorem best_of_best_monotone_after_replacement
        (N ss : nat) (save : bool) (fuel : nat) (m : machine)
        (res : results) (log : list iter_log) (m' : machine) :
  training N ss save fuel m = Ret (res, log) m' ->
  ForallOrdPairs (never_worse (cost_function (self m))) log.
Proof.
  intro H.
  apply training_loop_inversion in H
    as (lv0 & lv' & m1 & Hnil & Hloop & <- & _).
  apply for_range_never_worse in Hloop as (es & Htr & Hpairs).
  rewrite Hnil in Htr. cbn [app] in Htr. now rewrite Htr.
Qed.

Lemma best_of_best_monotone_after_replacement_witness :
  let log := snd (Examples.value_of Examples.no_result
                    (training 2 3 false 0 Examples.improving)) in
  ForallOrdPairs (never_worse Examples.square) log.
Proof.
  apply (best_of_best_monotone_after_replacement 2 3 false 0 Examples.improving
           (fst (Examples.value_of Examples.no_result
                   (training 2 3 false 0 Examples.improving)))
           _ (Examples.machine_of (training 2 3 false 0 Examples.improving))).
  vm_compute. reflexivity.
Defined.

(** ** progress: the rendered bar *)

Lemma np_round_py_round (x : Q) : np_round x = inject_Z (py_round x).
Proof.
  unfold np_round, py_round.
  destruct (Qltb (x - inject_Z (Qfloor x)) (1 # 2)); [reflexivity|].
  destruct (Qltb (1 # 2) (x - inject_Z (Qfloor x))); [reflexivity|].
  destruct (Z.even (Qfloor x)); reflexivity.
Qed.

Lemma py_round_between (x : Q) (lo hi : Z) :
  inject_Z lo <= x <= inject_Z hi -> (lo <= py_round x <= hi)%Z.
Proof.
  intro H.
  assert (Hw : forall z, is_whole (inject_Z z))
    by (intro z; unfold is_whole; now rewrite Qfloor_Z).
  pose proof (np_round_between x _ _ (Hw lo) (Hw hi) H) as [H1 H2].
  rewrite np_round_py_round in H1, H2.
  rewrite <- Zle_Qle in H1, H2. lia.
Qed.

Lemma py_round_comp (x y : Q) : x == y -> py_round x = py_round y.
Proof.
  intro H. pose proof (np_round_comp x y H) as Hr.
  rewrite !np_round_py_round in Hr.
  apply (f_equal Qfloor) in Hr. now rewrite !Qfloor_Z in Hr.
Qed.

Lemma progress_fraction (count total : nat) (c : Q) :
  total <> 0%nat -> (count <= total)%nat -> 0 <= c ->
  0 <= c * inject_Z (Z.of_nat count) / inject_Z (Z.of_nat total) <= c.
Proof.
  intros Ht Hle Hc.
  assert (Htot : 0 < inject_Z (Z.of_nat total)).
  { change 0 with (inject_Z 0). rewrite <- Zlt_Qlt. lia. }
  assert (Hcnt : 0 <= inject_Z (Z.of_nat count)).
  { change 0 with (inject_Z 0). rewrite <- Zle_Qle. lia. }
  assert (Hct : inject_Z (Z.of_nat count) <= inject_Z (Z.of_nat total)).
  { rewrite <- Zle_Qle. lia. }
  split.
  - apply Qle_shift_div_l; [exact Htot|]. rewrite Qmult_0_l.
    now apply Qmult_le_0_compat.
  - apply Qle_shift_div_r; [exact Htot|].
    rewrite !(Qmult_comm c). now apply Qmult_le_compat_r.
Qed.

(** X21: for a count between 0 and a positive total, as in every call that
    [training] makes, the bar that [progress] renders has exactly 30 cells
    and the percentage lies between 0 and 100; the bar is all '_' for the
    count 0 and all '|' when the count reaches the total. *)
Theorem progress_bar_has_30_cells (count total : nat) :
  total <> 0%nat -> (count <= total)%nat ->
  length (progress_bar count total) = 30%nat
  /\ (0 <= filled_len count total <= 30)%Z
  /\ 0 <= percents count total <= 100
  /\ (count = 0%nat -> progress_bar count total = repeat "_"%char 30)
  /\ (count = total -> progress_bar count total = repeat "|"%char 30).
Proof.
  intros Ht Hle.
  assert (Hfill : (0 <= filled_len count total <= 30)%Z).
  { apply py_round_between.
    apply (progress_fraction count total 30 Ht Hle). discriminate. }
  assert (Htot : ~ inject_Z (Z.of_nat total) == 0).
  { change 0 with (inject_Z 0). rewrite inject_Z_injective. lia. }
  split; [|split; [exact Hfill|split; [|split]]].
  - unfold progress_bar, str_repeat. rewrite length_app, !repeat_length. lia.
  - unfold percents.
    assert (Hp : (0 <= py_round (100 * inject_Z (Z.of_nat count)
                               / inject_Z (Z.of_nat total) * 10) <= 1000)%Z).
    { apply py_round_between.
      pose proof (progress_fraction count total 100 Ht Hle ltac:(discriminate))
        as [H1 H2].
      change (inject_Z 0) with 0. change (inject_Z 1000) with 1000.
      split; lra. }
    destruct Hp as [H1 H2]. rewrite Zle_Qle in H1, H2.
    change (inject_Z 0) with 0 in H1. change (inject_Z 1000) with 1000 in H2.
    split.
    + apply Qle_shift_div_l; [reflexivity | lra].
    + apply Qle_shift_div_r; [reflexivity | lra].
  - intros ->. unfold progress_bar, filled_len.
    rewrite (py_round_comp _ 0) by (change (inject_Z (Z.of_nat 0)) with 0;
                                    field; exact Htot).
    reflexivity.
  - intros ->. unfold progress_bar, filled_len.
    rewrite (py_round_comp _ 30) by (field; exact Htot).
    reflexivity.
Qed.

Lemma progress_bar_has_30_cells_witness :
  length (progress_bar 50 2000) = 30%nat
  /\ (0 <= filled_len 50 2000 <= 30)%Z
  /\ 0 <= percents 50 2000 <= 100
  /\ (50%nat = 0%nat -> progress_bar 50 2000 = repeat "_"%char 30)
  /\ (50%nat = 2000%nat -> progress_bar 50 2000 = repeat "|"%char 30).
Proof.
  apply (progress_bar_has_30_cells 50 2000).
  - discriminate.
  - apply Nat.leb_le. reflexivity.
Defined.

(** ** training: the reported position lies in the domain *)








(** ** training: runs that cannot complete, and a second run *)

(** X23: [training] on a single restriction that is negative on the whole
    domain never completes: with an accepted configuration the first pass
    stays in the loop of the restricted sampler, whatever the bound on its
    rounds. *)
Theorem training_never_completes_when_infeasible
        (N ss : nat) (save : bool) (fuel : nat) (m : machine) (h : row -> Q) :
  (elitist_level (self m) < ss)%nat -> saving_interval (self m) <> 0%nat ->
  restrictions (self m) = [h] ->
  valid_domain (self m) -> integral_bounds_whole (self m) ->
  (forall r, in_bounds (self m) r -> h r < 0) ->
  exists m', training N ss save fuel m = Raise Hang m'.
Proof.
  intros Hlt Hs Hh Hv Hw Hneg. unfold training. repeat run_top.
  destruct (Nat.ltb_spec (elitist_level (self m)) ss); [|lia].
  repeat run_top. tidy.
  destruct (Nat.eqb_spec (saving_interval (self m)) 0); [contradiction|].
  repeat run_top. rewrite Nat.add_1_r. cbn [seq for_range]. repeat run_top.
  unfold loop_body. repeat run_op.
  cbn [ticked initialised self set_best_of_best restrictions]. rewrite Hh.
  destruct (restricted_sampling_hangs fuel ss (ticked (initialised m)) h)
    as [m' Hm']; try assumption; [lia|].
  rewrite Hm'. now exists m'.
Qed.

Lemma training_never_completes_when_infeasible_witness :
  exists m', training 10 5 false 40 Examples.infeasible = Raise Hang m'.
Proof.
  apply (training_never_completes_when_infeasible
           10 5 false 40 Examples.infeasible Examples.h_ge20).
  - simpl. lia.
  - discriminate.
  - reflexivity.
  - repeat split; intros [|i] Hi; simpl in *; try lia. discriminate.
  - intros [|[|i]] Hi; simpl in Hi; discriminate.
  - intros r [Hlen Hb]. specialize (Hb 0%nat Nat.lt_0_1). simpl in Hb.
    unfold Examples.h_ge20, Examples.first. lra.
Defined.

(** C7 as stated fails.  With N_iterations = 0 the accepted run of
    [plain_run] does not get through its one pass: the pass of index 0
    ends in the ZeroDivisionError of the progress line, and so does the
    run.  And on the restriction of [infeasible], which no point of the
    domain meets, the run completes no pass at all, whatever the bound on
    the rounds of the sampler. *)
Lemma training_run_cut_short :
  (elitist_level (self Examples.plain_run) < 3)%nat
  /\ (exists m',
        loop_body 0 3 0 0 (initial_locals (self Examples.plain_run) 0)
                  (ticked (initialised Examples.plain_run))
        = Raise ZeroDivisionError m')
  /\ (exists m',
        training 0 3 false 0 Examples.plain_run = Raise ZeroDivisionError m')
  /\ (forall fuel, exists m',
        training 2 5 false fuel Examples.infeasible = Raise Hang m').
Proof.
  split; [simpl; lia|]. split; [|split].
  - exists (Examples.machine_of
              (loop_body 0 3 0 0 (initial_locals (self Examples.plain_run) 0)
                         (ticked (initialised Examples.plain_run)))).
    vm_compute. reflexivity.
  - exists (Examples.machine_of (training 0 3 false 0 Examples.plain_run)).
    vm_compute. reflexivity.
  - intro fuel.
    assert (H : (elitist_level (self Examples.infeasible) < 5)%nat
                /\ saving_interval (self Examples.infeasible) <> 0%nat
                /\ restrictions (self Examples.infeasible) = [Examples.h_ge20]
                /\ valid_domain (self Examples.infeasible)
                /\ integral_bounds_whole (self Examples.infeasible)
                /\ (forall r, in_bounds (self Examples.infeasible) r ->
                               Examples.h_ge20 r < 0)).
    { split; [simpl; lia|]. split; [discriminate|]. split; [reflexivity|].
      split; [|split].
      - repeat split; intros [|i] Hi; simpl in *; try lia. discriminate.
      - intros [|[|i]] Hi; simpl in Hi; discriminate.
      - intros r [Hlen Hb]. specialize (Hb 0%nat Nat.lt_0_1). simpl in Hb.
        unfold Examples.h_ge20, Examples.first. lra. }
    revert H. generalize Examples.infeasible. generalize Examples.h_ge20.
    intros h m (Hlt & Hs & Hh & Hv & Hw & Hneg).
    unfold training. repeat run_top.
    destruct (Nat.ltb_spec (elitist_level (self m)) 5); [|lia].
    repeat run_top. tidy.
    destruct (Nat.eqb_spec (saving_interval (self m)) 0); [contradiction|].
    repeat run_top. cbn [Nat.add seq for_range]. repeat run_top.
    unfold loop_body. repeat run_op.
    cbn [ticked initialised self set_best_of_best restrictions]. rewrite Hh.
    destruct (restricted_sampling_hangs fuel 5 (ticked (initialised m)) h)
      as [m' Hm']; try assumption; [lia|].
    rewrite Hm'. now exists m'.
Qed.

Lemma mask_step_ge_drops samples valid h k r :
  nth_error samples k = Some r -> nth_error valid k = Some true ->
  h r < 0 -> nth_error (mask_step_ge samples valid h) k = Some false.
Proof.
  unfold mask_step_ge. revert valid k.
  induction samples as [|x samples IH]; intros [|b valid] [|k]; simpl;
    try discriminate.
  - intros [= ->] [= ->] Hneg. f_equal. simpl.
    destruct (Qle_bool 0 (h r)) eqn:E; [|reflexivity].
    apply Qle_bool_iff in E. exfalso. exact (Qlt_not_le _ _ Hneg E).
  - intros Hs Hv Hneg. now apply IH.
Qed.

Lemma nth_error_repeat_lt {A} (a : A) n k :
  (k < n)%nat -> nth_error (repeat a n) k = Some a.
Proof.
  revert k. induction n as [|n IH]; intros [|k] Hk; simpl; try lia; auto.
  apply IH. lia.
Qed.

Lemma select_keeps {A} mask (xs : list A) k x :
  nth_error xs k = Some x -> nth_error mask k = Some true ->
  In x (select mask xs).
Proof.
  revert xs k. induction mask as [|b mask IH]; intros [|y xs] [|k]; simpl;
    try discriminate.
  - intros [= ->] [= ->]. now left.
  - intros Hx Hm. destruct b; [right|]; now apply (IH xs k).
Qed.

(** X24: with two restrictions the first one is not enforced on the first
    batch: every row of the first batch on which the first restriction is
    negative is among the rows returned, whatever the second restriction
    says about it. *)
Theorem restricted_sampling_keeps_first_violations
        (fuel n : nat) (m : machine) (h1 h2 : row -> Q)
        (rows : batch) (m' : machine) (k : nat) (r : row) :
  restrictions (self m) = [h1; h2] ->
  restricted_quantum_sampling fuel n m = Ret rows m' ->
  nth_error (sampled_rows m n) k = Some r -> h1 r < 0 ->
  In r rows.
Proof.
  intros Hh H Hr Hneg.
  unfold restricted_quantum_sampling in H.
  unfold bind at 1, get_self at 1 in H. unfold bind at 1 in H.
  rewrite quantum_sampling_eq, Hh in H. cbn [fold_left] in H.
  apply resample_loop_strict in H as (extra & -> & _).
  apply in_or_app. left.
  assert (Hk : (k < n)%nat).
  { rewrite <- (sampled_rows_length m n). apply nth_error_Some. congruence. }
  apply (select_keeps _ _ k); [exact Hr|].
  eapply mask_step_ge_revives; [exact Hr|].
  eapply mask_step_ge_drops; [exact Hr | | exact Hneg].
  now apply nth_error_repeat_lt.
Qed.

Lemma restricted_sampling_keeps_first_violations_witness :
  In [1] (Examples.value_of []
            (restricted_quantum_sampling 0 1 Examples.two_restrictions)).
Proof.
  apply (restricted_sampling_keeps_first_violations
           0 1 Examples.two_restrictions Examples.h_ge5 Examples.h_ge_minus10
           _ (Examples.machine_of
                (restricted_quantum_sampling 0 1 Examples.two_restrictions))
           0 [1]).
  - reflexivity.
  - vm_compute. reflexivity.
  - reflexivity.
  - reflexivity.
Defined.

(** X25: the forced elitist_level outlives the run: when [training] is
    called again on the object that a completed run has left, every pass
    of the second run works with elitist_level 1, and the second call
    accepts any sample_size above 1. *)
Theorem second_training_runs_with_level_one
        (N ss : nat) (save : bool) (fuel : nat) (m : machine)
        (res : results) (log : list iter_log) (m1 : machine)
        (N2 ss2 : nat) (save2 : bool) (fuel2 : nat) :
  training N ss save fuel m = Ret (res, log) m1 ->
  (forall m2, training N2 ss2 save2 fuel2 m1 = Raise AssertionError m2 ->
              (ss2 <= 1)%nat)
  /\ (forall res2 log2 m2,
        training N2 ss2 save2 fuel2 m1 = Ret (res2, log2) m2 ->
        Forall (fun e => it_elitist_level e = 1%nat) log2).
Proof.
  intro H. pose proof (training_spec N ss save fuel m) as Hspec.
  rewrite H in Hspec. destruct Hspec as (_ & _ & _ & _ & _ & _ & Hone).
  pose proof (training_spec N2 ss2 save2 fuel2 m1) as Hspec2. split.
  - intros m2 H2. rewrite H2 in Hspec2.
    destruct Hspec2 as [(_ & Hle & _) | (_ & [[He _] | [He _]])];
      [lia | discriminate..].
  - intros res2 log2 m2 H2. rewrite H2 in Hspec2.
    destruct Hspec2 as (_ & _ & Hall & _).
    eapply Forall_impl; [|exact Hall]. intros e He. cbv beta in He.
    rewrite He, Hone. unfold level_at. now destruct (N2 <=? it_index e)%nat.
Qed.

Lemma second_training_runs_with_level_one_witness :
  let m1 := Examples.machine_of Examples.plain_outcome in
  (forall m2, training 1 2 false 0 m1 = Raise AssertionError m2 -> (2 <= 1)%nat)
  /\ (forall res2 log2 m2,
        training 1 2 false 0 m1 = Ret (res2, log2) m2 ->
        Forall (fun e => it_elitist_level e = 1%nat) log2).
Proof.
  apply (second_training_runs_with_level_one 2 3 false 0 Examples.plain_run
           (fst (Examples.value_of Examples.no_result Examples.plain_outcome))
           (snd (Examples.value_of Examples.no_result Examples.plain_outcome))).
  vm_compute. reflexivity.
Defined.
